(** * bayespy/utils/linalg.py: batched Cholesky helpers over NumPy arrays

    A shallow embedding of the module [bayespy.utils.linalg].  NumPy arrays
    are kept the way NumPy keeps them: a flat, row-major buffer of scalars
    that lives in a store, and array objects that point into the store and
    carry a shape.  The functions of the module are programs of a small
    state-and-exception monad over that store; name lookup follows Python
    (module globals, function locals that may still be unbound).

    The scalar type is a parameter: no theorem below uses an algebraic law
    of the scalars, so every statement also holds for IEEE doubles, whose
    addition is not associative.  For the same reason the two summing
    kernels of NumPy, the reduction of [np.sum] and the sum of products of
    [np.einsum], are parameters: in which order they add is NumPy's own
    choice.  The LAPACK-backed routines of [scipy.linalg] are parameters as
    well (type classes).  Concrete inputs use binary64 floats with a
    textbook upper Cholesky factorisation and the two triangular solves
    that go with it, and, where sums are evaluated, 64-bit integers and
    real numbers, for which every order of adding gives the same sum. *)

From Stdlib Require Import List ZArith Lia String Bool Floats Reals.
From stdpp Require Import base list.
Import ListNotations.
Local Open Scope list_scope.
Local Open Scope nat_scope.

(** ** Python exceptions and outcomes *)

Inductive exn : Type :=
| NameError (name : string)
| UnboundLocalError (name : string)
| ValueError (msg : string)
| IndexError (msg : string)
| AxisError (msg : string)
| LinAlgError (msg : string)
| NotImplementedError
| PyException (msg : string).

(** [UnboundLocalError] is a subclass of [NameError]. *)
Definition is_NameError (e : exn) : bool :=
  match e with
  | NameError _ | UnboundLocalError _ => true
  | _ => false
  end.

(** [except np.linalg.linalg.LinAlgError] *)
Definition is_LinAlgError (e : exn) : bool :=
  match e with
  | LinAlgError _ => true
  | _ => false
  end.

Inductive outcome (A : Type) : Type :=
| Ret (a : A)
| Raise (e : exn).
Arguments Ret {A} a.
Arguments Raise {A} e.

Definition obind {A B} (o : outcome A) (k : A -> outcome B) : outcome B :=
  match o with
  | Ret a => k a
  | Raise e => Raise e
  end.

Declare Scope py_scope.
Delimit Scope py_scope with py.

(** ** Shapes and row-major indexing *)

(** Number of elements of an array of shape [sh]. *)
Definition size (sh : list nat) : nat := fold_right Nat.mul 1 sh.

(** Flat position of the multi-index [idx] in an array of shape [sh]. *)
Fixpoint ravel (sh idx : list nat) : nat :=
  match sh, idx with
  | _ :: sh', i :: idx' => i * size sh' + ravel sh' idx'
  | _, _ => 0
  end.

(** [idx] is a full multi-index of an array of shape [sh]. *)
Fixpoint in_bounds (sh idx : list nat) : bool :=
  match sh, idx with
  | [], [] => true
  | d :: sh', i :: idx' => (i <? d) && in_bounds sh' idx'
  | _, _ => false
  end.

(** All multi-indices of shape [sh], first axis slowest ([np.ndindex]). *)
Fixpoint ndindex (sh : list nat) : list (list nat) :=
  match sh with
  | [] => [[]]
  | d :: sh' => flat_map (fun i => map (cons i) (ndindex sh')) (seq 0 d)
  end.

(** Modelled from the spec: [nested_iterator] is imported from
    [bayespy/utils/utils.py], which is not among the sources.  Section 4.2
    of the spec: every multi-index of the Cartesian product
    [range(shape[0]) x ... x range(shape[-1])] in lexicographic
    (first-axis-slowest) order, and exactly one empty tuple for the empty
    shape. *)
Definition nested_iterator (max_inds : list nat) : list (list nat) :=
  ndindex max_inds.

(** Python sequence helpers: [t[:-k]], [t[-k:]], and [t[i]] with a possibly
    negative [i]. *)
Definition drop_last {A} (k : nat) (t : list A) : list A :=
  take (length t - k) t.

Definition take_last {A} (k : nat) (t : list A) : list A :=
  drop (length t - k) t.

Definition norm_index (len : nat) (i : Z) : option nat :=
  let j := if (i <? 0)%Z then (i + Z.of_nat len)%Z else i in
  if ((0 <=? j)%Z && (j <? Z.of_nat len)%Z)%bool then Some (Z.to_nat j) else None.

Definition py_getitem {A} (t : list A) (i : Z) : outcome A :=
  match norm_index (length t) i with
  | Some j =>
      match t !! j with
      | Some x => Ret x
      | None => Raise (IndexError "index out of range")
      end
  | None => Raise (IndexError "index out of range")
  end.

Definition py_setitem {A} (t : list A) (i : Z) (x : A) : outcome (list A) :=
  match norm_index (length t) i with
  | Some j => Ret (<[j := x]> t)
  | None => Raise (IndexError "list assignment index out of range")
  end.

(** [range(a, b)] *)
Definition py_range (a b : Z) : list Z :=
  map (fun k => (a + Z.of_nat k)%Z) (seq 0 (Z.to_nat (b - a))).

(** ** Arrays as values: a shape and the row-major data *)

Record ndarray (F : Type) : Type := mk_nd { shape : list nat; data : list F }.
Arguments mk_nd {F} shape data.
Arguments shape {F} n.
Arguments data {F} n.

(** The scalars the module computes with ([numpy.float64]): the constants
    and operations its own expressions use. *)
Class Scalar (F : Type) : Type := {
  zero : F;
  one : F;
  add : F -> F -> F;
  mul : F -> F -> F;
  of_int : Z -> F
}.

(** [numpy.log] on one element. *)
Class Log (F : Type) : Type := log : F -> F.

(** Whatever [numpy.empty] finds in the memory it hands out, by position. *)
Class Uninit (F : Type) : Type := uninitialized : nat -> F.

(** [np.add.reduce] along one contiguous run of scalars: NumPy's sum of the
    run.  The order in which the addends are added is NumPy's (for floats
    it adds pairwise, in blocks); nothing here fixes it. *)
Class AddReduce (F : Type) : Type := add_reduce : list F -> F.

(** The inner loop of [np.einsum] for one element of a contraction of two
    operands: [xs] and [ys] are the runs of the operands along the
    contracted axis, a run of length 1 standing for an axis that is
    broadcast.  The result is NumPy's sum of the products; the order of
    the additions, and whether a broadcast factor is multiplied in before
    or after adding, are NumPy's and are not fixed here. *)
Class SumOfProducts (F : Type) : Type := sum_of_products : list F -> list F -> F.

(** ** The NumPy fragment the module uses, on array values *)

Section Numpy.
Context {F : Type} {SF : Scalar F}.

Definition ndim (a : ndarray F) : nat := length (shape a).

(** The data fills the shape. *)
Definition wf (a : ndarray F) : Prop := length (data a) = size (shape a).

(** [a[idx]] for a full multi-index. *)
Definition item (a : ndarray F) (idx : list nat) : F :=
  nth (ravel (shape a) idx) (data a) zero.

(** The array of shape [sh] whose element at [idx] is [f idx]. *)
Definition tabulate (sh : list nat) (f : list nat -> F) : ndarray F :=
  mk_nd sh (map f (ndindex sh)).

(** Shapes of [np.atleast_1d] and [np.atleast_2d]; the data is shared. *)
Definition atleast_1d_shape (sh : list nat) : list nat :=
  match sh with
  | [] => [1]
  | _ => sh
  end.

Definition atleast_2d_shape (sh : list nat) : list nat :=
  match sh with
  | [] => [1; 1]
  | [n] => [1; n]
  | _ => sh
  end.

Definition np_zeros (sh : list nat) : ndarray F := tabulate sh (fun _ => zero).

Definition np_identity (n : nat) : ndarray F :=
  tabulate [n; n]
    (fun idx => match idx with
                | [i; j] => if i =? j then one else zero
                | _ => zero
                end).

(** *** Broadcasting *)

Definition pad_left {A} (n : nat) (x : A) (l : list A) : list A :=
  repeat x (n - length l) ++ l.

Definition broadcast_dim (a b : nat) : option nat :=
  if a =? b then Some a
  else if a =? 1 then Some b
  else if b =? 1 then Some a
  else None.

Fixpoint broadcast_zip (sa sb : list nat) : option (list nat) :=
  match sa, sb with
  | a :: sa', b :: sb' =>
      match broadcast_dim a b, broadcast_zip sa' sb' with
      | Some d, Some r => Some (d :: r)
      | _, _ => None
      end
  | _, _ => Some []
  end.

(** Right-aligned broadcasting of two shapes ([np.broadcast_shapes]). *)
Definition broadcast_shapes (sa sb : list nat) : option (list nat) :=
  let n := Nat.max (length sa) (length sb) in
  broadcast_zip (pad_left n 1 sa) (pad_left n 1 sb).

(** The index into an operand of shape [sh] that the result index [idx]
    reads: right-aligned, and pinned to 0 on the operand's axes of size 1. *)
Definition bc_index (sh idx : list nat) : list nat :=
  zip_with (fun d i => if d =? 1 then 0 else i) sh
    (repeat 0 (length sh - length idx) ++ drop (length idx - length sh) idx).

Definition np_multiply (a b : ndarray F) : outcome (ndarray F) :=
  match broadcast_shapes (shape a) (shape b) with
  | Some sh =>
      Ret (tabulate sh (fun idx => mul (item a (bc_index (shape a) idx))
                                       (item b (bc_index (shape b) idx))))
  | None => Raise (ValueError "operands could not be broadcast together")
  end.

(** *** Basic indexing: integers, [:], [...] and [np.newaxis] *)

Inductive index_item : Type :=
| IInt (i : Z)
| IEllipsis
| INewaxis
| IFull.

(** What an index does on each axis once [...] is expanded. *)
Inductive sel : Type :=
| SFix (k : nat)
| SAll (d : nat)
| SNew.

Definition is_ellipsis (it : index_item) : bool :=
  match it with
  | IEllipsis => true
  | _ => false
  end.

Definition consumes (it : index_item) : bool :=
  match it with
  | IInt _ | IFull => true
  | _ => false
  end.

Definition count_if {A} (p : A -> bool) (l : list A) : nat :=
  length (List.filter p l).

(** [...] stands for [n] whole axes; an index without it takes the axes it
    does not mention whole. *)
Fixpoint expand_ellipsis (n : nat) (ix : list index_item) : list index_item :=
  match ix with
  | [] => repeat IFull n
  | IEllipsis :: rest => repeat IFull n ++ rest
  | it :: rest => it :: expand_ellipsis n rest
  end.

Fixpoint select (sh : list nat) (ix : list index_item) : outcome (list sel) :=
  match ix with
  | [] => Ret []
  | INewaxis :: ix' => obind (select sh ix') (fun s => Ret (SNew :: s))
  | IEllipsis :: ix' => select sh ix'
  | IInt i :: ix' =>
      match sh with
      | d :: sh' =>
          match norm_index d i with
          | Some k => obind (select sh' ix') (fun s => Ret (SFix k :: s))
          | None => Raise (IndexError "index is out of bounds for axis")
          end
      | [] => Raise (IndexError "too many indices for array")
      end
  | IFull :: ix' =>
      match sh with
      | d :: sh' => obind (select sh' ix') (fun s => Ret (SAll d :: s))
      | [] => Raise (IndexError "too many indices for array")
      end
  end.

Definition selection (sh : list nat) (ix : list index_item) : outcome (list sel) :=
  if 1 <? count_if is_ellipsis ix then
    Raise (IndexError "an index can only have a single ellipsis")
  else if length sh <? count_if consumes ix then
    Raise (IndexError "too many indices for array")
  else select sh (expand_ellipsis (length sh - count_if consumes ix) ix).

Fixpoint sel_shape (s : list sel) : list nat :=
  match s with
  | [] => []
  | SFix _ :: s' => sel_shape s'
  | SAll d :: s' => d :: sel_shape s'
  | SNew :: s' => 1 :: sel_shape s'
  end.

(** The element of the indexed array that the element [oidx] of the result
    stands for. *)
Fixpoint sel_source (s : list sel) (oidx : list nat) : list nat :=
  match s with
  | [] => []
  | SFix k :: s' => k :: sel_source s' oidx
  | SAll _ :: s' => hd 0 oidx :: sel_source s' (tl oidx)
  | SNew :: s' => sel_source s' (tl oidx)
  end.

(** Whether the element [idx] of the indexed array is selected, and which
    element of the selection it is. *)
Fixpoint sel_member (s : list sel) (idx : list nat) : bool :=
  match s with
  | [] => true
  | SFix k :: s' => (hd 0 idx =? k) && sel_member s' (tl idx)
  | SAll _ :: s' => sel_member s' (tl idx)
  | SNew :: s' => sel_member s' idx
  end.

Fixpoint sel_project (s : list sel) (idx : list nat) : list nat :=
  match s with
  | [] => []
  | SFix _ :: s' => sel_project s' (tl idx)
  | SAll _ :: s' => hd 0 idx :: sel_project s' (tl idx)
  | SNew :: s' => 0 :: sel_project s' idx
  end.

(** [a[ix]], read out as a value. *)
Definition getitem (a : ndarray F) (ix : list index_item) : outcome (ndarray F) :=
  obind (selection (shape a) ix)
    (fun s => Ret (tabulate (sel_shape s) (fun o => item a (sel_source s o)))).

(** A value of shape [shv] can be assigned to a region of shape [tsh]:
    extra leading axes have size 1, the others match or have size 1. *)
Definition assignable (shv tsh : list nat) : bool :=
  let extra := length shv - length tsh in
  forallb (Nat.eqb 1) (take extra shv)
  && forallb (fun p => (fst p =? snd p) || (fst p =? 1))
       (combine (drop extra shv) (drop (length tsh - length shv) tsh)).

(** The content of [a] after [a[ix] = v]. *)
Definition setitem (a : ndarray F) (ix : list index_item) (v : ndarray F)
  : outcome (ndarray F) :=
  obind (selection (shape a) ix)
    (fun s =>
       if assignable (shape v) (sel_shape s) then
         Ret (tabulate (shape a)
                (fun idx => if sel_member s idx
                            then item v (bc_index (shape v) (sel_project s idx))
                            else item a idx))
       else Raise (ValueError "could not broadcast input array")).

(** The content of [a] after a callee that may overwrite [a[ix]] left [v]
    there (nothing changes when [v] does not fit). *)
Definition overwritten (a : ndarray F) (ix : list index_item) (v : ndarray F)
  : ndarray F :=
  match setitem a ix v with
  | Ret a' => a'
  | Raise _ => a
  end.

(** [a.T]: the axes in reverse order. *)
Definition transpose (a : ndarray F) : ndarray F :=
  tabulate (rev (shape a)) (fun idx => item a (rev idx)).

(** [a.reshape(newshape)] where at most one entry of [newshape] is [-1]. *)
Definition np_reshape (a : ndarray F) (newshape : list Z) : outcome (ndarray F) :=
  let known := List.filter (fun d => negb (d =? -1)%Z) newshape in
  let p := size (map Z.to_nat known) in
  let n := size (shape a) in
  if 1 <? length newshape - length known then
    Raise (ValueError "can only specify one unknown dimension")
  else if length known <? length newshape then
    if (p =? 0) || negb (n mod p =? 0) then
      Raise (ValueError "cannot reshape array")
    else
      Ret (mk_nd (map (fun d => if (d =? -1)%Z then n / p else Z.to_nat d) newshape)
                 (data a))
  else if p =? n then Ret (mk_nd (map Z.to_nat newshape) (data a))
  else Raise (ValueError "cannot reshape array").

(** *** Reductions and element-wise functions *)

(** The entries [a[pre, 0]], ..., [a[pre, n-1]]: one run along the axis
    that follows the axes indexed by [pre]. *)
Definition run (a : ndarray F) (pre : list nat) (n : nat) : list F :=
  map (fun k => item a (pre ++ [k])) (seq 0 n).

Definition np_log `{Log F} (a : ndarray F) : ndarray F :=
  mk_nd (shape a) (map log (data a)).

(** [np.sum(a)]: a NumPy scalar, kept as a 0-d array. *)
Definition np_sum `{AddReduce F} (a : ndarray F) : ndarray F :=
  mk_nd [] [add_reduce (data a)].

(** [np.sum(a, axis=(-1,))] *)
Definition np_sum_last `{AddReduce F} (a : ndarray F) : outcome (ndarray F) :=
  match shape a with
  | [] => Raise (AxisError "axis -1 is out of bounds for array of dimension 0")
  | _ =>
      let n := List.last (shape a) 0 in
      Ret (tabulate (drop_last 1 (shape a)) (fun idx => add_reduce (run a idx n)))
  end.

(** [c * a] for a Python integer [c]. *)
Definition int_times (c : Z) (a : ndarray F) : ndarray F :=
  mk_nd (shape a) (map (mul (of_int c)) (data a)).

(** [np.diag]: the diagonal of a matrix, the diagonal matrix of a vector. *)
Definition np_diag (a : ndarray F) : outcome (ndarray F) :=
  match shape a with
  | [n; m] =>
      Ret (tabulate [Nat.min n m] (fun idx => item a (idx ++ idx)))
  | [n] =>
      Ret (tabulate [n; n]
             (fun idx => match idx with
                         | [i; j] => if i =? j then item a [i] else zero
                         | _ => zero
                         end))
  | _ => Raise (ValueError "Input must be 1- or 2-d.")
  end.

(** [np.einsum('...ii->...i', a)] *)
Definition einsum_diag (a : ndarray F) : outcome (ndarray F) :=
  match rev (shape a) with
  | m :: n :: _ =>
      if n =? m then
        Ret (tabulate (drop_last 1 (shape a))
               (fun idx => item a (idx ++ take_last 1 idx)))
      else Raise (ValueError "dimensions for collapsing index 'i' don't match")
  | _ => Raise (ValueError "too many subscripts for operand 0")
  end.

(** [np.einsum('...ik,...k->...i', a, b)]: the element at [idx ++ [i]] is
    the contraction of row [i] of the matrix of [a] that [idx] selects
    with the vector of [b] that [idx] selects. *)
Definition einsum_matvec `{SumOfProducts F} (a b : ndarray F) : outcome (ndarray F) :=
  match rev (shape a), rev (shape b) with
  | na :: m :: _, nb :: _ =>
      match broadcast_dim na nb,
            broadcast_shapes (drop_last 2 (shape a)) (drop_last 1 (shape b)) with
      | Some _, Some sh =>
          Ret (tabulate (sh ++ [m])
                 (fun idx =>
                    sum_of_products
                      (run a (bc_index (drop_last 1 (shape a)) idx) na)
                      (run b (bc_index (drop_last 1 (shape b)) (drop_last 1 idx)) nb)))
      | _, _ => Raise (ValueError "operands could not be broadcast together")
      end
  | _, _ => Raise (ValueError "too many subscripts for an operand")
  end.

(** [np.tile(a, reps)] *)
Definition np_tile (a : ndarray F) (reps : list nat) : ndarray F :=
  let d := Nat.max (length reps) (length (shape a)) in
  let sa := pad_left d 1 (shape a) in
  let rp := pad_left d 1 reps in
  tabulate (zip_with Nat.mul rp sa)
    (fun idx => item (mk_nd sa (data a)) (zip_with Nat.modulo idx sa)).

End Numpy.

(** ** The store, array objects, and the monad of Python code *)

(** A store of buffers: each is the flat memory of one allocation. *)
Abbreviation heap F := (list (list F)).

(** An array object: the buffer it points into and its shape.  Views
    ([np.atleast_2d], an argument passed on) share the buffer. *)
Record aref : Type := mk_ref { base : nat; ashape : list nat }.

Definition M (F A : Type) : Type := heap F -> heap F * outcome A.

Definition ret {F A} (a : A) : M F A := fun h => (h, Ret a).

Definition raise {F A} (e : exn) : M F A := fun h => (h, Raise e).

Definition bind {F A B} (m : M F A) (k : A -> M F B) : M F B :=
  fun h => match m h with
           | (h', Ret a) => k a h'
           | (h', Raise e) => (h', Raise e)
           end.

Notation "x <- m ;; k" := (bind m (fun x => k))
  (at level 100, m at next level, right associativity) : py_scope.
Notation "m ;; k" := (bind m (fun _ => k))
  (at level 100, right associativity) : py_scope.
Local Open Scope py_scope.

(** The outcome of an expression that touches no buffer. *)
Definition lift {F A} (o : outcome A) : M F A := fun h => (h, o).

(** The value an array object currently denotes. *)
Definition deref {F} (r : aref) : M F (ndarray F) :=
  fun h => (h, Ret (mk_nd (ashape r) (nth (base r) h []))).

(** Overwrite the buffer of [r] with the data of [a]. *)
Definition write {F} (r : aref) (a : ndarray F) : M F unit :=
  fun h => (<[base r := data a]> h, Ret tt).

(** A new buffer holding [a], and the array object that owns it. *)
Definition alloc {F} (a : ndarray F) : M F aref :=
  fun h => (h ++ [data a], Ret (mk_ref (length h) (shape a))).

(** [for x in l: body] *)
Fixpoint for_ {F A} (l : list A) (body : A -> M F unit) : M F unit :=
  match l with
  | [] => ret tt
  | x :: l' => body x ;; for_ l' body
  end.

(** A [for] loop whose body updates a local variable of type [S]. *)
Fixpoint for_fold {F A S} (l : list A) (s : S) (body : A -> S -> M F S) : M F S :=
  match l with
  | [] => ret s
  | x :: l' => s' <- body x s ;; for_fold l' s' body
  end.

(** [try: m  except <catches>: handler] *)
Definition try_except {F A} (m : M F A) (catches : exn -> bool) (handler : M F A)
  : M F A :=
  fun h => match m h with
           | (h', Raise e) => if catches e then handler h' else (h', Raise e)
           | r => r
           end.

(** *** Names *)

(** The names the module binds at top level: its imports (lines 29-39; the
    import of [cholmod] on line 37 is commented out) and its [def]s. *)
Definition module_globals : list string :=
  ["itertools"; "np"; "sp"; "linalg"; "special"; "optimize"; "sparse";
   "nested_iterator";
   "chol"; "chol_solve"; "chol_inv"; "chol_logdet"; "logdet_chol";
   "m_solve_triangular"; "m_outer"; "m_dot"]%string.

(** Reading a global name; the built-in names the module uses
    ([isinstance], [len], [min], [range], [tuple], [print], [Exception],
    ...) always resolve and are not routed through here. *)
Definition load_global {F} (name : string) : M F unit :=
  if existsb (String.eqb name) module_globals then ret tt
  else raise (NameError name).

(** Reading a local variable of the running function: [None] while no
    assignment to it has run. *)
Definition load_fast {F A} (name : string) (v : option A) : M F A :=
  match v with
  | Some a => ret a
  | None => raise (UnboundLocalError name)
  end.

(** ** The collaborators: SciPy's LAPACK wrappers and the sparse factor *)

(** [scipy.linalg.cho_factor(a)]: the pair [(c, lower)]. *)
Class ChoFactor (F : Type) : Type :=
  cho_factor : ndarray F -> outcome (ndarray F * bool).

(** [scipy.linalg.cho_solve((c, lower), b)], and what a call with
    [overwrite_b=True] leaves in the memory of [b]: SciPy may solve in
    place, or work on a copy and leave [b] alone. *)
Class ChoSolve (F : Type) : Type := {
  cho_solve : ndarray F * bool -> ndarray F -> outcome (ndarray F);
  cho_solve_leaves : ndarray F * bool -> ndarray F -> ndarray F
}.

Inductive pyarg : Type :=
| ABool (b : bool)
| AInt (i : Z)
| AStr (s : string).

(** [scipy.linalg.solve_triangular(a, b, **kwargs)] *)
Class SolveTriangular (F : Type) : Type :=
  solve_triangular : ndarray F -> ndarray F -> list (string * pyarg) -> outcome (ndarray F).

(** A [scipy.sparse] matrix, by the dense array [toarray()] returns. *)
Record spmatrix (F : Type) : Type := mk_sp { toarray : ndarray F }.
Arguments mk_sp {F} toarray.
Arguments toarray {F} s.

(** A [cholmod.Factor]: its methods [D()] and [solve_A(b)]. *)
Record cholmod_factor (F : Type) : Type :=
  mk_factor { factor_D : ndarray F; factor_solve_A : ndarray F -> outcome (ndarray F) }.
Arguments mk_factor {F} factor_D factor_solve_A.
Arguments factor_D {F} c.
Arguments factor_solve_A {F} c.

(** [cholmod.cholesky(C)] *)
Class Cholmod (F : Type) : Type :=
  cholmod_cholesky : spmatrix F -> outcome (cholmod_factor F).

(** What callers pass: a dense array or a sparse matrix; as a factor, a
    dense array, a sparse factor, or some other object. *)
Inductive matrix_like (F : Type) : Type :=
| MDense (a : aref)
| MSparse (s : spmatrix F).
Arguments MDense {F} a.
Arguments MSparse {F} s.

Inductive factor_like (F : Type) : Type :=
| FDense (a : aref)
| FSparse (f : cholmod_factor F)
| FOther.
Arguments FDense {F} a.
Arguments FSparse {F} f.
Arguments FOther {F}.

Definition issparse {F} (x : matrix_like F) : bool :=
  match x with
  | MSparse _ => true
  | MDense _ => false
  end.

Definition is_ndarray {F} (x : factor_like F) : bool :=
  match x with
  | FDense _ => true
  | _ => false
  end.

(** ** The module *)

Fixpoint filter_o {A} (p : A -> outcome bool) (l : list A) : outcome (list A) :=
  match l with
  | [] => Ret []
  | x :: l' =>
      obind (p x) (fun keep =>
      obind (filter_o p l') (fun r => Ret (if keep then x :: r else r)))
  end.

Fixpoint fold_o {A S} (f : S -> A -> outcome S) (l : list A) (s : S) : outcome S :=
  match l with
  | [] => Ret s
  | x :: l' => obind (f s x) (fun s' => fold_o f l' s')
  end.

(** Lines 73-75 of [chol_solve] and 164-167 of [m_solve_triangular], the
    same text in both: the value of [jnd_b],
    [tuple(i for i in range(-l_min,0) if sh_b[i]==sh_u[i])]. *)
Definition classify_axes (sh_u sh_b : list nat) : outcome (list Z) :=
  let l_u := length sh_u in
  let l_b := length sh_b in
  let l_min := Nat.min l_u l_b in
  filter_o (fun i => obind (py_getitem sh_b i) (fun db =>
                     obind (py_getitem sh_u i) (fun du => Ret (db =? du))))
           (py_range (- Z.of_nat l_min) 0).

(** Lines 91-92 and 187-188: [for j in jnd_b: ind_b[j] = i[j]]. *)
Definition pin_axes (jnd_b : list Z) (i : list nat) (ind_b : list index_item)
  : outcome (list index_item) :=
  fold_o (fun ind_b j => obind (py_getitem i j) (fun ij =>
                         py_setitem ind_b j (IInt (Z.of_nat ij))))
         jnd_b ind_b.

(** Modelled from the spec: [broadcasted_shape] is a function of
    [bayespy/utils/utils.py], which is not among the sources (and which this
    module does not import).  Section 4.1 of the spec: right-align the two
    batch shapes; an aligned pair broadcasts to the common value or to the
    one that is not 1, and fails otherwise; unaligned leading axes pass
    through. *)
Definition broadcasted_shape (sh_a sh_b : list nat) : outcome (list nat) :=
  match @broadcast_shapes sh_a sh_b with
  | Some sh => Ret sh
  | None => Raise (ValueError "Shapes do not broadcast")
  end.

(** A tuple of Python integers used as an index. *)
Definition ints (i : list nat) : list index_item := map (fun k => IInt (Z.of_nat k)) i.

(** [print] writes to standard output, which is not part of the store. *)
Definition print {F} (a : ndarray F) : M F unit := ret tt.

Section Module.
Context {F : Type} {SF : Scalar F} {LF : Log F} {UF : Uninit F}.
Context {AR : AddReduce F} {SP : SumOfProducts F}.
Context {CF : ChoFactor F} {CS : ChoSolve F} {ST : SolveTriangular F} {CM : Cholmod F}.

(** Lines 42-57. *)
Definition chol (C : matrix_like F) : M F (factor_like F) :=
  load_global "sparse" ;;
  match C with
  | MSparse s =>
      load_global "cholmod" ;;
      f <- lift (cholmod_cholesky s) ;;
      ret (FSparse f)
  | MDense C =>
      load_global "np" ;;
      let C := mk_ref (base C) (atleast_2d_shape (ashape C)) in
      load_global "np" ;;
      U <- alloc (mk_nd (ashape C) (map uninitialized (seq 0 (size (ashape C))))) ;;
      load_global "nested_iterator" ;;
      load_global "np" ;;
      for_ (nested_iterator (drop_last 2 (ashape U)))
        (fun i =>
           try_except
             (load_global "linalg" ;;
              Cv <- deref C ;;
              Ci <- lift (getitem Cv (ints i)) ;;
              f <- lift (cho_factor Ci) ;;
              Uv <- deref U ;;
              Uv' <- lift (setitem Uv (ints i) (fst f)) ;;
              write U Uv')
             is_LinAlgError
             (Cv <- deref C ;;
              Ci <- lift (getitem Cv (ints i)) ;;
              print Ci ;;
              raise (PyException "Matrix not positive definite"))) ;;
      ret (FDense U)
  end.

(** Lines 59-120.  The parameters are [U] and [b]; [B], [out] and [sh] are
    local variables of the function, because its body assigns them. *)
Definition chol_solve (U : factor_like F) (b : matrix_like F) : M F aref :=
  let B : option aref := None in
  let out : option (option aref) := None in
  load_global "np" ;;
  match U with
  | FDense U =>
      load_global "sparse" ;;
      b <- match b with
           | MSparse s => alloc (toarray s)
           | MDense r => ret r
           end ;;
      load_global "np" ;;
      let U := mk_ref (base U) (atleast_2d_shape (ashape U)) in
      load_global "np" ;;
      B <- load_fast "B" B ;;
      let B := mk_ref (base B) (atleast_1d_shape (ashape B)) in
      let sh_u := drop_last 2 (ashape U) in
      let sh_b := drop_last 1 (ashape B) in
      let l_b := length sh_b in
      let ind_b := repeat IEllipsis l_b in
      jnd_b <- lift (classify_axes sh_u sh_b) ;;
      out <- load_fast "out" out ;;
      sh_out <- match out with
                | None =>
                    load_global "broadcasted_shape" ;;
                    sh <- lift (broadcasted_shape sh_u sh_b) ;;
                    load_global "np" ;;
                    out <- alloc (np_zeros (sh ++ take_last 1 (ashape B))) ;;
                    ret (Some sh, out)
                | Some out => ret (None, out)
                end ;;
      let sh := fst sh_out in
      let out := snd sh_out in
      load_global "nested_iterator" ;;
      load_global "np" ;;
      for_fold (nested_iterator (drop_last 2 (ashape U))) ind_b
        (fun i ind_b =>
           ind_b <- lift (pin_axes jnd_b i ind_b) ;;
           Bv <- deref B ;;
           b <- lift (getitem Bv (ind_b ++ [IEllipsis])) ;;
           let orig_shape := shape b in
           b <- lift (if 1 <? ndim b
                      then obind (py_getitem (shape b) (-1)) (fun n =>
                           np_reshape b [(-1)%Z; Z.of_nat n])
                      else Ret b) ;;
           sh <- load_fast "sh" sh ;;
           let ind_out := if length ind_b <? length sh
                          then IEllipsis :: ind_b ++ [IEllipsis]
                          else ind_b ++ [IEllipsis] in
           load_global "linalg" ;;
           Uv <- deref U ;;
           Ui <- lift (getitem Uv (ints i)) ;;
           x <- lift (cho_solve (Ui, false) (transpose b)) ;;
           r <- lift (np_reshape (transpose x) (map Z.of_nat orig_shape)) ;;
           ov <- deref out ;;
           ov' <- lift (setitem ov ind_out r) ;;
           write out ov' ;;
           ret ind_b) ;;
      ret out
  | FSparse f =>
      load_global "cholmod" ;;
      load_global "sparse" ;;
      b <- match b with
           | MSparse s => alloc (toarray s)
           | MDense r => ret r
           end ;;
      bv <- deref b ;;
      x <- lift (factor_solve_A f bv) ;;
      alloc x
  | FOther =>
      load_global "cholmod" ;;
      raise (ValueError "Unknown type of Cholesky factor")
  end.

(** Lines 122-138. *)
Definition chol_inv (U : factor_like F) : M F aref :=
  load_global "np" ;;
  match U with
  | FDense U =>
      load_global "np" ;;
      n <- lift (py_getitem (ashape U) (-1)) ;;
      V <- alloc (np_tile (np_identity n) (drop_last 2 (ashape U) ++ [1; 1])) ;;
      load_global "nested_iterator" ;;
      load_global "np" ;;
      for_ (nested_iterator (drop_last 2 (ashape U)))
        (fun i =>
           load_global "linalg" ;;
           Uv <- deref U ;;
           Ui <- lift (getitem Uv (ints i)) ;;
           Vv <- deref V ;;
           Vi <- lift (getitem Vv (ints i)) ;;
           x <- lift (cho_solve (Ui, false) Vi) ;;
           write V (overwritten Vv (ints i) (cho_solve_leaves (Ui, false) Vi)) ;;
           Vv <- deref V ;;
           Vv' <- lift (setitem Vv (ints i) x) ;;
           write V Vv') ;;
      ret V
  | FSparse _ =>
      load_global "cholmod" ;;
      raise NotImplementedError
  | FOther =>
      load_global "cholmod" ;;
      raise (ValueError "Unknown type of Cholesky factor")
  end.

(** Lines 140-146. *)
Definition chol_logdet (U : factor_like F) : M F aref :=
  load_global "np" ;;
  match U with
  | FDense U =>
      load_global "np" ;;
      Uv <- deref U ;;
      d <- lift (np_diag Uv) ;;
      alloc (int_times 2 (np_sum (np_log d)))
  | FSparse f =>
      load_global "cholmod" ;;
      load_global "np" ;;
      alloc (np_sum (np_log (factor_D f)))
  | FOther =>
      load_global "cholmod" ;;
      raise (ValueError "Unknown type of Cholesky factor")
  end.

(** Lines 148-153; the function returns [None] when neither test holds. *)
Definition logdet_chol (U : factor_like F) : M F (option aref) :=
  load_global "np" ;;
  match U with
  | FDense U =>
      load_global "np" ;;
      Uv <- deref U ;;
      d <- lift (einsum_diag Uv) ;;
      s <- lift (np_sum_last (np_log d)) ;;
      r <- alloc (int_times 2 s) ;;
      ret (Some r)
  | FSparse f =>
      load_global "cholmod" ;;
      load_global "np" ;;
      r <- alloc (np_sum (np_log (factor_D f))) ;;
      ret (Some r)
  | FOther =>
      load_global "cholmod" ;;
      ret None
  end.

(** Lines 155-212. *)
Definition m_solve_triangular (U B : aref) (kwargs : list (string * pyarg))
  : M F aref :=
  load_global "np" ;;
  let U := mk_ref (base U) (atleast_2d_shape (ashape U)) in
  load_global "np" ;;
  let B := mk_ref (base B) (atleast_1d_shape (ashape B)) in
  let sh_u := drop_last 2 (ashape U) in
  let sh_b := drop_last 1 (ashape B) in
  let l_b := length sh_b in
  let ind_b := repeat IEllipsis l_b in
  jnd_b <- lift (classify_axes sh_u sh_b) ;;
  load_global "broadcasted_shape" ;;
  sh <- lift (broadcasted_shape sh_u sh_b) ;;
  load_global "np" ;;
  out <- alloc (np_zeros (sh ++ take_last 1 (ashape B))) ;;
  load_global "nested_iterator" ;;
  load_global "np" ;;
  for_fold (nested_iterator (drop_last 2 (ashape U))) ind_b
    (fun i ind_b =>
       ind_b <- lift (pin_axes jnd_b i ind_b) ;;
       Bv <- deref B ;;
       b <- lift (getitem Bv (ind_b ++ [IEllipsis])) ;;
       let orig_shape := shape b in
       b <- lift (if 1 <? ndim b
                  then obind (py_getitem (shape b) (-1)) (fun n =>
                       np_reshape b [(-1)%Z; Z.of_nat n])
                  else Ret b) ;;
       let ind_out := if length ind_b <? length sh
                      then IEllipsis :: ind_b ++ [IEllipsis]
                      else ind_b ++ [IEllipsis] in
       load_global "linalg" ;;
       Uv <- deref U ;;
       Ui <- lift (getitem Uv (ints i)) ;;
       x <- lift (solve_triangular Ui (transpose b) kwargs) ;;
       r <- lift (np_reshape (transpose x) (map Z.of_nat orig_shape)) ;;
       ov <- deref out ;;
       ov' <- lift (setitem ov ind_out r) ;;
       write out ov' ;;
       ret ind_b) ;;
  ret out.

(** Lines 171-212: what [m_solve_triangular] goes on to do after the call
    of [broadcasted_shape] on line 170, as a function of the shape [sh]
    that call would bind.  [U] and [B] are the promoted views and [jnd_b]
    the tuple of lines 164-167. *)
Definition m_solve_triangular_from_171 (U B : aref) (jnd_b : list Z)
    (sh : list nat) (kwargs : list (string * pyarg)) : M F aref :=
  let ind_b := repeat IEllipsis (length (drop_last 1 (ashape B))) in
  load_global "np" ;;
  out <- alloc (np_zeros (sh ++ take_last 1 (ashape B))) ;;
  load_global "nested_iterator" ;;
  load_global "np" ;;
  for_fold (nested_iterator (drop_last 2 (ashape U))) ind_b
    (fun i ind_b =>
       ind_b <- lift (pin_axes jnd_b i ind_b) ;;
       Bv <- deref B ;;
       b <- lift (getitem Bv (ind_b ++ [IEllipsis])) ;;
       let orig_shape := shape b in
       b <- lift (if 1 <? ndim b
                  then obind (py_getitem (shape b) (-1)) (fun n =>
                       np_reshape b [(-1)%Z; Z.of_nat n])
                  else Ret b) ;;
       let ind_out := if length ind_b <? length sh
                      then IEllipsis :: ind_b ++ [IEllipsis]
                      else ind_b ++ [IEllipsis] in
       load_global "linalg" ;;
       Uv <- deref U ;;
       Ui <- lift (getitem Uv (ints i)) ;;
       x <- lift (solve_triangular Ui (transpose b) kwargs) ;;
       r <- lift (np_reshape (transpose x) (map Z.of_nat orig_shape)) ;;
       ov <- deref out ;;
       ov' <- lift (setitem ov ind_out r) ;;
       write out ov' ;;
       ret ind_b) ;;
  ret out.

(** Lines 218-222. *)
Definition m_outer (A B : aref) : M F aref :=
  load_global "np" ;;
  Av <- deref A ;;
  a' <- lift (getitem Av [IEllipsis; INewaxis]) ;;
  load_global "np" ;;
  Bv <- deref B ;;
  b' <- lift (getitem Bv [IEllipsis; INewaxis; IFull]) ;;
  r <- lift (np_multiply a' b') ;;
  alloc r.

(** Lines 224-232. *)
Definition m_dot (A b : aref) : M F aref :=
  load_global "np" ;;
  Av <- deref A ;;
  bv <- deref b ;;
  r <- lift (einsum_matvec Av bv) ;;
  alloc r.

End Module.

(** ** Executable instance: binary64 floats and a reference factorisation *)

Definition float_of_int (z : Z) : float :=
  match z with
  | Z0 => 0%float
  | Zpos p => of_uint63 (Uint63.of_pos p)
  | Zneg p => (- of_uint63 (Uint63.of_pos p))%float
  end.

#[global] Instance float_scalar : Scalar float :=
  {| zero := 0%float; one := 1%float;
     add := PrimFloat.add; mul := PrimFloat.mul; of_int := float_of_int |}.

(** Fresh memory shows up as NaN, so that a result that used it stands out. *)
#[global] Instance float_uninit : Uninit float := fun _ => nan.

(** Sum over [k < j] of [d[k,j] * d[k,i]] for a row-major [n x n] buffer. *)
Definition col_dot (n : nat) (d : list float) (j i : nat) : float :=
  fold_left (fun acc k => (acc + nth (k * n + j) d 0 * nth (k * n + i) d 0)%float)
            (seq 0 j) 0%float.

(** Unblocked upper Cholesky (LAPACK [dpotf2], [uplo='U']) on a copy of the
    input: column by column, only the upper triangle is read and written;
    a pivot that is not positive stops the factorisation. *)
Fixpoint potf2_upper (n : nat) (js : list nat) (d : list float) : outcome (list float) :=
  match js with
  | [] => Ret d
  | j :: js' =>
      let ajj := (nth (j * n + j) d 0 - col_dot n d j j)%float in
      if (ajj <=? 0)%float || is_nan ajj then
        Raise (LinAlgError "leading minor of the array is not positive definite")
      else
        let r := PrimFloat.sqrt ajj in
        let d1 := <[j * n + j := r]> d in
        let d2 := fold_left
                    (fun d' i =>
                       <[j * n + i := ((nth (j * n + i) d' 0 - col_dot n d' j i) / r)%float]> d')
                    (seq (S j) (n - S j)) d1 in
        potf2_upper n js' d2
  end.

(** [scipy.linalg.cho_factor(a)] with its defaults ([lower=False],
    [check_finite=True]): the factor in the upper triangle, the rest of the
    input left as it was. *)
Definition cho_factor_ref (a : ndarray float) : outcome (ndarray float * bool) :=
  if negb (forallb is_finite (data a)) then
    Raise (ValueError "array must not contain infs or NaNs")
  else
    match atleast_2d_shape (shape a) with
    | [n; m] =>
        if n =? m then
          obind (potf2_upper n (seq 0 n) (data a)) (fun d => Ret (mk_nd [n; n] d, false))
        else Raise (ValueError "expected square matrix")
    | _ => Raise (ValueError "Input array needs to be 2D")
    end.

#[global] Instance float_cho_factor : ChoFactor float := cho_factor_ref.

(** No sparse collaborator is installed for the float instance.  The module
    cannot reach one either: it never binds the name [cholmod]. *)
#[global] Instance float_no_cholmod : Cholmod float :=
  fun _ => Raise (PyException "sparse Cholesky is not available").

(** Entry [(i, k)] of the upper-triangular [U] with [U^T U = A], read from
    the triangle of the factor that [lower] designates. *)
Definition factor_entry (n : nat) (c : list float) (lower : bool) (i k : nat) : float :=
  if lower then nth (k * n + i) c 0%float else nth (i * n + k) c 0%float.

(** Row [i] of a triangular solve, for each of the [m] right-hand sides:
    the rows [ks] are solved already and enter with the coefficients
    [coef]. *)
Definition subst_row (m : nat) (coef : nat -> float) (pivot : float)
    (ks : list nat) (i : nat) (y : list float) : list float :=
  fold_left
    (fun y j =>
       let s := fold_left (fun acc k => (acc + coef k * nth (k * m + j) y 0)%float)
                          ks 0%float in
       <[i * m + j := ((nth (i * m + j) y 0 - s) / pivot)%float]> y)
    (seq 0 m) y.

(** LAPACK [dpotrs]: forward substitution with [U^T], then back
    substitution with [U], on a row-major [n x m] right-hand side. *)
Definition potrs (n m : nat) (c : list float) (lower : bool) (b : list float)
  : list float :=
  let u := factor_entry n c lower in
  let y := fold_left (fun y i => subst_row m (fun k => u k i) (u i i) (seq 0 i) i y)
                     (seq 0 n) b in
  fold_left (fun x i => subst_row m (fun k => u i k) (u i i) (seq (S i) (n - S i)) i x)
            (rev (seq 0 n)) y.

(** [scipy.linalg.cho_solve((c, lower), b)] with [check_finite=True]. *)
Definition cho_solve_ref (cl : ndarray float * bool) (b : ndarray float)
  : outcome (ndarray float) :=
  let c := fst cl in
  if negb (forallb is_finite (data b) && forallb is_finite (data c)) then
    Raise (ValueError "array must not contain infs or NaNs")
  else
    match shape c with
    | [n; n'] =>
        if n =? n' then
          match shape b with
          | d :: tl =>
              if n =? d
              then Ret (mk_nd (shape b) (potrs n (size tl) (data c) (snd cl) (data b)))
              else Raise (ValueError "incompatible dimensions")
          | [] => Raise (IndexError "tuple index out of range")
          end
        else Raise (ValueError "The factored matrix c is not square.")
    | _ => Raise (ValueError "The factored matrix c is not square.")
    end.

(** With [overwrite_b=True] and a right-hand side in C order, the wrapper
    solves on a Fortran-ordered copy: [b] is left as it was. *)
#[global] Instance float_cho_solve : ChoSolve float :=
  {| cho_solve := cho_solve_ref; cho_solve_leaves := fun _ b => b |}.

(** ** Real numbers as scalars, where a logarithm is needed *)

#[global] Instance R_scalar : Scalar R :=
  {| zero := 0%R; one := 1%R; add := Rplus; mul := Rmult; of_int := IZR |}.

#[global] Instance R_log : Log R := ln.

(** Addition of real numbers is associative and commutative: the sum of a
    run is this number in whatever order the addends are added. *)
#[global] Instance R_add_reduce : AddReduce R := fun l => fold_right Rplus 0%R l.

(** ** 64-bit integers as scalars, where sums must be evaluated *)

(** [numpy.int64]: the integers of [-2^63, 2^63), every operation wrapping
    around. *)
Definition wrap64 (z : Z) : Z := ((z + 2 ^ 63) mod 2 ^ 64 - 2 ^ 63)%Z.

#[global] Instance int64_scalar : Scalar Z :=
  {| zero := 0%Z; one := 1%Z;
     add := fun x y => wrap64 (x + y); mul := fun x y => wrap64 (x * y);
     of_int := wrap64 |}.

(** A run of length 1 repeated [n] times; any other run as it is. *)
Definition stretch {A} (n : nat) (l : list A) : list A :=
  match l with
  | [x] => repeat x n
  | _ => l
  end.

(** Arithmetic modulo 2^64 is a commutative ring: the sum of a run, and the
    sum of the products of two runs, are the same number in whatever order
    NumPy adds, and whether it multiplies a repeated factor in before or
    after adding. *)
#[global] Instance int64_add_reduce : AddReduce Z :=
  fun l => fold_right add zero l.

#[global] Instance int64_sum_of_products : SumOfProducts Z :=
  fun xs ys =>
    let n := Nat.max (length xs) (length ys) in
    fold_right add zero (zip_with mul (stretch n xs) (stretch n ys)).

(** ** Vocabulary of the statements *)

(** The value an array object denotes in a store. *)
Definition value_of {F} (h : heap F) (r : aref) : ndarray F :=
  mk_nd (ashape r) (nth (base r) h []).

Section Vocabulary.
Context {F : Type} {SF : Scalar F} {CF : ChoFactor F}.

(** The sub-array of [a] at the leading multi-index [i]. *)
Definition slice (a : ndarray F) (i tl : list nat) : ndarray F :=
  tabulate tl (fun o => item a (i ++ o)).

(** The content of [a] after [a[i] = v]. *)
Definition assign_slice (a : ndarray F) (sh : list nat) (i : list nat) (v : ndarray F)
  : ndarray F :=
  tabulate (shape a)
    (fun idx => if decide (take (length sh) idx = i)
                then item v (drop (length sh) idx) else item a idx).

(** What [linalg.cho_factor(C[i])] evaluates to in store [h]. *)
Definition factor_at (h : heap F) (C : aref) (i : list nat) : outcome (ndarray F * bool) :=
  obind (getitem (value_of h C) (ints i)) cho_factor.

(** The slice [i] factorises, to a matrix of the slice's shape. *)
Definition factors (h : heap F) (C : aref) (n m : nat) (i : list nat) : Prop :=
  exists R lw, factor_at h C i = Ret (R, lw) /\ shape R = [n; m].

(** The factor the library returns for slice [i], when it returns one. *)
Definition factor_of (h : heap F) (C : aref) (i : list nat) : ndarray F :=
  match factor_at h C i with
  | Ret (R, _) => R
  | Raise _ => mk_nd [] []
  end.

(** The buffer of [U] after the loop of [chol] has run over the indices [l],
    starting from the content [buf]. *)
Definition fill (h : heap F) (C : aref) (batch : list nat) (n m : nat)
    (l : list (list nat)) (buf : list F) : list F :=
  fold_left
    (fun b i => data (assign_slice (mk_nd (batch ++ [n; m]) b) batch i (factor_of h C i)))
    l buf.

(** The statement under [try] and its handler, for one index. *)
Definition chol_body (C U : aref) (i : list nat) : M F unit :=
  try_except
    (load_global "linalg" ;;
     Cv <- deref C ;;
     Ci <- lift (getitem Cv (ints i)) ;;
     f <- lift (cho_factor Ci) ;;
     Uv <- deref U ;;
     Uv' <- lift (setitem Uv (ints i) (fst f)) ;;
     write U Uv')
    is_LinAlgError
    (Cv <- deref C ;;
     Ci <- lift (getitem Cv (ints i)) ;;
     print Ci ;;
     raise (PyException "Matrix not positive definite")).

(** [m] leaves the first [n] buffers of the store as they are, whatever its
    outcome, and a result it returns satisfies [P]. *)
Definition keeps {A} (n : nat) (P : A -> Prop) (m : M F A) : Prop :=
  forall h, n <= length h ->
    n <= length (fst (m h))
    /\ take n (fst (m h)) = take n h
    /\ forall a, snd (m h) = Ret a -> P a.

End Vocabulary.

(** Every buffer of [h] is a buffer of [h'], at the same place and with the
    same content: [h'] only has more of them. *)
Definition untouched {F} (h h' : heap F) : Prop := exists fresh, h' = h ++ fresh.

(** What holds of a call's result when the call returns. *)
Definition on_return {A} (P : A -> Prop) (o : outcome A) : Prop :=
  match o with
  | Ret a => P a
  | Raise _ => True
  end.

(** The array object [r] owns a buffer that was allocated after [h]. *)
Definition fresh_in {F} (h : heap F) (r : aref) : Prop := length h <= base r.

(** The test of the comprehension, on shapes read from the end. *)
Definition same_size_at (sh_u sh_b : list nat) (i : Z) : bool :=
  nth (Z.to_nat (i + Z.of_nat (length sh_b))) sh_b 0
  =? nth (Z.to_nat (i + Z.of_nat (length sh_u))) sh_u 0.

(** An offset from the end that both batch shapes have, with equal sizes. *)
Definition aligned (sh_u sh_b : list nat) (i : Z) : Prop :=
  (- Z.of_nat (Nat.min (length sh_u) (length sh_b)) <= i < 0)%Z
  /\ exists d, py_getitem sh_b i = Ret d /\ py_getitem sh_u i = Ret d.

(** *** Sums, in the words of the specification *)

(** The kernels return the sum itself, the sum of the run and the sum of
    the products: what they do in exact arithmetic, where the order of the
    additions does not matter. *)
Definition sums_exactly (F : Type) `{Scalar F} `{AddReduce F} : Prop :=
  forall l : list F, add_reduce l = fold_right add zero l.

Definition contracts_exactly (F : Type) `{Scalar F} `{SumOfProducts F} : Prop :=
  forall xs ys : list F,
    length xs = length ys ->
    sum_of_products xs ys = fold_right add zero (zip_with mul xs ys).

(** *** Broadcasting, in the words of the specification *)

(** Section 4.1, on shapes listed from the last axis to the first: the two
    batch shapes are aligned at their trailing end; an aligned pair of
    equal sizes gives that size, a pair with a 1 gives the other size, any
    other pair does not broadcast; the leading axes that only the longer
    shape has pass through unchanged. *)
Fixpoint spec_broadcast_rev (ra rb : list nat) : option (list nat) :=
  match ra, rb with
  | [], _ => Some rb
  | _, [] => Some ra
  | a :: ra', b :: rb' =>
      match spec_broadcast_rev ra' rb' with
      | Some r =>
          if a =? b then Some (a :: r)
          else if a =? 1 then Some (b :: r)
          else if b =? 1 then Some (a :: r)
          else None
      | None => None
      end
  end.

Definition spec_broadcast (sa sb : list nat) : option (list nat) :=
  option_map (@rev nat) (spec_broadcast_rev (rev sa) (rev sb)).

(** The glossary's singleton axis, on lists from the last axis to the
    first: where in an operand of batch shape [rs] the element for the
    index [ridx] of the broadcast batch is found.  An axis of size 1 is
    repeated, so it is read at 0; the other axes are read at the
    coordinate of the index; the leading axes of the index that the
    operand does not have are ignored. *)
Fixpoint spec_operand_index_rev (rs ridx : list nat) : list nat :=
  match rs, ridx with
  | d :: rs', i :: ridx' => (if d =? 1 then 0 else i) :: spec_operand_index_rev rs' ridx'
  | _, _ => []
  end.

Definition spec_operand_index (s idx : list nat) : list nat :=
  rev (spec_operand_index_rev (rev s) (rev idx)).

Section InverseVocabulary.
Context {F : Type} {SF : Scalar F} {CS : ChoSolve F}.

(** What [linalg.cho_solve((U[i], False), I)] evaluates to in store [h],
    for the identity matrix [I] of order [n]. *)
Definition inverse_at (h : heap F) (U : aref) (n : nat) (i : list nat)
  : outcome (ndarray F) :=
  obind (getitem (value_of h U) (ints i))
    (fun Ui => cho_solve (Ui, false) (np_identity n)).

(** The body of the loop of [chol_inv], for one index. *)
Definition chol_inv_body (U V : aref) (i : list nat) : M F unit :=
  load_global "linalg" ;;
  Uv <- deref U ;;
  Ui <- lift (getitem Uv (ints i)) ;;
  Vv <- deref V ;;
  Vi <- lift (getitem Vv (ints i)) ;;
  x <- lift (cho_solve (Ui, false) Vi) ;;
  write V (overwritten Vv (ints i) (cho_solve_leaves (Ui, false) Vi)) ;;
  Vv <- deref V ;;
  Vv' <- lift (setitem Vv (ints i) x) ;;
  write V Vv'.

End InverseVocabulary.

(** ** Concrete inputs *)

(** Two 1x1 factors [[2]] and [[3]] (batch shape (2,)) and, for each, five
    right-hand sides of length 1 (batch shape (2, 5)). *)
Definition c1_store : heap float :=
  [[2; 3]; [1; 2; 3; 4; 5; 6; 7; 8; 9; 10]]%float.
Definition c1_U : aref := mk_ref 0 [2; 1; 1].
Definition c1_B : aref := mk_ref 1 [2; 5; 1].

(** Three 1x1 factors (batch shape (3,)) and one shared right-hand side
    (batch shape (1,)). *)
Definition c2_store : heap float := [[2; 3; 4]; [12]]%float.
Definition c2_U : aref := mk_ref 0 [3; 1; 1].
Definition c2_B : aref := mk_ref 1 [1; 1].

(** Twelve 1x1 factors (batch shape (3, 4)) and twenty right-hand sides of
    length 1 (batch shape (5, 1, 4)). *)
Definition c5_store : heap float :=
  [[1; 2; 3; 4; 5; 6; 7; 8; 9; 10; 11; 12];
   [1; 2; 3; 4; 5; 6; 7; 8; 9; 10; 11; 12; 13; 14; 15; 16; 17; 18; 19; 20]]%float.
Definition c5_U : aref := mk_ref 0 [3; 4; 1; 1].
Definition c5_B : aref := mk_ref 1 [5; 1; 4; 1].

(** A sparse factor with diagonal [D = (4, 9)], and a dense batch of two
    1x1 factors. *)
Definition c6_factor : cholmod_factor R :=
  mk_factor (mk_nd [2] [4%R; 9%R]) (fun b => Ret b).
Definition c6_store : heap R := [[4%R; 9%R]].
Definition c6_U : aref := mk_ref 0 [2; 1; 1].

(** A batch of two 2x2 factors, and one 2x2 factor, over the reals. *)
Definition c6w_store : heap R :=
  [[1%R; 0%R; 0%R; 1%R; 2%R; 0%R; 0%R; 3%R]; [4%R; 1%R; 1%R; 3%R]].

(** The symmetric positive-definite matrix [[4, 2], [2, 5]]: its upper
    Cholesky factor is [[2, 1], [0, 2]]. *)
Definition c7_store : heap float := [[4; 2; 2; 5]%float].
Definition c7_C : aref := mk_ref 0 [2; 2].

(** A matrix that is not symmetric, with a positive-definite upper
    triangle: [[1, 0], [5, 1]]. *)
Definition c8_store : heap float := [[1; 0; 5; 1]%float].
Definition c8_C : aref := mk_ref 0 [2; 2].

(** A batch of two matrices: [[4, 2], [2, 5]] factorises, [[1, 2], [2, 1]]
    is not positive definite. *)
Definition c8w_store : heap float := [[4; 2; 2; 5; 1; 2; 2; 1]%float].
Definition c8w_C : aref := mk_ref 0 [2; 2; 2].

(** Two 3x3 matrices (1..9 row by row, and the identity) and one vector of
    length 3. *)
Definition c10_store : heap Z :=
  [[1; 2; 3; 4; 5; 6; 7; 8; 9; 1; 0; 0; 0; 1; 0; 0; 0; 1]; [1; 10; 100]]%Z.
Definition c10_A : aref := mk_ref 0 [2; 3; 3].
Definition c10_b : aref := mk_ref 1 [3].

(** A 2 x 3 matrix over the reals. *)
Definition x3_store : heap R := [[1%R; 2%R; 3%R; 4%R; 5%R; 6%R]].

(** [A] of shape (4, 3) and [B] of shape (4, 2). *)
Definition x4_store : heap float :=
  [[1; 2; 3; 4; 5; 6; 7; 8; 9; 10; 11; 12]; [1; 10; 2; 20; 3; 30; 4; 40]]%float.

(** [A] of shape (2, 2), [B] and [c] of shape (2, 3). *)
Definition x9_store : heap Z :=
  [[1; 2; 3; 4]; [1; 10; 100; 2; 20; 200]; [1; 1; 1; 2; 2; 2]]%Z.

(** The upper factors [[2, 1], [0, 2]] and the identity. *)
Definition x10_store : heap float := [[2; 1; 0; 2; 1; 0; 0; 1]%float].

(** The factor [[2, 1], [0, 2]] and a matrix with an entry that is not a
    number. *)
Definition x11_store : heap float := [[2; 1; 0; 2; 1; 0; 0; nan]%float].

(** The matrix [[4, 2], [2, 5]] and a matrix with an entry that is not a
    number. *)
Definition x14_store : heap float := [[4; 2; 2; 5; 1; nan; 0; 1]%float].

(** * Properties *)

(** ** Row-major enumeration *)

Lemma flat_map_block_length {A B} (f : A -> list B) (l : list A) (n : nat) :
  (forall x, In x l -> length (f x) = n) ->
  length (flat_map f l) = length l * n.
Proof.
  induction l as [|a l IH]; intros Hf; simpl; [reflexivity|].
  rewrite length_app, Hf, IH by (intros; try apply Hf; simpl; auto). reflexivity.
Qed.

Lemma nth_error_flat_map_block {A B} (f : A -> list B) (l : list A) (n i r : nat) (x : A) :
  (forall y, In y l -> length (f y) = n) ->
  nth_error l i = Some x -> r < n ->
  nth_error (flat_map f l) (i * n + r) = nth_error (f x) r.
Proof.
  revert i. induction l as [|a l IH]; intros i Hf Hi Hr.
  - destruct i; discriminate.
  - destruct i as [|i]; simpl in *.
    + injection Hi as ->. apply nth_error_app1. rewrite Hf by auto. exact Hr.
    + rewrite nth_error_app2 by (rewrite Hf by auto; lia).
      rewrite Hf by auto. replace (n + i * n + r - n) with (i * n + r) by lia.
      apply IH; auto.
Qed.

Lemma length_ndindex (sh : list nat) : length (ndindex sh) = size sh.
Proof.
  induction sh as [|d sh IH]; simpl; [reflexivity|].
  rewrite (flat_map_block_length _ _ (size sh)).
  - now rewrite length_seq.
  - intros x _. now rewrite length_map.
Qed.

Lemma ravel_lt (sh idx : list nat) :
  in_bounds sh idx = true -> ravel sh idx < size sh.
Proof.
  revert idx. induction sh as [|d sh IH]; intros [|i idx] H; simpl in *;
    try discriminate; [lia|].
  apply andb_true_iff in H as [Hi H]. apply Nat.ltb_lt in Hi.
  specialize (IH _ H). nia.
Qed.

Lemma in_bounds_length (sh idx : list nat) :
  in_bounds sh idx = true -> length idx = length sh.
Proof.
  revert idx. induction sh as [|d sh IH]; intros [|i idx] H; simpl in *;
    try discriminate; [reflexivity|].
  apply andb_true_iff in H as [_ H]. f_equal. auto.
Qed.

Lemma nth_error_ndindex (sh idx : list nat) :
  in_bounds sh idx = true ->
  nth_error (ndindex sh) (ravel sh idx) = Some idx.
Proof.
  revert idx. induction sh as [|d sh IH]; intros [|i idx] H; simpl in *;
    try discriminate; [reflexivity|].
  apply andb_true_iff in H as [Hi H]. apply Nat.ltb_lt in Hi.
  rewrite (nth_error_flat_map_block _ _ (size sh) i (ravel sh idx) i).
  - rewrite nth_error_map, IH by exact H. reflexivity.
  - intros y _. now rewrite length_map, length_ndindex.
  - rewrite nth_error_seq. destruct (Nat.ltb_spec i d); [reflexivity|lia].
  - now apply ravel_lt.
Qed.

Lemma in_ndindex (sh idx : list nat) :
  In idx (ndindex sh) <-> in_bounds sh idx = true.
Proof.
  revert idx. induction sh as [|d sh IH]; intros idx; simpl.
  - destruct idx; simpl; split; intros H; auto; try discriminate.
    destruct H as [H|[]]; discriminate.
  - rewrite in_flat_map. split.
    + intros (i & Hi & Hin). apply in_map_iff in Hin as (idx' & <- & Hin).
      apply in_seq in Hi. simpl. apply andb_true_iff. split.
      * apply Nat.ltb_lt. lia.
      * now apply IH.
    + destruct idx as [|i idx]; [discriminate|]. intros H.
      apply andb_true_iff in H as [Hi H]. apply Nat.ltb_lt in Hi.
      exists i. split; [apply in_seq; lia|].
      apply in_map. now apply IH.
Qed.

Lemma in_bounds_app (s t i o : list nat) :
  in_bounds s i = true -> in_bounds t o = true -> in_bounds (s ++ t) (i ++ o) = true.
Proof.
  revert i. induction s as [|d s IH]; intros [|k i] Hi Ho; simpl in *;
    try discriminate; [exact Ho|].
  apply andb_true_iff in Hi as [Hk Hi]. rewrite Hk. simpl. auto.
Qed.

Lemma in_bounds_app_inv (s t i o : list nat) :
  length i = length s ->
  in_bounds (s ++ t) (i ++ o) = true ->
  in_bounds s i = true /\ in_bounds t o = true.
Proof.
  revert i. induction s as [|d s IH]; intros [|k i] Hl H; simpl in *;
    try discriminate; [auto|].
  apply andb_true_iff in H as [Hk H]. rewrite Hk. simpl.
  apply IH; [lia|exact H].
Qed.

Lemma flat_map_seq_blocks (s a d : nat) :
  flat_map (fun i => seq (i * s) s) (seq a d) = seq (a * s) (d * s).
Proof.
  revert a. induction d as [|d IH]; intros a; simpl; [reflexivity|].
  rewrite IH, seq_app. f_equal. f_equal. lia.
Qed.

Lemma map_add_seq (a b n : nat) :
  map (fun r => a + r) (seq b n) = seq (a + b) n.
Proof.
  revert b. induction n as [|n IH]; intros b; simpl; [reflexivity|].
  rewrite IH. f_equal. f_equal. lia.
Qed.

(** The enumeration lists the multi-indices by increasing flat position. *)
Lemma map_ravel_ndindex (sh : list nat) :
  map (ravel sh) (ndindex sh) = seq 0 (size sh).
Proof.
  induction sh as [|d sh IH]; [reflexivity|].
  change (size (d :: sh)) with (d * size sh).
  replace (seq 0 (d * size sh))
    with (flat_map (fun i => seq (i * size sh) (size sh)) (seq 0 d))
    by (apply (flat_map_seq_blocks (size sh) 0 d)).
  cbn [ndindex]. induction (seq 0 d) as [|i l IHl]; [reflexivity|].
  cbn [flat_map]. rewrite map_app, IHl. f_equal.
  rewrite map_map. cbn [ravel].
  rewrite <- (map_map (ravel sh) (fun r => i * size sh + r)), IH, map_add_seq.
  f_equal. lia.
Qed.

Lemma ravel_nth_ndindex (sh : list nat) (n : nat) (idx : list nat) :
  nth_error (ndindex sh) n = Some idx -> ravel sh idx = n.
Proof.
  intros H.
  assert (Hm : nth_error (map (ravel sh) (ndindex sh)) n = Some (ravel sh idx))
    by (rewrite nth_error_map, H; reflexivity).
  rewrite map_ravel_ndindex in Hm.
  assert (Hn : n < size sh).
  { rewrite <- length_ndindex. apply nth_error_Some. congruence. }
  rewrite nth_error_seq in Hm. destruct (Nat.ltb_spec n (size sh)); [|lia].
  simpl in Hm. congruence.
Qed.

Lemma ndindex_1d (n : nat) : ndindex [n] = map (fun i => [i]) (seq 0 n).
Proof.
  simpl. induction (seq 0 n) as [|a l IH]; simpl; [reflexivity|]. now rewrite IH.
Qed.

Section ArrayFacts.
Context {F : Type} {SF : Scalar F}.

Lemma wf_tabulate (sh : list nat) (f : list nat -> F) : wf (tabulate sh f).
Proof. unfold wf, tabulate. simpl. now rewrite length_map, length_ndindex. Qed.

(** Reading a tabulated array gives back the tabulated function. *)
Lemma item_tabulate (sh : list nat) (f : list nat -> F) (idx : list nat) :
  in_bounds sh idx = true -> item (tabulate sh f) idx = f idx.
Proof.
  intros H. unfold item, tabulate. simpl.
  apply nth_error_nth. rewrite nth_error_map, nth_error_ndindex by exact H.
  reflexivity.
Qed.

Lemma tabulate_ext (sh : list nat) (f g : list nat -> F) :
  (forall idx, in_bounds sh idx = true -> f idx = g idx) ->
  tabulate sh f = tabulate sh g.
Proof.
  intros H. unfold tabulate. f_equal. apply map_ext_in.
  intros idx Hin. apply H. now apply in_ndindex.
Qed.

(** A well-formed array is the table of its items. *)
Lemma tabulate_item (a : ndarray F) :
  wf a -> tabulate (shape a) (item a) = a.
Proof.
  destruct a as [sh d]. unfold wf, tabulate, item. simpl. intros Hwf. f_equal.
  apply nth_error_ext. intros n. rewrite nth_error_map.
  destruct (Nat.ltb_spec n (size sh)) as [Hn|Hn].
  - assert (exists idx, nth_error (ndindex sh) n = Some idx) as [idx Hidx].
    { destruct (nth_error (ndindex sh) n) eqn:E; [eauto|].
      apply nth_error_None in E. rewrite length_ndindex in E. lia. }
    rewrite Hidx. simpl.
    rewrite (ravel_nth_ndindex sh n idx Hidx).
    symmetry. apply nth_error_nth'. lia.
  - rewrite (proj2 (nth_error_None _ _)) by (rewrite length_ndindex; lia).
    simpl. symmetry. apply nth_error_None. lia.
Qed.

End ArrayFacts.

(** ** Indexing with a tuple of integers: [a[i]] and [a[i] = v] *)

Lemma norm_index_nat (d k : nat) : k < d -> norm_index d (Z.of_nat k) = Some k.
Proof.
  intros H. unfold norm_index.
  destruct (Z.ltb_spec (Z.of_nat k) 0); [lia|].
  destruct (Z.leb_spec 0 (Z.of_nat k)); [|lia].
  destruct (Z.ltb_spec (Z.of_nat k) (Z.of_nat d)); [|lia].
  simpl. now rewrite Nat2Z.id.
Qed.

Lemma count_ellipsis_ints (i : list nat) : count_if is_ellipsis (ints i) = 0.
Proof. unfold count_if, ints. induction i; simpl; auto. Qed.

Lemma count_consumes_ints (i : list nat) : count_if consumes (ints i) = length i.
Proof. unfold count_if, ints. induction i; simpl; auto. Qed.

Lemma expand_ellipsis_ints (n : nat) (i : list nat) :
  expand_ellipsis n (ints i) = ints i ++ repeat IFull n.
Proof. unfold ints. induction i; simpl; [reflexivity|]. now rewrite IHi. Qed.

Lemma select_full (tl : list nat) :
  select tl (repeat IFull (length tl)) = Ret (map SAll tl).
Proof. induction tl as [|d tl IH]; simpl; [reflexivity|]. now rewrite IH. Qed.

Lemma select_ints (sh tl i : list nat) :
  in_bounds sh i = true ->
  select (sh ++ tl) (ints i ++ repeat IFull (length tl)) = Ret (map SFix i ++ map SAll tl).
Proof.
  revert i. induction sh as [|d sh IH]; intros [|k i] H; simpl in *; try discriminate.
  - apply select_full.
  - apply andb_true_iff in H as [Hk H]. apply Nat.ltb_lt in Hk.
    rewrite norm_index_nat by exact Hk.
    change (map (fun k0 => IInt (Z.of_nat k0)) i) with (ints i).
    now rewrite IH.
Qed.

Lemma selection_ints (sh tl i : list nat) :
  in_bounds sh i = true ->
  selection (sh ++ tl) (ints i) = Ret (map SFix i ++ map SAll tl).
Proof.
  intros H. unfold selection.
  rewrite count_ellipsis_ints, count_consumes_ints, expand_ellipsis_ints.
  pose proof (in_bounds_length _ _ H) as Hl.
  rewrite length_app. simpl.
  destruct (Nat.ltb_spec (length sh + length tl) (length i)); [lia|].
  replace (length sh + length tl - length i) with (length tl) by lia.
  now apply select_ints.
Qed.

Lemma sel_shape_ints (i tl : list nat) :
  sel_shape (map SFix i ++ map SAll tl) = tl.
Proof.
  induction i; simpl; [|assumption]. induction tl; simpl; [reflexivity|]. now f_equal.
Qed.

Lemma sel_source_ints (i tl o : list nat) :
  length o = length tl ->
  sel_source (map SFix i ++ map SAll tl) o = i ++ o.
Proof.
  intros H. induction i; simpl; [|now f_equal].
  revert o H. induction tl as [|d tl IH]; intros [|x o] H; simpl in *;
    try discriminate; [reflexivity|]. f_equal. apply IH. lia.
Qed.

Lemma sel_member_all (tl o : list nat) : sel_member (map SAll tl) o = true.
Proof. revert o. induction tl; intros o; simpl; auto. Qed.

Lemma sel_member_ints_same (i tl o : list nat) :
  sel_member (map SFix i ++ map SAll tl) (i ++ o) = true.
Proof.
  induction i; simpl; [apply sel_member_all|]. now rewrite Nat.eqb_refl.
Qed.

Lemma sel_member_ints_other (i j tl o : list nat) :
  length j = length i -> j <> i ->
  sel_member (map SFix i ++ map SAll tl) (j ++ o) = false.
Proof.
  revert j. induction i as [|k i IH]; intros [|x j] Hl Hne; simpl in *;
    try discriminate; [congruence|].
  destruct (Nat.eqb_spec x k) as [->|]; [|reflexivity]. simpl.
  apply IH; [lia|congruence].
Qed.

Lemma sel_project_ints (i j tl o : list nat) :
  length j = length i -> length o = length tl ->
  sel_project (map SFix i ++ map SAll tl) (j ++ o) = o.
Proof.
  revert j. induction i as [|k i IH]; intros [|x j] Hl Ho; simpl in *;
    try discriminate; [|apply IH; lia].
  clear Hl. revert o Ho. induction tl as [|d tl IH]; intros [|y o] Ho; simpl in *;
    try discriminate; [reflexivity|]. f_equal. apply IH. lia.
Qed.

Lemma bc_index_id (sh idx : list nat) :
  in_bounds sh idx = true -> bc_index sh idx = idx.
Proof.
  intros H. unfold bc_index. rewrite (in_bounds_length _ _ H), Nat.sub_diag. simpl.
  revert idx H. induction sh as [|d sh IH]; intros [|i idx] H; simpl in *;
    try discriminate; [reflexivity|].
  apply andb_true_iff in H as [Hi H]. apply Nat.ltb_lt in Hi.
  specialize (IH _ H). rewrite drop_0 in IH. rewrite IH.
  destruct (Nat.eqb_spec d 1); [f_equal; lia|reflexivity].
Qed.

Lemma assignable_refl (tl : list nat) : assignable tl tl = true.
Proof.
  unfold assignable. rewrite Nat.sub_diag. simpl.
  induction tl as [|d tl IH]; simpl; [reflexivity|]. now rewrite Nat.eqb_refl.
Qed.

Section IndexFacts.
Context {F : Type} {SF : Scalar F}.

Lemma getitem_ints (a : ndarray F) (sh tl i : list nat) :
  shape a = sh ++ tl -> in_bounds sh i = true ->
  getitem a (ints i) = Ret (slice a i tl).
Proof.
  intros Hs Hi. unfold getitem, slice. rewrite Hs, selection_ints by exact Hi.
  simpl. rewrite sel_shape_ints. f_equal. apply tabulate_ext.
  intros o Ho. rewrite sel_source_ints; [reflexivity|].
  now apply in_bounds_length.
Qed.

Lemma setitem_ints (a v : ndarray F) (sh tl i : list nat) :
  shape a = sh ++ tl -> in_bounds sh i = true -> shape v = tl ->
  setitem a (ints i) v = Ret (assign_slice a sh i v).
Proof.
  intros Hs Hi Hv. unfold setitem, assign_slice.
  rewrite Hs, selection_ints by exact Hi. simpl.
  rewrite sel_shape_ints, Hv, assignable_refl. f_equal. apply tabulate_ext.
  intros idx Hb.
  pose proof (in_bounds_length _ _ Hb) as Hl. rewrite length_app in Hl.
  pose proof (in_bounds_length _ _ Hi) as Hli.
  assert (Hlt : length (take (length sh) idx) = length sh)
    by (rewrite length_take; lia).
  assert (Hidx : idx = take (length sh) idx ++ drop (length sh) idx)
    by (symmetry; apply take_drop).
  revert Hlt Hidx.
  generalize (take (length sh) idx) as j, (drop (length sh) idx) as o.
  intros j o Hlt ->.
  apply in_bounds_app_inv in Hb as [Hb1 Hb2]; [|exact Hlt].
  destruct (decide (j = i)) as [->|E].
  - rewrite sel_member_ints_same.
    rewrite sel_project_ints by first [reflexivity | now apply in_bounds_length].
    now rewrite bc_index_id.
  - now rewrite sel_member_ints_other by congruence.
Qed.

Lemma item_assign_slice (a v : ndarray F) (sh tl i j o : list nat) :
  shape a = sh ++ tl -> in_bounds sh j = true -> in_bounds tl o = true ->
  item (assign_slice a sh i v) (j ++ o)
  = if decide (j = i) then item v o else item a (j ++ o).
Proof.
  intros Hs Hj Ho. unfold assign_slice.
  rewrite item_tabulate by (rewrite Hs; now apply in_bounds_app).
  pose proof (in_bounds_length _ _ Hj) as Hl.
  rewrite take_app_length' by lia. rewrite drop_app_length' by lia.
  reflexivity.
Qed.

End IndexFacts.

(** ** Running monadic code *)

Section MonadFacts.
Context {F : Type}.

Lemma bind_Ret {A B} (m : M F A) (k : A -> M F B) (h h' : heap F) (a : A) :
  m h = (h', Ret a) -> bind m k h = k a h'.
Proof. intros H. unfold bind. now rewrite H. Qed.

Lemma bind_Raise {A B} (m : M F A) (k : A -> M F B) (h h' : heap F) (e : exn) :
  m h = (h', Raise e) -> bind m k h = (h', Raise e).
Proof. intros H. unfold bind. now rewrite H. Qed.

Lemma insert_fresh (h : heap F) (b x : list F) :
  <[length h := x]> (h ++ [b]) = h ++ [x].
Proof.
  induction h as [|a h IH]; simpl; [reflexivity|]. now rewrite IH.
Qed.

Lemma nth_fresh (h : heap F) (b : list F) : nth (length h) (h ++ [b]) [] = b.
Proof. rewrite app_nth2 by lia. now rewrite Nat.sub_diag. Qed.

Lemma nth_old (h : heap F) (b : list F) (l : nat) :
  l < length h -> nth l (h ++ [b]) [] = nth l h [].
Proof. intros H. now apply app_nth1. Qed.

End MonadFacts.

(** ** [chol]: the factorisation loop *)

Section CholFacts.
Context {F : Type} {SF : Scalar F} {UF : Uninit F} {CF : ChoFactor F} {CM : Cholmod F}.

Lemma chol_dense_unfold (C : aref) (h : heap F) :
  let C2 := mk_ref (base C) (atleast_2d_shape (ashape C)) in
  let U := mk_ref (length h) (ashape C2) in
  chol (MDense C) h
  = (for_ (nested_iterator (drop_last 2 (ashape U))) (chol_body C2 U) ;; ret (FDense U))
      (h ++ [map uninitialized (seq 0 (size (ashape C2)))]).
Proof. reflexivity. Qed.

Section Loop.
Variables (h : heap F) (C U : aref) (batch : list nat) (n m : nat).
Hypothesis HC : base C < length h.
Hypothesis HsC : ashape C = batch ++ [n; m].
Hypothesis HU : U = mk_ref (length h) (batch ++ [n; m]).

Lemma value_of_old (buf : list F) : value_of (h ++ [buf]) C = value_of h C.
Proof. unfold value_of. now rewrite nth_old. Qed.

Lemma chol_body_ok (buf : list F) (i : list nat) (R : ndarray F) (lw : bool) :
  in_bounds batch i = true ->
  factor_at h C i = Ret (R, lw) -> shape R = [n; m] ->
  chol_body C U i (h ++ [buf])
  = (h ++ [data (assign_slice (mk_nd (batch ++ [n; m]) buf) batch i R)], Ret tt).
Proof.
  intros Hi Hf HR. unfold chol_body, try_except, factor_at in *.
  unfold bind at 1. change (load_global "linalg" (h ++ [buf])) with (h ++ [buf], @Ret unit tt).
  cbv beta iota.
  unfold bind at 1, deref at 1. cbv beta iota.
  fold (value_of (h ++ [buf]) C). rewrite value_of_old.
  unfold bind at 1, lift at 1.
  destruct (getitem (value_of h C) (ints i)) as [Ci|e]; [|discriminate]. simpl in Hf.
  cbv beta iota. unfold bind at 1, lift at 1. rewrite Hf. cbv beta iota.
  unfold bind at 1, deref at 1. cbv beta iota.
  subst U. cbn [base ashape fst]. rewrite nth_fresh.
  unfold bind, lift.
  rewrite (setitem_ints _ R batch [n; m] i) by (auto; reflexivity).
  unfold write. cbv beta iota. cbn [base]. now rewrite insert_fresh.
Qed.

Lemma chol_body_fail (buf : list F) (i : list nat) (msg : string) :
  factor_at h C i = Raise (LinAlgError msg) ->
  in_bounds batch i = true ->
  chol_body C U i (h ++ [buf])
  = (h ++ [buf], Raise (PyException "Matrix not positive definite")).
Proof.
  intros Hf Hi. unfold chol_body, try_except, factor_at in *.
  rewrite (getitem_ints _ batch [n; m] i) in Hf by (auto; apply HsC). simpl in Hf.
  unfold bind at 1. change (load_global "linalg" (h ++ [buf])) with (h ++ [buf], @Ret unit tt).
  cbv beta iota.
  unfold bind at 1, deref at 1. cbv beta iota.
  fold (value_of (h ++ [buf]) C). rewrite value_of_old.
  unfold bind at 1, lift at 1.
  rewrite (getitem_ints _ batch [n; m] i) by (auto; apply HsC).
  cbv beta iota. unfold bind at 1, lift at 1. rewrite Hf. cbv beta iota.
  cbn [is_LinAlgError].
  unfold bind at 1, deref at 1. cbv beta iota.
  fold (value_of (h ++ [buf]) C). rewrite value_of_old.
  unfold bind at 1, lift at 1.
  rewrite (getitem_ints _ batch [n; m] i) by (auto; apply HsC).
  reflexivity.
Qed.

Lemma chol_loop_ok (l : list (list nat)) (buf : list F) :
  (forall i, In i l -> in_bounds batch i = true /\ factors h C n m i) ->
  for_ l (chol_body C U) (h ++ [buf]) = (h ++ [fill h C batch n m l buf], Ret tt).
Proof.
  revert buf. induction l as [|i l IH]; intros buf H; [reflexivity|].
  destruct (H i (or_introl eq_refl)) as (Hi & R & lw & Hf & HR).
  cbn [for_ fill fold_left].
  rewrite (bind_Ret _ _ _ _ _ (chol_body_ok buf i R lw Hi Hf HR)).
  assert (HR' : factor_of h C i = R) by (unfold factor_of; now rewrite Hf).
  rewrite HR'. apply IH. intros j Hj. apply H. now right.
Qed.

Lemma chol_loop_fail (l : list (list nat)) (buf : list F) :
  (forall i, In i l ->
     in_bounds batch i = true
     /\ (factors h C n m i \/ exists msg, factor_at h C i = Raise (LinAlgError msg))) ->
  (exists i msg, In i l /\ factor_at h C i = Raise (LinAlgError msg)) ->
  exists buf',
    for_ l (chol_body C U) (h ++ [buf])
    = (h ++ [buf'], Raise (PyException "Matrix not positive definite")).
Proof.
  revert buf. induction l as [|i l IH]; intros buf H (k & msg & Hk & Hfail).
  - destruct Hk.
  - cbn [for_].
    destruct (H i (or_introl eq_refl)) as (Hi & [(R & lw & Hf & HR)|(msg' & Hf)]).
    + rewrite (bind_Ret _ _ _ _ _ (chol_body_ok buf i R lw Hi Hf HR)).
      apply IH.
      * intros j Hj. apply H. now right.
      * destruct Hk as [<-|Hk]; [congruence|]. eauto.
    + exists buf. apply bind_Raise. now apply (chol_body_fail buf i msg').
Qed.

Lemma assign_slice_shape (a v : ndarray F) (sh i : list nat) :
  mk_nd (shape a) (data (assign_slice a sh i v)) = assign_slice a sh i v.
Proof. reflexivity. Qed.

Lemma item_fill (l : list (list nat)) (buf : list F) (j o : list nat) :
  in_bounds batch j = true -> in_bounds [n; m] o = true ->
  (In j l -> item (mk_nd (batch ++ [n; m]) (fill h C batch n m l buf)) (j ++ o) = item (factor_of h C j) o)
  /\ (~ In j l ->
      item (mk_nd (batch ++ [n; m]) (fill h C batch n m l buf)) (j ++ o)
      = item (mk_nd (batch ++ [n; m]) buf) (j ++ o)).
Proof.
  intros Hj Ho. revert buf. induction l as [|i l IH]; intros buf.
  - split; [intros []|reflexivity].
  - change (fill h C batch n m (i :: l) buf)
      with (fill h C batch n m l (data (assign_slice (mk_nd (batch ++ [n; m]) buf) batch i (factor_of h C i)))).
    destruct (IH (data (assign_slice (mk_nd (batch ++ [n; m]) buf) batch i (factor_of h C i))))
      as [IH1 IH2].
    pose proof (item_assign_slice (mk_nd (batch ++ [n; m]) buf) (factor_of h C i)
                  batch [n; m] i j o eq_refl Hj Ho) as Hstep.
    rewrite <- assign_slice_shape in Hstep. cbn [shape] in Hstep.
    split.
    + intros Hin.
      destruct (In_dec (fun x y : list nat => decide (x = y)) j l) as [Hl|Hl];
        [now apply IH1|].
      rewrite IH2, Hstep by exact Hl.
      destruct Hin as [->|Hin]; [|contradiction].
      destruct (decide (j = j)); [reflexivity|congruence].
    + intros Hnin. rewrite IH2, Hstep by (intros Hl; apply Hnin; now right).
      destruct (decide (j = i)) as [->|]; [|reflexivity].
      exfalso. apply Hnin. now left.
Qed.

End Loop.

Lemma atleast_2d_shape_batch (batch : list nat) (n m : nat) :
  atleast_2d_shape (batch ++ [n; m]) = batch ++ [n; m].
Proof. destruct batch as [|a [|b batch]]; reflexivity. Qed.

Lemma drop_last_app {A} (l t : list A) : drop_last (length t) (l ++ t) = l.
Proof.
  unfold drop_last. rewrite length_app.
  replace (length l + length t - length t) with (length l) by lia.
  apply take_app_length.
Qed.

Lemma drop_last_2 {A} (l : list A) (a b : A) : drop_last 2 (l ++ [a; b]) = l.
Proof. apply (drop_last_app l [a; b]). Qed.

Lemma drop_last_1 {A} (l : list A) (a : A) : drop_last 1 (l ++ [a]) = l.
Proof. apply (drop_last_app l [a]). Qed.

(** [chol] on a batch whose slices all factorise. *)
Lemma chol_dense_ok (h : heap F) (C : aref) (batch : list nat) (n m : nat) :
  base C < length h ->
  ashape C = batch ++ [n; m] ->
  (forall i, In i (nested_iterator batch) -> factors h C n m i) ->
  let U := mk_ref (length h) (batch ++ [n; m]) in
  exists buf,
    chol (MDense C) h = (h ++ [buf], Ret (FDense U))
    /\ forall i o, in_bounds batch i = true -> in_bounds [n; m] o = true ->
         item (value_of (h ++ [buf]) U) (i ++ o) = item (factor_of h C i) o.
Proof.
  intros HC Hs Hall U.
  set (init := map uninitialized (seq 0 (size (batch ++ [n; m])))).
  exists (fill h C batch n m (nested_iterator batch) init). split.
  - rewrite chol_dense_unfold. cbn zeta. rewrite Hs, atleast_2d_shape_batch.
    cbn [ashape]. rewrite drop_last_2.
    assert (HC2 : mk_ref (base C) (batch ++ [n; m]) = C) by (destruct C; simpl in *; congruence).
    rewrite HC2.
    assert (Hloop : forall i, In i (nested_iterator batch) ->
                      in_bounds batch i = true /\ factors h C n m i).
    { intros i Hi. split; [now apply in_ndindex|now apply Hall]. }
    rewrite (bind_Ret _ _ _ _ _
               (chol_loop_ok h C U batch n m HC eq_refl (nested_iterator batch) init Hloop)).
    reflexivity.
  - intros i o Hi Ho. unfold value_of. cbn [base ashape U]. rewrite nth_fresh.
    apply (item_fill h C batch n m); auto. now apply in_ndindex.
Qed.

(** [chol] on a batch with a slice the library rejects. *)
Lemma chol_dense_fail (h : heap F) (C : aref) (batch : list nat) (n m : nat) :
  base C < length h ->
  ashape C = batch ++ [n; m] ->
  (forall i, In i (nested_iterator batch) ->
     factors h C n m i \/ exists msg, factor_at h C i = Raise (LinAlgError msg)) ->
  (exists i msg, In i (nested_iterator batch)
                 /\ factor_at h C i = Raise (LinAlgError msg)) ->
  exists buf,
    chol (MDense C) h
    = (h ++ [buf], Raise (PyException "Matrix not positive definite")).
Proof.
  intros HC Hs Hall Hbad.
  set (U := mk_ref (length h) (batch ++ [n; m])).
  set (init := map uninitialized (seq 0 (size (batch ++ [n; m])))).
  destruct (chol_loop_fail h C U batch n m HC Hs eq_refl (nested_iterator batch) init)
    as [buf Hbuf]; [|exact Hbad|].
  { intros i Hi. split; [now apply in_ndindex|now apply Hall]. }
  exists buf.
  rewrite chol_dense_unfold. cbn zeta. rewrite Hs, atleast_2d_shape_batch.
  cbn [ashape]. rewrite drop_last_2.
  assert (HC2 : mk_ref (base C) (batch ++ [n; m]) = C) by (destruct C; simpl in *; congruence).
  rewrite HC2. now apply bind_Raise.
Qed.

End CholFacts.

(** ** What a call may touch: the buffers that exist when it starts *)

Section Frame.
Context {F : Type}.

Lemma keeps_weaken {A} n (P Q : A -> Prop) (m : M F A) :
  keeps n P m -> (forall a, P a -> Q a) -> keeps n Q m.
Proof.
  intros H HPQ h Hn. destruct (H h Hn) as (H1 & H2 & H3). auto.
Qed.

Lemma keeps_ret {A} n (P : A -> Prop) (a : A) : P a -> keeps n P (@ret F A a).
Proof.
  intros HP h Hn. simpl. repeat split; auto. intros a' [= <-]. exact HP.
Qed.

Lemma keeps_raise {A} n (P : A -> Prop) (e : exn) : keeps n P (@raise F A e).
Proof. intros h Hn. simpl. repeat split; auto. discriminate. Qed.

Lemma keeps_lift {A} n (o : outcome A) : keeps n (fun _ => True) (@lift F A o).
Proof. intros h Hn. simpl. auto. Qed.

Lemma keeps_bind {A B} n (P : A -> Prop) (Q : B -> Prop) (m : M F A) (k : A -> M F B) :
  keeps n P m -> (forall a, P a -> keeps n Q (k a)) -> keeps n Q (bind m k).
Proof.
  intros Hm Hk h Hn. destruct (Hm h Hn) as (H1 & H2 & H3).
  unfold bind. destruct (m h) as [h' [a|e]]; simpl in *.
  - destruct (Hk a (H3 a eq_refl) h' H1) as (K1 & K2 & K3).
    repeat split; auto. congruence.
  - repeat split; auto. discriminate.
Qed.

Lemma keeps_deref n (r : aref) : keeps n (fun _ => True) (@deref F r).
Proof. intros h Hn. simpl. auto. Qed.

Lemma keeps_alloc n (a : ndarray F) : keeps n (fun r => n <= base r) (@alloc F a).
Proof.
  intros h Hn. simpl. rewrite length_app. simpl. repeat split; [lia| |].
  - now rewrite take_app_le.
  - intros r [= <-]. simpl. exact Hn.
Qed.

Lemma keeps_write n (r : aref) (a : ndarray F) :
  n <= base r -> keeps n (fun _ => True) (write r a).
Proof.
  intros Hr h Hn. simpl. rewrite length_insert. repeat split; auto.
  now rewrite take_insert_ge.
Qed.

Lemma keeps_load_global n (name : string) :
  keeps n (fun _ => True) (@load_global F name).
Proof.
  unfold load_global. destruct (existsb _ _); [now apply keeps_ret|apply keeps_raise].
Qed.

Lemma keeps_load_fast {A} n (name : string) (v : option A) :
  keeps n (fun _ => True) (@load_fast F A name v).
Proof. destruct v; [now apply keeps_ret|apply keeps_raise]. Qed.

Lemma keeps_load_fast_unbound {A} n (name : string) :
  keeps n (fun _ => False) (@load_fast F A name None).
Proof. apply keeps_raise. Qed.

Lemma keeps_for {A} n (l : list A) (body : A -> M F unit) :
  (forall x, keeps n (fun _ => True) (body x)) ->
  keeps n (fun _ => True) (for_ l body).
Proof.
  intros Hb. induction l as [|x l IH]; simpl; [now apply keeps_ret|].
  eapply keeps_bind; [apply Hb|]. intros _ _. exact IH.
Qed.

Lemma keeps_for_fold {A S} n (l : list A) (s : S) (body : A -> S -> M F S) :
  (forall x s', keeps n (fun _ => True) (body x s')) ->
  keeps n (fun _ => True) (for_fold l s body).
Proof.
  intros Hb. revert s. induction l as [|x l IH]; intros s; simpl;
    [now apply keeps_ret|].
  eapply keeps_bind; [apply Hb|]. intros s' _. apply IH.
Qed.

Lemma keeps_try {A} n (P : A -> Prop) (m handler : M F A) (c : exn -> bool) :
  keeps n P m -> keeps n P handler -> keeps n P (try_except m c handler).
Proof.
  intros Hm Hh h Hn. destruct (Hm h Hn) as (H1 & H2 & H3).
  unfold try_except. destruct (m h) as [h' [a|e]]; simpl in *; [auto|].
  destruct (c e); simpl.
  - destruct (Hh h' H1) as (K1 & K2 & K3). repeat split; auto. congruence.
  - repeat split; auto; discriminate.
Qed.

Lemma keeps_print n (a : ndarray F) : keeps n (fun _ => True) (print a).
Proof. now apply keeps_ret. Qed.

End Frame.

(** One step of a frame proof: split a bind, or close a primitive. *)
Ltac keeps_step :=
  lazymatch goal with
  | |- keeps _ _ (bind (alloc _) _) =>
      eapply keeps_bind; [apply keeps_alloc|intros ? ?]
  | |- keeps _ _ (bind (load_fast _ None) _) =>
      eapply keeps_bind; [apply keeps_load_fast_unbound|intros ? []]
  | |- keeps _ _ (bind _ _) =>
      eapply (keeps_bind _ (fun _ => True)); [|intros ? _]
  | |- keeps _ _ (ret _) => apply keeps_ret; auto
  | |- keeps _ _ (raise _) => apply keeps_raise
  | |- keeps _ _ (lift _) => apply keeps_lift
  | |- keeps _ _ (deref _) => apply keeps_deref
  | |- keeps _ _ (print _) => apply keeps_print
  | |- keeps _ _ (load_global _) => apply keeps_load_global
  | |- keeps _ _ (load_fast _ _) => apply keeps_load_fast
  | |- keeps _ _ (alloc _) =>
      first [apply keeps_alloc | eapply keeps_weaken; [apply keeps_alloc|auto]]
  | |- keeps _ _ (write _ _) => apply keeps_write; assumption
  | |- keeps _ _ (for_ _ _) => apply keeps_for; intros ?
  | |- keeps _ _ (for_fold _ _ _) => apply keeps_for_fold; intros ? ?
  | |- keeps _ _ (try_except _ _ _) => apply keeps_try
  end.

Section ModuleFrame.
Context {F : Type} {SF : Scalar F} {LF : Log F} {UF : Uninit F}.
Context {AR : AddReduce F} {SP : SumOfProducts F}.
Context {CF : ChoFactor F} {CS : ChoSolve F} {ST : SolveTriangular F} {CM : Cholmod F}.

Lemma chol_keeps n (C : matrix_like F) :
  keeps n (fun r => match r with FDense U => n <= base U | _ => True end) (chol C).
Proof.
  unfold chol. repeat keeps_step. destruct C; repeat keeps_step.
Qed.

Lemma chol_solve_keeps n (U : factor_like F) (b : matrix_like F) :
  keeps n (fun r => n <= base r) (chol_solve U b).
Proof.
  unfold chol_solve. cbv zeta. repeat keeps_step.
  destruct U; repeat keeps_step; destruct b; repeat keeps_step.
Qed.

Lemma chol_inv_keeps n (U : factor_like F) :
  keeps n (fun r => n <= base r) (chol_inv U).
Proof.
  unfold chol_inv. repeat keeps_step. destruct U; repeat keeps_step.
Qed.

Lemma chol_logdet_keeps n (U : factor_like F) :
  keeps n (fun r => n <= base r) (chol_logdet U).
Proof.
  unfold chol_logdet. repeat keeps_step. destruct U; repeat keeps_step.
Qed.

Lemma logdet_chol_keeps n (U : factor_like F) :
  keeps n (fun r => match r with Some r => n <= base r | None => True end)
    (logdet_chol U).
Proof.
  unfold logdet_chol. repeat keeps_step. destruct U; repeat keeps_step.
Qed.

Lemma m_solve_triangular_keeps n (U B : aref) kwargs :
  keeps n (fun r => n <= base r) (m_solve_triangular U B kwargs).
Proof.
  unfold m_solve_triangular. cbv zeta. repeat keeps_step.
Qed.

Lemma m_outer_keeps n (A B : aref) : keeps n (fun r => n <= base r) (m_outer A B).
Proof. unfold m_outer. repeat keeps_step. Qed.

Lemma m_dot_keeps n (A b : aref) : keeps n (fun r => n <= base r) (m_dot A b).
Proof. unfold m_dot. repeat keeps_step. Qed.

End ModuleFrame.

(** ** Axis classification and pinning *)

Lemma norm_index_neg (len : nat) (i : Z) :
  (- Z.of_nat len <= i < 0)%Z ->
  norm_index len i = Some (Z.to_nat (i + Z.of_nat len)).
Proof.
  intros H. unfold norm_index.
  destruct (Z.ltb_spec i 0); [|lia].
  destruct (Z.leb_spec 0 (i + Z.of_nat len)); [|lia].
  destruct (Z.ltb_spec (i + Z.of_nat len) (Z.of_nat len)); [|lia].
  reflexivity.
Qed.

Lemma py_getitem_neg {A} (t : list A) (i : Z) (d : A) :
  (- Z.of_nat (length t) <= i < 0)%Z ->
  py_getitem t i = Ret (nth (Z.to_nat (i + Z.of_nat (length t))) t d).
Proof.
  intros H. unfold py_getitem. rewrite norm_index_neg by exact H.
  destruct (nth_lookup_or_length t (Z.to_nat (i + Z.of_nat (length t))) d) as [E|E].
  - now rewrite E.
  - lia.
Qed.

Lemma in_py_range (a b i : Z) : In i (py_range a b) <-> (a <= i < b)%Z.
Proof.
  unfold py_range. rewrite in_map_iff. split.
  - intros (k & <- & Hk). apply in_seq in Hk. lia.
  - intros H. exists (Z.to_nat (i - a)). split; [lia|]. apply in_seq. lia.
Qed.

Lemma filter_o_pure {A} (p : A -> outcome bool) (q : A -> bool) (l : list A) :
  (forall x, In x l -> p x = Ret (q x)) ->
  filter_o p l = Ret (List.filter q l).
Proof.
  induction l as [|x l IH]; intros H; simpl; [reflexivity|].
  rewrite H by now left. simpl. rewrite IH by (intros; apply H; now right).
  simpl. now destruct (q x).
Qed.

Lemma classify_axes_eq (sh_u sh_b : list nat) :
  classify_axes sh_u sh_b
  = Ret (List.filter (same_size_at sh_u sh_b)
           (py_range (- Z.of_nat (Nat.min (length sh_u) (length sh_b))) 0)).
Proof.
  unfold classify_axes. apply filter_o_pure. intros i Hi.
  apply in_py_range in Hi.
  rewrite (py_getitem_neg sh_b i 0), (py_getitem_neg sh_u i 0) by lia.
  reflexivity.
Qed.

Lemma in_classify_axes (sh_u sh_b : list nat) (jnd_b : list Z) (i : Z) :
  classify_axes sh_u sh_b = Ret jnd_b ->
  In i jnd_b <-> aligned sh_u sh_b i.
Proof.
  rewrite classify_axes_eq. intros [= <-]. rewrite filter_In, in_py_range.
  unfold aligned, same_size_at. split.
  - intros [Hi He]. split; [exact Hi|]. apply Nat.eqb_eq in He.
    rewrite (py_getitem_neg sh_b i 0), (py_getitem_neg sh_u i 0) by lia.
    eexists. split; [reflexivity|]. now rewrite He.
  - intros [Hi (d & Hb & Hu)]. split; [exact Hi|].
    rewrite (py_getitem_neg sh_b i 0) in Hb by lia.
    rewrite (py_getitem_neg sh_u i 0) in Hu by lia.
    apply Nat.eqb_eq. congruence.
Qed.

Lemma py_getitem_setitem {A} (t : list A) (j j' : Z) (x : A) :
  (- Z.of_nat (length t) <= j < 0)%Z ->
  (- Z.of_nat (length t) <= j' < 0)%Z ->
  exists t', py_setitem t j x = Ret t'
             /\ length t' = length t
             /\ py_getitem t' j' = if decide (j' = j) then Ret x else py_getitem t j'.
Proof.
  intros Hj Hj'. unfold py_setitem. rewrite norm_index_neg by exact Hj.
  eexists. split; [reflexivity|]. split; [apply length_insert|].
  unfold py_getitem. rewrite length_insert, norm_index_neg by exact Hj'.
  destruct (decide (j' = j)) as [->|Hne].
  - rewrite list_lookup_insert_eq by lia. reflexivity.
  - rewrite list_lookup_insert_ne by lia. reflexivity.
Qed.

(** After [for j in jnd_b: ind_b[j] = i[j]]: the entries at the offsets of
    [jnd_b] hold the coordinates of [i], the others are as before. *)
Lemma pin_axes_spec (jnd_b : list Z) (i : list nat) (ind_b : list index_item) :
  (forall j, In j jnd_b ->
     (- Z.of_nat (Nat.min (length i) (length ind_b)) <= j < 0)%Z) ->
  exists ind_b',
    pin_axes jnd_b i ind_b = Ret ind_b'
    /\ length ind_b' = length ind_b
    /\ forall j, (- Z.of_nat (length ind_b) <= j < 0)%Z ->
         (In j jnd_b ->
            exists k, py_getitem i j = Ret k
                      /\ py_getitem ind_b' j = Ret (IInt (Z.of_nat k)))
         /\ (~ In j jnd_b -> py_getitem ind_b' j = py_getitem ind_b j).
Proof.
  unfold pin_axes. revert ind_b.
  induction jnd_b as [|j0 js IH]; intros ind_b Hr.
  - exists ind_b. simpl. repeat split; auto. intros [].
  - assert (Hj0 : (- Z.of_nat (Nat.min (length i) (length ind_b)) <= j0 < 0)%Z)
      by (apply Hr; now left).
    cbn [fold_o]. rewrite (py_getitem_neg i j0 0) by lia. cbn [obind].
    set (k0 := nth (Z.to_nat (j0 + Z.of_nat (length i))) i 0).
    assert (Hset : exists t', py_setitem ind_b j0 (IInt (Z.of_nat k0)) = Ret t'
                              /\ length t' = length ind_b).
    { destruct (py_getitem_setitem ind_b j0 j0 (IInt (Z.of_nat k0))) as (t' & E & L & _);
        [lia|lia|eauto]. }
    destruct Hset as (t' & Et & Lt). rewrite Et. cbn [obind].
    destruct (IH t') as (r & Er & Lr & Hspec).
    { intros j Hj. rewrite Lt. apply Hr. now right. }
    exists r. split; [exact Er|]. split; [congruence|].
    intros j Hj. rewrite <- Lt in Hj. destruct (Hspec j Hj) as [H1 H2].
    rewrite Lt in Hj.
    destruct (py_getitem_setitem ind_b j0 j (IInt (Z.of_nat k0))) as (t2 & E2 & _ & G2);
      [lia|lia|].
    assert (t2 = t') as -> by congruence.
    split.
    + intros Hin.
      destruct (In_dec Z.eq_dec j js) as [Hjs|Hjs]; [now apply H1|].
      destruct Hin as [<-|Hin]; [|contradiction].
      exists k0. split; [apply (py_getitem_neg i j0 0); lia|].
      rewrite H2 by exact Hjs. rewrite G2.
      destruct (decide (j0 = j0)); [reflexivity|congruence].
    + intros Hnin. rewrite H2 by (intros Hjs; apply Hnin; now right).
      rewrite G2. destruct (decide (j = j0)) as [->|]; [|reflexivity].
      exfalso. apply Hnin. now left.
Qed.

(** ** The two solve routines stop at a name that is not bound *)

Section SolveFacts.
Context {F : Type} {SF : Scalar F} {CS : ChoSolve F} {ST : SolveTriangular F}.

Lemma chol_solve_dense_raises (U : aref) (b : matrix_like F) (h : heap F) :
  chol_solve (FDense U) b h
  = (match b with
     | MDense _ => h
     | MSparse s => h ++ [data (toarray s)]
     end, Raise (UnboundLocalError "B")).
Proof. destruct b; reflexivity. Qed.

Lemma chol_solve_other_raises (U : factor_like F) (b : matrix_like F) (h : heap F) :
  is_ndarray U = false ->
  chol_solve U b h = (h, Raise (NameError "cholmod")).
Proof. destruct U; [discriminate| |]; reflexivity. Qed.

Lemma m_solve_triangular_raises (U B : aref) kwargs (h : heap F) :
  m_solve_triangular U B kwargs h = (h, Raise (NameError "broadcasted_shape")).
Proof.
  transitivity
    (match classify_axes (drop_last 2 (atleast_2d_shape (ashape U)))
                         (drop_last 1 (atleast_1d_shape (ashape B))) with
     | Ret _ => (h, @Raise aref (NameError "broadcasted_shape"))
     | Raise e => (h, Raise e)
     end).
  - unfold m_solve_triangular, bind, lift. cbn [base ashape].
    change (@load_global F "np" h) with (h, @Ret unit tt). cbv beta iota.
    destruct (classify_axes _ _); reflexivity.
  - now rewrite classify_axes_eq.
Qed.

End SolveFacts.

(** ** Element-wise functions and sums *)

Section Elementwise.
Context {F : Type} {SF : Scalar F} {LF : Log F} {AR : AddReduce F}.

Lemma item_map (f : F -> F) (a : ndarray F) (idx : list nat) :
  wf a -> in_bounds (shape a) idx = true ->
  item (mk_nd (shape a) (map f (data a))) idx = f (item a idx).
Proof.
  intros Hwf Hb. unfold item. simpl.
  pose proof (ravel_lt _ _ Hb) as Hlt. rewrite <- Hwf in Hlt.
  rewrite (nth_indep _ zero (f zero)) by now rewrite length_map.
  apply map_nth.
Qed.

Lemma item_np_log (a : ndarray F) (idx : list nat) :
  wf a -> in_bounds (shape a) idx = true ->
  item (np_log a) idx = log (item a idx).
Proof. apply item_map. Qed.

Lemma item_int_times (c : Z) (a : ndarray F) (idx : list nat) :
  wf a -> in_bounds (shape a) idx = true ->
  item (int_times c a) idx = mul (of_int c) (item a idx).
Proof. apply (item_map (mul (of_int c))). Qed.

Lemma map_seq_ext {A} (n : nat) (f g : nat -> A) :
  (forall k, k < n -> f k = g k) -> map f (seq 0 n) = map g (seq 0 n).
Proof.
  intros H. apply map_ext_in. intros k Hk. apply in_seq in Hk. apply H. lia.
Qed.

Lemma take_last_1 {A} (l : list A) (a : A) : take_last 1 (l ++ [a]) = [a].
Proof.
  unfold take_last. rewrite length_app. simpl.
  replace (length l + 1 - 1) with (length l) by lia.
  now rewrite drop_app_length.
Qed.

Lemma np_sum_last_eq (a : ndarray F) (l : list nat) (n : nat) :
  shape a = l ++ [n] ->
  np_sum_last a = Ret (tabulate l (fun idx => add_reduce (run a idx n))).
Proof.
  intros Hs. unfold np_sum_last. rewrite Hs, last_last, drop_last_1.
  destruct (l ++ [n]) eqn:E; [now destruct l|reflexivity].
Qed.

(** The value [logdet_chol] computes from a dense batch of square matrices. *)
Lemma logdet_value (Uv : ndarray F) (batch : list nat) (n : nat) :
  shape Uv = batch ++ [n; n] ->
  exists s,
    obind (einsum_diag Uv) (fun d => np_sum_last (np_log d)) = Ret s
    /\ shape s = batch /\ wf s
    /\ forall idx, in_bounds batch idx = true ->
         item s idx
         = add_reduce (map (fun k => log (item Uv (idx ++ [k; k]))) (seq 0 n)).
Proof.
  intros Hs. unfold einsum_diag. rewrite Hs, rev_app_distr. cbn [rev app].
  rewrite Nat.eqb_refl. cbn [obind].
  change (batch ++ [n; n]) with (batch ++ [n] ++ [n]).
  rewrite app_assoc, drop_last_1.
  set (d := tabulate (batch ++ [n]) (fun idx => item Uv (idx ++ take_last 1 idx))).
  rewrite (np_sum_last_eq (np_log d) batch n) by reflexivity.
  eexists. split; [reflexivity|]. split; [reflexivity|].
  split; [apply wf_tabulate|].
  intros idx Hidx. rewrite item_tabulate by exact Hidx.
  unfold run. f_equal. apply map_seq_ext. intros k Hk.
  assert (Hb : in_bounds (batch ++ [n]) (idx ++ [k]) = true).
  { apply in_bounds_app; [exact Hidx|]. simpl.
    destruct (Nat.ltb_spec k n); [reflexivity|lia]. }
  rewrite item_np_log by (try apply wf_tabulate; exact Hb).
  unfold d. rewrite item_tabulate by exact Hb.
  now rewrite take_last_1, <- app_assoc.
Qed.

(** The value [chol_logdet] computes from one square matrix. *)
Lemma chol_logdet_value (Uv : ndarray F) (n : nat) :
  shape Uv = [n; n] ->
  obind (np_diag Uv) (fun d => Ret (int_times 2 (np_sum (np_log d))))
  = Ret (mk_nd [] [mul (of_int 2)
                     (add_reduce (map (fun k => log (item Uv [k; k])) (seq 0 n)))]).
Proof.
  intros Hs. unfold np_diag. rewrite Hs. cbn [obind].
  rewrite Nat.min_id. unfold int_times, np_sum, np_log, tabulate.
  cbn [shape data map]. rewrite ndindex_1d, !map_map. reflexivity.
Qed.

End Elementwise.

(** ** Broadcasting and the matrix-vector product *)

Lemma length_pad_left {A} (n : nat) (x : A) (l : list A) :
  length l <= n -> length (pad_left n x l) = n.
Proof. intros H. unfold pad_left. rewrite length_app, repeat_length. lia. Qed.

Lemma broadcast_zip_length (sa sb r : list nat) :
  length sa = length sb -> broadcast_zip sa sb = Some r -> length r = length sa.
Proof.
  revert sb r. induction sa as [|a sa IH]; intros [|b sb] r Hl H; simpl in *;
    try discriminate.
  - now injection H as <-.
  - destruct (broadcast_dim a b); [|discriminate].
    destruct (broadcast_zip sa sb) eqn:E; [|discriminate].
    injection H as <-. simpl. f_equal. eapply IH; [|exact E]. lia.
Qed.

Lemma broadcast_shapes_length (sa sb sh : list nat) :
  broadcast_shapes sa sb = Some sh ->
  length sh = Nat.max (length sa) (length sb).
Proof.
  unfold broadcast_shapes. intros H.
  apply broadcast_zip_length in H.
  - rewrite H. apply length_pad_left. lia.
  - rewrite !length_pad_left by lia. reflexivity.
Qed.

Lemma zip_with_bc_id (sh idx : list nat) :
  in_bounds sh idx = true ->
  zip_with (fun d i => if d =? 1 then 0 else i) sh idx = idx.
Proof.
  revert idx. induction sh as [|d sh IH]; intros [|i idx] H; simpl in *;
    try discriminate; [reflexivity|].
  apply andb_true_iff in H as [Hi H]. apply Nat.ltb_lt in Hi. rewrite IH by exact H.
  destruct (Nat.eqb_spec d 1); [f_equal; lia|reflexivity].
Qed.

(** Trailing axes that are indexed in bounds pass through [bc_index]. *)
Lemma bc_index_app (s1 s2 i1 i2 : list nat) :
  length s1 <= length i1 -> in_bounds s2 i2 = true ->
  bc_index (s1 ++ s2) (i1 ++ i2) = bc_index s1 i1 ++ i2.
Proof.
  intros Hl Hb. pose proof (in_bounds_length _ _ Hb) as Hl2.
  unfold bc_index. rewrite !length_app.
  replace (length s1 + length s2 - (length i1 + length i2)) with 0 by lia.
  replace (length s1 - length i1) with 0 by lia.
  replace (length i1 + length i2 - (length s1 + length s2))
    with (length i1 - length s1) by lia.
  cbn [repeat app]. rewrite drop_app_le by lia.
  rewrite zip_with_app by (rewrite length_drop; lia).
  now rewrite (zip_with_bc_id s2 i2).
Qed.

(** The broadcasting NumPy applies is the broadcasting of the
    specification. *)
Lemma broadcast_zip_ones_l (s : list nat) :
  broadcast_zip (repeat 1 (length s)) s = Some s.
Proof.
  induction s as [|d s IH]; simpl; [reflexivity|]. rewrite IH.
  unfold broadcast_dim. destruct (Nat.eqb_spec 1 d) as [<-|]; reflexivity.
Qed.

Lemma broadcast_zip_ones_r (s : list nat) :
  broadcast_zip s (repeat 1 (length s)) = Some s.
Proof.
  induction s as [|d s IH]; simpl; [reflexivity|]. rewrite IH.
  unfold broadcast_dim. destruct (Nat.eqb_spec d 1) as [->|]; reflexivity.
Qed.

Lemma spec_broadcast_rev_zip (ra rb : list nat) :
  spec_broadcast_rev ra rb
  = broadcast_zip (ra ++ repeat 1 (Nat.max (length ra) (length rb) - length ra))
                  (rb ++ repeat 1 (Nat.max (length ra) (length rb) - length rb)).
Proof.
  revert rb. induction ra as [|a ra IH]; intros rb.
  - cbn [length app spec_broadcast_rev]. rewrite Nat.max_0_l, Nat.sub_0_r, Nat.sub_diag.
    cbn [repeat]. now rewrite app_nil_r, broadcast_zip_ones_l.
  - destruct rb as [|b rb].
    + cbn [length app spec_broadcast_rev]. rewrite Nat.max_0_r, Nat.sub_0_r, Nat.sub_diag.
      cbn [repeat]. rewrite app_nil_r.
      apply eq_sym, (broadcast_zip_ones_r (a :: ra)).
    + cbn [length app spec_broadcast_rev broadcast_zip]. rewrite IH.
      rewrite <- Nat.succ_max_distr. cbn [Nat.sub].
      destruct (broadcast_zip _ _) as [r|]; unfold broadcast_dim.
      * destruct (a =? b); [reflexivity|]. destruct (a =? 1); [reflexivity|].
        destruct (b =? 1); reflexivity.
      * destruct (a =? b); [reflexivity|]. destruct (a =? 1); [reflexivity|].
        destruct (b =? 1); reflexivity.
Qed.

Lemma broadcast_zip_snoc (a b : list nat) (x y : nat) :
  length a = length b ->
  broadcast_zip (a ++ [x]) (b ++ [y])
  = match broadcast_dim x y, broadcast_zip a b with
    | Some d, Some r => Some (r ++ [d])
    | _, _ => None
    end.
Proof.
  revert b. induction a as [|u a IH]; intros [|v b] Hl; simpl in *; try discriminate.
  - now destruct (broadcast_dim x y).
  - rewrite IH by lia.
    destruct (broadcast_dim u v), (broadcast_dim x y), (broadcast_zip a b); reflexivity.
Qed.

Lemma broadcast_zip_rev (a b : list nat) :
  length a = length b ->
  broadcast_zip (rev a) (rev b) = option_map (@rev nat) (broadcast_zip a b).
Proof.
  revert b. induction a as [|u a IH]; intros [|v b] Hl; simpl in *; try discriminate;
    [reflexivity|].
  rewrite broadcast_zip_snoc by (rewrite !length_rev; lia).
  rewrite IH by lia.
  destruct (broadcast_dim u v), (broadcast_zip a b); reflexivity.
Qed.

Lemma spec_broadcast_eq (sa sb : list nat) :
  spec_broadcast sa sb = broadcast_shapes sa sb.
Proof.
  unfold spec_broadcast, broadcast_shapes, pad_left.
  rewrite spec_broadcast_rev_zip, !length_rev.
  set (n := Nat.max (length sa) (length sb)).
  rewrite <- (rev_repeat (n - length sa) 1), <- (rev_repeat (n - length sb) 1).
  rewrite <- !rev_app_distr.
  rewrite broadcast_zip_rev
    by (rewrite !length_app, ?length_rev, !repeat_length; unfold n; lia).
  rewrite !rev_repeat.
  destruct (broadcast_zip _ _) as [r|]; [|reflexivity].
  cbn [option_map]. now rewrite rev_involutive.
Qed.

Lemma spec_operand_index_rev_zip (rs ridx : list nat) :
  spec_operand_index_rev rs ridx
  = zip_with (fun d i => if d =? 1 then 0 else i) rs ridx.
Proof.
  revert ridx. induction rs as [|d rs IH]; intros [|i ridx]; simpl;
    try reflexivity; now rewrite IH.
Qed.

Lemma zip_with_rev_eq {A B C} (f : A -> B -> C) (l : list A) (k : list B) :
  length l = length k -> zip_with f (rev l) (rev k) = rev (zip_with f l k).
Proof.
  revert k. induction l as [|x l IH]; intros [|y k] Hl; simpl in *; try discriminate;
    [reflexivity|].
  rewrite zip_with_app by (rewrite !length_rev; lia).
  rewrite IH by lia. reflexivity.
Qed.

Lemma spec_operand_index_eq (s idx : list nat) :
  length s <= length idx -> spec_operand_index s idx = bc_index s idx.
Proof.
  intros Hl. unfold spec_operand_index, bc_index.
  replace (length s - length idx) with 0 by lia. cbn [repeat app].
  rewrite spec_operand_index_rev_zip.
  rewrite <- (take_drop (length idx - length s) idx) at 1.
  rewrite rev_app_distr.
  rewrite zip_with_app_r, length_rev, length_drop.
  replace (length idx - (length idx - length s)) with (length s) by lia.
  rewrite (take_ge (rev s)), (drop_ge (rev s)) by (rewrite length_rev; lia).
  cbn [zip_with].
  rewrite app_nil_r, zip_with_rev_eq by (rewrite length_drop; lia).
  apply rev_involutive.
Qed.

Section MatVec.
Context {F : Type} {SF : Scalar F} {SP : SumOfProducts F}.

(** The value [m_dot] computes. *)
Lemma einsum_matvec_value (Av bv : ndarray F) (bA bb sh : list nat) (m n : nat) :
  shape Av = bA ++ [m; n] -> shape bv = bb ++ [n] ->
  broadcast_shapes bA bb = Some sh ->
  exists r,
    einsum_matvec Av bv = Ret r
    /\ shape r = sh ++ [m]
    /\ forall idx i, in_bounds sh idx = true -> i < m ->
         item r (idx ++ [i])
         = sum_of_products
             (map (fun k => item Av (bc_index bA idx ++ [i; k])) (seq 0 n))
             (map (fun k => item bv (bc_index bb idx ++ [k])) (seq 0 n)).
Proof.
  intros HA Hb Hsh. unfold einsum_matvec.
  rewrite HA, Hb, !rev_app_distr. cbn [rev app].
  unfold broadcast_dim. rewrite Nat.eqb_refl.
  rewrite drop_last_2, !drop_last_1, Hsh.
  change (bA ++ [m; n]) with (bA ++ [m] ++ [n]). rewrite app_assoc, drop_last_1.
  eexists. split; [reflexivity|]. split; [reflexivity|].
  intros idx i Hidx Hi.
  pose proof (in_bounds_length _ _ Hidx) as Hlen.
  pose proof (broadcast_shapes_length _ _ _ Hsh) as Hmax.
  rewrite item_tabulate.
  2:{ apply in_bounds_app; [exact Hidx|]. simpl.
      destruct (Nat.ltb_spec i m); [reflexivity|lia]. }
  rewrite drop_last_1.
  rewrite (bc_index_app bA [m] idx [i])
    by first [lia | simpl; destruct (Nat.ltb_spec i m); [reflexivity|lia]].
  unfold run. f_equal. apply map_ext. intros k. now rewrite <- app_assoc.
Qed.

End MatVec.

(** ** Running the functions that return a computed value *)

Lemma keeps_untouched {F A} (P : A -> Prop) (m : M F A) (h : heap F) :
  keeps (length h) P m ->
  untouched h (fst (m h)) /\ forall a, snd (m h) = Ret a -> P a.
Proof.
  intros H. destruct (H h (le_n _)) as (H1 & H2 & H3). split; [|exact H3].
  exists (drop (length h) (fst (m h))).
  rewrite <- (take_drop (length h) (fst (m h))) at 1.
  f_equal. rewrite H2. apply firstn_all.
Qed.

Lemma load_global_np {F} (h : heap F) : load_global "np" h = (h, Ret tt).
Proof. reflexivity. Qed.

Ltac run_np := repeat (rewrite load_global_np; cbv beta iota).

Section Runs.
Context {F : Type} {SF : Scalar F} {LF : Log F}.
Context {AR : AddReduce F} {SP : SumOfProducts F}.

Lemma item_value_fresh (h : heap F) (r : ndarray F) (idx : list nat) :
  item (value_of (h ++ [data r]) (mk_ref (length h) (shape r))) idx = item r idx.
Proof. unfold value_of. cbn [base ashape]. rewrite nth_fresh. now destruct r. Qed.

Lemma m_dot_run (A b : aref) (h : heap F) (r : ndarray F) :
  einsum_matvec (value_of h A) (value_of h b) = Ret r ->
  m_dot A b h = (h ++ [data r], Ret (mk_ref (length h) (shape r))).
Proof.
  intros H. unfold m_dot, bind, deref, lift, alloc. run_np.
  fold (value_of h A) (value_of h b). now rewrite H.
Qed.

Lemma logdet_chol_run (U : aref) (h : heap F) (s : ndarray F) :
  obind (einsum_diag (value_of h U)) (fun d => np_sum_last (np_log d)) = Ret s ->
  logdet_chol (FDense U) h
  = (h ++ [data (int_times 2 s)], Ret (Some (mk_ref (length h) (shape s)))).
Proof.
  intros H. unfold logdet_chol, bind, deref, lift, alloc, ret. run_np.
  fold (value_of h U).
  destruct (einsum_diag (value_of h U)) as [d|e]; [|discriminate].
  cbn [obind] in H. now rewrite H.
Qed.

Lemma chol_logdet_run (U : aref) (h : heap F) (v : ndarray F) :
  obind (np_diag (value_of h U)) (fun d => Ret (int_times 2 (np_sum (np_log d)))) = Ret v ->
  chol_logdet (FDense U) h = (h ++ [data v], Ret (mk_ref (length h) (shape v))).
Proof.
  intros H. unfold chol_logdet, bind, deref, lift, alloc. run_np.
  fold (value_of h U).
  destruct (np_diag (value_of h U)) as [d|e]; [|discriminate].
  cbn [obind] in H. now injection H as <-.
Qed.

End Runs.

(** ** Exact arithmetic *)

Lemma R_sums_exactly : sums_exactly R.
Proof. intros l. reflexivity. Qed.

Lemma int64_contracts_exactly : contracts_exactly Z.
Proof.
  intros xs ys Hl. unfold sum_of_products, int64_sum_of_products.
  rewrite <- Hl, Nat.max_id. f_equal. f_equal.
  - destruct xs as [|x [|x' xs]]; reflexivity.
  - rewrite Hl. destruct ys as [|y [|y' ys]]; reflexivity.
Qed.

Lemma zip_with_maps {A B C D} (f : B -> C -> D) (g : A -> B) (g' : A -> C)
    (l : list A) :
  zip_with f (map g l) (map g' l) = map (fun x => f (g x) (g' x)) l.
Proof. induction l as [|x l IH]; simpl; [reflexivity|]. now rewrite IH. Qed.

(** * The claims *)

(** C1 (grouping correctness of the batched solve), evaluated on the code:
    for a factor batch of batch shape (2,) and right-hand sides of batch
    shape (2, 5), [chol_solve] does not return the grouped solutions of
    shape (2, 5, N); the call raises [UnboundLocalError] for the local [B],
    whatever the solver is, and leaves the store as it was.  The axis
    classification of lines 73-75 would, on these batch shapes, find no
    aligned axis: it pairs the single axis of the factors (size 2) with the
    last batch axis of the right-hand sides (size 5). *)
Theorem C1_chol_solve_grouping_raises (CS : ChoSolve float) :
  chol_solve (FDense c1_U) (MDense c1_B) c1_store
  = (c1_store, Raise (UnboundLocalError "B"))
  /\ classify_axes (drop_last 2 (ashape c1_U)) (drop_last 1 (ashape c1_B)) = Ret [].
Proof. split; [apply chol_solve_dense_raises|reflexivity]. Qed.

(** C2 (broadcasting law of the batched solve), evaluated on the code: for
    a factor batch of batch shape (3,) and one right-hand side set of batch
    shape (1,), [chol_solve] does not return the three per-matrix
    solutions; the call raises [UnboundLocalError] for the local [B],
    whatever the solver is, and leaves the store as it was. *)
Theorem C2_chol_solve_broadcast_raises (CS : ChoSolve float) :
  chol_solve (FDense c2_U) (MDense c2_B) c2_store
  = (c2_store, Raise (UnboundLocalError "B")).
Proof. apply chol_solve_dense_raises. Qed.

(** C3: for every dense factor [U] and every right-hand side [b] (dense or
    sparse), in every store and with every solver, [chol_solve(U, b)]
    raises a [NameError] (the [UnboundLocalError] of the local [B], read on
    line 66 before any assignment to it); the call returns no result, and
    the buffers that existed before it are unchanged. *)
Theorem C3_chol_solve_dense_name_error {F : Type} {SF : Scalar F} {CS : ChoSolve F}
    (U : aref) (b : matrix_like F) (h : heap F) :
  exists h' e,
    chol_solve (FDense U) b h = (h', Raise e)
    /\ e = UnboundLocalError "B"
    /\ is_NameError e = true
    /\ untouched h h'.
Proof.
  eexists _, _. split; [apply chol_solve_dense_raises|].
  repeat split. destruct b.
  - exists []. now rewrite app_nil_r.
  - eexists. reflexivity.
Qed.

(** C4: for every pair of arrays [U], [B], every keyword arguments and
    every store, [m_solve_triangular(U, B, **kwargs)] raises [NameError]
    for [broadcasted_shape], a name the module neither defines nor imports
    ([nested_iterator] is the one name it imports from [.utils]); the
    store is as it was, so no solve has run and no output was allocated. *)
Theorem C4_m_solve_triangular_name_error {F : Type} {SF : Scalar F}
    {ST : SolveTriangular F} (U B : aref) (kwargs : list (string * pyarg))
    (h : heap F) :
  m_solve_triangular U B kwargs h = (h, Raise (NameError "broadcasted_shape"))
  /\ existsb (String.eqb "broadcasted_shape") module_globals = false
  /\ existsb (String.eqb "nested_iterator") module_globals = true.
Proof.
  split; [apply m_solve_triangular_raises|]. split; reflexivity.
Qed.

(** What lines 73-75 and 91-92 (164-167 and 187-188) compute when they are
    run: the tuple [jnd_b] holds exactly the negative offsets [j] of
    [range(-min(len(sh_u), len(sh_b)), 0)] with [sh_b[j] == sh_u[j]], and
    the loop [for j in jnd_b: ind_b[j] = i[j]] sets exactly these entries
    of [ind_b]; every other entry stays what it was, an [Ellipsis]. *)
Lemma classify_then_pin (sh_u sh_b i : list nat) (ind_b : list index_item) :
  length i = length sh_u ->
  length ind_b = length sh_b ->
  exists jnd_b ind_b',
    classify_axes sh_u sh_b = Ret jnd_b
    /\ (forall j, In j jnd_b <-> aligned sh_u sh_b j)
    /\ (forall j, (- Z.of_nat (length sh_b) <= j < 0)%Z ->
          py_getitem (repeat IEllipsis (length sh_b)) j = Ret IEllipsis)
    /\ pin_axes jnd_b i ind_b = Ret ind_b'
    /\ length ind_b' = length sh_b
    /\ forall j, (- Z.of_nat (length sh_b) <= j < 0)%Z ->
         (aligned sh_u sh_b j ->
            exists k, py_getitem i j = Ret k
                      /\ py_getitem ind_b' j = Ret (IInt (Z.of_nat k)))
         /\ (~ aligned sh_u sh_b j -> py_getitem ind_b' j = py_getitem ind_b j).
Proof.
  intros Hi Hb.
  pose proof (classify_axes_eq sh_u sh_b) as Hc.
  set (jnd_b := List.filter _ _) in Hc.
  pose proof (fun j => in_classify_axes sh_u sh_b jnd_b j Hc) as Hin.
  destruct (pin_axes_spec jnd_b i ind_b) as (ind_b' & Hp & Hl & Hspec).
  { intros j Hj. apply Hin in Hj as [Hr _]. rewrite Hi, Hb. exact Hr. }
  exists jnd_b, ind_b'. split; [exact Hc|]. split; [exact Hin|].
  split; [|split; [exact Hp|split; [congruence|]]].
  - intros j Hj.
    rewrite (py_getitem_neg _ j IEllipsis) by (rewrite repeat_length; exact Hj).
    f_equal. apply nth_repeat.
  - intros j Hj. rewrite <- Hb in Hj. destruct (Hspec j Hj) as [H1 H2].
    split; intros Ha; [apply H1|apply H2]; now rewrite Hin.
Qed.

(** The routine with line 170 taken out is the rest of the routine. *)
Lemma m_solve_triangular_split {F : Type} {SF : Scalar F} {ST : SolveTriangular F}
    (U B : aref) (kwargs : list (string * pyarg)) :
  m_solve_triangular U B kwargs
  = (let U2 := mk_ref (base U) (atleast_2d_shape (ashape U)) in
     let B2 := mk_ref (base B) (atleast_1d_shape (ashape B)) in
     let sh_u := drop_last 2 (ashape U2) in
     let sh_b := drop_last 1 (ashape B2) in
     load_global "np" ;;
     load_global "np" ;;
     jnd_b <- lift (classify_axes sh_u sh_b) ;;
     load_global "broadcasted_shape" ;;
     sh <- lift (broadcasted_shape sh_u sh_b) ;;
     m_solve_triangular_from_171 U2 B2 jnd_b sh kwargs)%py.
Proof. reflexivity. Qed.

(** C5, evaluated on the code, for factors of batch shape (3, 4) and
    right-hand sides of batch shape (5, 1, 4).  Neither solve routine
    reaches its iteration: [chol_solve] raises [UnboundLocalError] and
    [m_solve_triangular] raises [NameError], so no axis of [B] is pinned
    and none is broadcast.  The classification itself is as the claim
    says: the one aligned offset is -1, and the shapes broadcast to
    (5, 3, 4).  But the statements that follow in the source do not treat
    the other axes of [B] as broadcast: for the first factor index (0, 0)
    the index list becomes [[Ellipsis, Ellipsis, 0]], and
    [B[tuple(ind_b) + (Ellipsis,)]] then holds three [Ellipsis], which
    NumPy rejects; the rest of [m_solve_triangular], run with [sh] bound
    to (5, 3, 4), raises [IndexError] in its first iteration, whatever the
    triangular solver is. *)
Theorem C5_unaligned_axes_not_broadcast (CS : ChoSolve float)
    (ST : SolveTriangular float) :
  chol_solve (FDense c5_U) (MDense c5_B) c5_store
  = (c5_store, Raise (UnboundLocalError "B"))
  /\ m_solve_triangular c5_U c5_B [] c5_store
     = (c5_store, Raise (NameError "broadcasted_shape"))
  /\ classify_axes [3; 4] [5; 1; 4] = Ret [(-1)%Z]
  /\ spec_broadcast [3; 4] [5; 1; 4] = Some [5; 3; 4]
  /\ pin_axes [(-1)%Z] [0; 0] [IEllipsis; IEllipsis; IEllipsis]
     = Ret [IEllipsis; IEllipsis; IInt 0]
  /\ getitem (value_of c5_store c5_B) [IEllipsis; IEllipsis; IInt 0; IEllipsis]
     = Raise (IndexError "an index can only have a single ellipsis")
  /\ m_solve_triangular_from_171 c5_U c5_B [(-1)%Z] [5; 3; 4] [] c5_store
     = (c5_store ++ [repeat 0%float 60],
        Raise (IndexError "an index can only have a single ellipsis")).
Proof.
  split; [apply chol_solve_dense_raises|].
  split; [apply m_solve_triangular_raises|].
  repeat split; vm_compute; reflexivity.
Qed.

(** C6 as stated fails on the code: for a sparse factor neither
    [chol_logdet] nor [logdet_chol] returns the sum of the logarithms of
    [D]; both raise [NameError] for [cholmod], whose import is commented
    out.  And of the two operations only [logdet_chol] takes a batch:
    [chol_logdet] on a dense batch of two matrices raises the [ValueError]
    of [np.diag]. *)
Lemma C6_log_determinant_counterexample :
  chol_logdet (FSparse c6_factor) c6_store = (c6_store, Raise (NameError "cholmod"))
  /\ logdet_chol (FSparse c6_factor) c6_store = (c6_store, Raise (NameError "cholmod"))
  /\ chol_logdet (FDense c6_U) c6_store
     = (c6_store, Raise (ValueError "Input must be 1- or 2-d.")).
Proof. repeat split. Qed.

(** C6, amended: for every dense batch [U] of square matrices (batch shape
    [batch], possibly empty), [logdet_chol(U)] returns a new array of shape
    [batch] whose entry at each batch index is twice the sum of the
    logarithms of the diagonal entries of that slice (one scalar when the
    batch shape is empty); and for one dense square matrix [V],
    [chol_logdet(V)] returns a new scalar, twice the sum of the logarithms
    of the diagonal entries of [V].  The sum is the one [np.sum] returns
    for the n logarithms, taken in the order of the diagonal: which
    additions NumPy performs to get it is not fixed here, and where
    [np.sum] is exact the value is twice the sum itself.  The store the
    call started from is unchanged. *)
Theorem C6_dense_log_determinant {F : Type} {SF : Scalar F} {LF : Log F}
    {AR : AddReduce F}
    (h : heap F) (U : aref) (batch : list nat) (n : nat) (V : aref) (k : nat) :
  ashape U = batch ++ [n; n] ->
  ashape V = [k; k] ->
  (exists h' r,
     logdet_chol (FDense U) h = (h', Ret (Some r))
     /\ untouched h h'
     /\ ashape r = batch
     /\ (forall idx, in_bounds batch idx = true ->
           item (value_of h' r) idx
           = mul (of_int 2)
                 (add_reduce
                    (map (fun j => log (item (value_of h U) (idx ++ [j; j])))
                         (seq 0 n))))
     /\ (sums_exactly F ->
         forall idx, in_bounds batch idx = true ->
           item (value_of h' r) idx
           = mul (of_int 2)
                 (fold_right add zero
                    (map (fun j => log (item (value_of h U) (idx ++ [j; j])))
                         (seq 0 n)))))
  /\ (exists h' r,
        chol_logdet (FDense V) h = (h', Ret r)
        /\ untouched h h'
        /\ ashape r = []
        /\ item (value_of h' r) []
           = mul (of_int 2)
                 (add_reduce
                    (map (fun j => log (item (value_of h V) [j; j])) (seq 0 k)))
        /\ (sums_exactly F ->
            item (value_of h' r) []
            = mul (of_int 2)
                  (fold_right add zero
                     (map (fun j => log (item (value_of h V) [j; j])) (seq 0 k))))).
Proof.
  intros HU HV. split.
  - destruct (logdet_value (value_of h U) batch n HU) as (s & Hs & Hsh & Hwf & Hitem).
    assert (Hval : forall idx, in_bounds batch idx = true ->
              item (value_of (h ++ [data (int_times 2 s)]) (mk_ref (length h) (shape s)))
                idx
              = mul (of_int 2)
                    (add_reduce
                       (map (fun j => log (item (value_of h U) (idx ++ [j; j])))
                            (seq 0 n)))).
    { intros idx Hidx.
      change (shape s) with (shape (int_times 2 s)). rewrite item_value_fresh.
      rewrite item_int_times by (rewrite ?Hsh; auto). now rewrite Hitem. }
    eexists _, _. split; [apply (logdet_chol_run U h s Hs)|].
    split; [eexists; reflexivity|]. split; [exact Hsh|].
    split; [exact Hval|].
    intros Hex idx Hidx. rewrite (Hval idx Hidx). now rewrite Hex.
  - eexists _, _. split; [apply chol_logdet_run, (chol_logdet_value (value_of h V) k HV)|].
    split; [eexists; reflexivity|]. split; [reflexivity|].
    assert (Hval : item (value_of
                          (h ++ [[mul (of_int 2)
                                    (add_reduce
                                       (map (fun j => log (item (value_of h V) [j; j]))
                                            (seq 0 k)))]])
                          (mk_ref (length h) [])) []
                   = mul (of_int 2)
                         (add_reduce
                            (map (fun j => log (item (value_of h V) [j; j])) (seq 0 k)))).
    { unfold value_of. cbn [base ashape data shape]. rewrite nth_fresh. reflexivity. }
    split; [exact Hval|]. intros Hex. rewrite <- Hex. exact Hval.
Qed.

(** C6 on the batch of the factors [[1, 0], [0, 1]] and [[2, 0], [0, 3]],
    and on the single matrix [[4, 1], [1, 3]]. *)
Lemma C6_dense_log_determinant_witness :
  ashape (mk_ref 0 [2; 2; 2]) = [2] ++ [2; 2]
  /\ ashape (mk_ref 1 [2; 2]) = [2; 2]
  /\ (exists h' r,
        logdet_chol (FDense (mk_ref 0 [2; 2; 2])) c6w_store = (h', Ret (Some r))
        /\ ashape r = [2]
        /\ item (value_of h' r) [0] = (2 * (ln 1 + (ln 1 + 0)))%R
        /\ item (value_of h' r) [1] = (2 * (ln 2 + (ln 3 + 0)))%R)
  /\ (exists h' r,
        chol_logdet (FDense (mk_ref 1 [2; 2])) c6w_store = (h', Ret r)
        /\ ashape r = []
        /\ item (value_of h' r) [] = (2 * (ln 4 + (ln 3 + 0)))%R).
Proof.
  split; [reflexivity|]. split; [reflexivity|].
  destruct (C6_dense_log_determinant c6w_store (mk_ref 0 [2; 2; 2]) [2] 2
              (mk_ref 1 [2; 2]) 2 eq_refl eq_refl)
    as [(h' & r & H1 & _ & H2 & _ & H3) (h'' & r' & H4 & _ & H5 & _ & H6)].
  split.
  - exists h', r. split; [exact H1|]. split; [exact H2|].
    split; [exact (H3 R_sums_exactly [0] eq_refl)|exact (H3 R_sums_exactly [1] eq_refl)].
  - exists h'', r'. split; [exact H4|]. split; [exact H5|exact (H6 R_sums_exactly)].
Defined.

(** C7 as stated fails on the code: [chol] of the symmetric
    positive-definite matrix [[4, 2], [2, 5]] returns [[2, 1], [2, 2]].
    The upper triangle is the Cholesky factor [R] ([R^T R] gives back 4, 2
    and 5), but the entry below the diagonal is the 2 of the input, not 0:
    [cho_factor] leaves the triangle it does not use as it finds it. *)
Lemma C7_chol_zero_triangle_counterexample :
  chol (MDense c7_C) c7_store
  = (c7_store ++ [[2; 1; 2; 2]%float], Ret (FDense (mk_ref 1 [2; 2])))
  /\ item (value_of (c7_store ++ [[2; 1; 2; 2]%float]) (mk_ref 1 [2; 2])) [1; 0]
     = 2%float
  /\ PrimFloat.eqb 2 0 = false
  /\ item (value_of c7_store c7_C) [0; 1] = item (value_of c7_store c7_C) [1; 0]
  /\ (2 * 2 = 4 /\ 2 * 1 = 2 /\ 1 * 1 + 2 * 2 = 5)%float.
Proof. repeat split; vm_compute; reflexivity. Qed.

(** C7, amended: for every dense batch [C] (an array of the store, of shape
    [batch ++ [n; m]]) whose slices [cho_factor] all factorises, [chol(C)]
    returns a new array of the shape of [C], and each of its matrix slices
    is exactly the matrix [cho_factor] returns for the corresponding slice
    of [C]: the factor in the triangle [cho_factor] writes, and whatever
    [cho_factor] leaves in the other triangle, which is not set to zero.
    The buffers that existed before the call are unchanged. *)
Theorem C7_chol_slices {F : Type} {SF : Scalar F} {UF : Uninit F}
    {CF : ChoFactor F} {CM : Cholmod F}
    (h : heap F) (C : aref) (batch : list nat) (n m : nat) :
  base C < length h ->
  ashape C = batch ++ [n; m] ->
  (forall i, In i (nested_iterator batch) ->
     exists R lw, factor_at h C i = Ret (R, lw) /\ shape R = [n; m] /\ wf R) ->
  exists h' U,
    chol (MDense C) h = (h', Ret (FDense U))
    /\ untouched h h'
    /\ length h <= base U
    /\ ashape U = ashape C
    /\ forall i R lw,
         In i (nested_iterator batch) -> factor_at h C i = Ret (R, lw) ->
         getitem (value_of h' U) (ints i) = Ret R.
Proof.
  intros HC Hs Hall.
  destruct (chol_dense_ok h C batch n m HC Hs) as (buf & Hrun & Hitem).
  { intros i Hi. destruct (Hall i Hi) as (R & lw & Hf & HR & _).
    exists R, lw. auto. }
  eexists _, _. split; [exact Hrun|].
  split; [eexists; reflexivity|]. split; [apply le_n|]. split; [now rewrite Hs|].
  intros i R lw Hi Hf.
  destruct (Hall i Hi) as (R' & lw' & Hf' & HR & Hwf).
  assert (R' = R) as -> by congruence.
  assert (Hb : in_bounds batch i = true) by now apply in_ndindex.
  rewrite (getitem_ints _ batch [n; m] i) by (auto; reflexivity).
  f_equal. rewrite <- (tabulate_item R Hwf), HR. apply tabulate_ext.
  intros o Ho. rewrite (Hitem i o Hb Ho).
  unfold factor_of. now rewrite Hf.
Qed.

(** C7 on the matrix [[4, 2], [2, 5]] (empty batch shape). *)
Lemma C7_chol_slices_witness :
  base c7_C < length c7_store
  /\ ashape c7_C = [] ++ [2; 2]
  /\ exists h' U, chol (MDense c7_C) c7_store = (h', Ret (FDense U))
                  /\ ashape U = ashape c7_C.
Proof.
  split; [simpl; lia|]. split; [reflexivity|].
  destruct (C7_chol_slices c7_store c7_C [] 2 2) as (h' & U & H1 & _ & _ & H2 & _).
  - simpl. lia.
  - reflexivity.
  - intros i [<-|[]]. eexists _, _. split; [vm_compute; reflexivity|].
    split; reflexivity.
  - exists h', U. split; assumption.
Defined.

(** C8 as stated fails on the code: the matrix [[1, 0], [5, 1]] is not
    symmetric (so it is not symmetric positive definite), and [chol]
    returns normally on it: [cho_factor] reads the upper triangle only. *)
Lemma C8_chol_failure_counterexample :
  chol (MDense c8_C) c8_store
  = (c8_store ++ [[1; 0; 5; 1]%float], Ret (FDense (mk_ref 1 [2; 2])))
  /\ PrimFloat.eqb (item (value_of c8_store c8_C) [1; 0])
                   (item (value_of c8_store c8_C) [0; 1]) = false.
Proof. split; vm_compute; reflexivity. Qed.

(** C8, amended: for every dense batch [C] (an array of the store, of shape
    [batch ++ [n; m]]) in which [cho_factor] rejects at least one slice with
    [LinAlgError], while on each other slice it either returns an [n x m]
    matrix or raises [LinAlgError] too, [chol(C)] raises
    [Exception("Matrix not positive definite")] and returns no array, not
    even for the slices that factorise; the buffers that existed before the
    call are unchanged.  (What [cho_factor] rejects is decided by the
    triangle it reads, not by symmetry.) *)
Theorem C8_chol_failure_is_whole_call {F : Type} {SF : Scalar F} {UF : Uninit F}
    {CF : ChoFactor F} {CM : Cholmod F}
    (h : heap F) (C : aref) (batch : list nat) (n m : nat) :
  base C < length h ->
  ashape C = batch ++ [n; m] ->
  (forall i, In i (nested_iterator batch) ->
     (exists R lw, factor_at h C i = Ret (R, lw) /\ shape R = [n; m])
     \/ exists msg, factor_at h C i = Raise (LinAlgError msg)) ->
  (exists i msg, In i (nested_iterator batch)
                 /\ factor_at h C i = Raise (LinAlgError msg)) ->
  exists h',
    chol (MDense C) h = (h', Raise (PyException "Matrix not positive definite"))
    /\ untouched h h'.
Proof.
  intros HC Hs Hall Hbad.
  destruct (chol_dense_fail h C batch n m HC Hs Hall Hbad) as (buf & Hrun).
  eexists. split; [exact Hrun|]. eexists. reflexivity.
Qed.

Lemma C8_chol_failure_is_whole_call_witness :
  base c8w_C < length c8w_store
  /\ ashape c8w_C = [2] ++ [2; 2]
  /\ exists h',
       chol (MDense c8w_C) c8w_store
       = (h', Raise (PyException "Matrix not positive definite")).
Proof.
  split; [simpl; lia|]. split; [reflexivity|].
  destruct (C8_chol_failure_is_whole_call c8w_store c8w_C [2] 2 2) as (h' & H1 & _).
  - simpl. lia.
  - reflexivity.
  - intros i [<-|[<-|[]]].
    + left. eexists _, _. split; [vm_compute; reflexivity|reflexivity].
    + right. eexists. vm_compute. reflexivity.
  - exists [1], "leading minor of the array is not positive definite"%string.
    split; [simpl; auto|vm_compute; reflexivity].
  - exists h'. exact H1.
Defined.

Lemma keeps_call {F A} (P : A -> Prop) (m : M F A) (h : heap F) :
  keeps (length h) P m -> untouched h (fst (m h)) /\ on_return P (snd (m h)).
Proof.
  intros H. destruct (keeps_untouched P m h H) as [H1 H2]. split; [exact H1|].
  destruct (snd (m h)); simpl; auto.
Qed.

(** C9: every operation of the module ([chol], [chol_solve], [chol_inv],
    [chol_logdet], [logdet_chol], [m_solve_triangular], [m_outer], [m_dot]),
    on every input and from every store, leaves each buffer that existed
    before the call, the arguments' among them, with the content it had,
    whether the call returns or raises; and an array it returns owns a
    buffer allocated during the call. *)
Theorem C9_inputs_unchanged {F : Type} {SF : Scalar F} {LF : Log F} {UF : Uninit F}
    {AR : AddReduce F} {SP : SumOfProducts F}
    {CF : ChoFactor F} {CS : ChoSolve F} {ST : SolveTriangular F} {CM : Cholmod F}
    (h : heap F) :
  (forall C,
     untouched h (fst (chol C h))
     /\ on_return (fun r => match r with FDense U => fresh_in h U | _ => True end)
          (snd (chol C h)))
  /\ (forall U b,
        untouched h (fst (chol_solve U b h))
        /\ on_return (fresh_in h) (snd (chol_solve U b h)))
  /\ (forall U,
        untouched h (fst (chol_inv U h)) /\ on_return (fresh_in h) (snd (chol_inv U h)))
  /\ (forall U,
        untouched h (fst (chol_logdet U h))
        /\ on_return (fresh_in h) (snd (chol_logdet U h)))
  /\ (forall U,
        untouched h (fst (logdet_chol U h))
        /\ on_return (fun r => match r with Some r => fresh_in h r | None => True end)
             (snd (logdet_chol U h)))
  /\ (forall U B kwargs,
        untouched h (fst (m_solve_triangular U B kwargs h))
        /\ on_return (fresh_in h) (snd (m_solve_triangular U B kwargs h)))
  /\ (forall A B,
        untouched h (fst (m_outer A B h)) /\ on_return (fresh_in h) (snd (m_outer A B h)))
  /\ (forall A b,
        untouched h (fst (m_dot A b h)) /\ on_return (fresh_in h) (snd (m_dot A b h))).
Proof.
  split; [intros; apply keeps_call, chol_keeps|].
  split; [intros; apply keeps_call, chol_solve_keeps|].
  split; [intros; apply keeps_call, chol_inv_keeps|].
  split; [intros; apply keeps_call, chol_logdet_keeps|].
  split; [intros; apply keeps_call, logdet_chol_keeps|].
  split; [intros; apply keeps_call, m_solve_triangular_keeps|].
  split; intros; apply keeps_call; [apply m_outer_keeps|apply m_dot_keeps].
Qed.



(** * Further properties of the module *)

(** ** Dispatch on the kind of the argument *)

(** X1: a sparse matrix or factor, or any object that is not an ndarray,
    never reaches the branch written for it.  [chol] on a sparse matrix,
    and [chol_solve], [chol_inv], [chol_logdet] and [logdet_chol] on a
    sparse factor or on any other object, raise [NameError] for [cholmod]
    and leave the store as it was: [chol_inv] never raises its
    [NotImplementedError], none of them raises the [ValueError] for an
    unknown factor type, and [logdet_chol] never returns [None]. *)
Theorem X1_non_dense_argument_name_error {F : Type} {SF : Scalar F} {LF : Log F}
    {UF : Uninit F} {AR : AddReduce F}
    {CF : ChoFactor F} {CS : ChoSolve F} {CM : Cholmod F}
    (h : heap F) (s : spmatrix F) (f : cholmod_factor F) (b : matrix_like F) :
  let e := @Raise aref (NameError "cholmod") in
  chol (MSparse s) h = (h, Raise (NameError "cholmod"))
  /\ chol_solve (FSparse f) b h = (h, e)
  /\ chol_solve FOther b h = (h, e)
  /\ chol_inv (FSparse f) h = (h, e)
  /\ chol_inv FOther h = (h, e)
  /\ chol_logdet (FSparse f) h = (h, e)
  /\ chol_logdet FOther h = (h, e)
  /\ logdet_chol (FSparse f) h = (h, Raise (NameError "cholmod"))
  /\ logdet_chol FOther h = (h, Raise (NameError "cholmod")).
Proof. repeat split. Qed.

(** ** The two log-determinant functions *)

Section LogDetFacts.
Context {F : Type} {SF : Scalar F} {LF : Log F} {AR : AddReduce F}.

Lemma data_0d (s : ndarray F) : shape s = [] -> wf s -> data s = [item s []].
Proof.
  destruct s as [sh d]. unfold wf, item. simpl. intros -> Hl. simpl in *.
  destruct d as [|x [|y d]]; simpl in *; try discriminate. reflexivity.
Qed.

Lemma logdet_chol_raises (U : aref) (h : heap F) (e : exn) :
  einsum_diag (value_of h U) = Raise e ->
  logdet_chol (FDense U) h = (h, Raise e).
Proof.
  intros H. unfold logdet_chol, bind, deref, lift. run_np.
  fold (value_of h U). now rewrite H.
Qed.

End LogDetFacts.

(** X2: on one dense square matrix the two log-determinant functions agree:
    [chol_logdet(U)] and [logdet_chol(U)] return the same scalar and leave
    the same store. *)
Theorem X2_log_determinants_agree {F : Type} {SF : Scalar F} {LF : Log F}
    {AR : AddReduce F} (h : heap F) (U : aref) (n : nat) :
  ashape U = [n; n] ->
  exists h' r,
    chol_logdet (FDense U) h = (h', Ret r)
    /\ logdet_chol (FDense U) h = (h', Ret (Some r)).
Proof.
  intros HU.
  destruct (logdet_value (value_of h U) [] n HU) as (s & Hs & Hsh & Hwf & Hitem).
  eexists _, _. split.
  - apply chol_logdet_run, (chol_logdet_value (value_of h U) n HU).
  - rewrite (logdet_chol_run U h s Hs), Hsh. cbn [shape data int_times].
    rewrite (data_0d s Hsh Hwf), (Hitem [] eq_refl). reflexivity.
Qed.

Lemma X2_log_determinants_agree_witness :
  ashape (mk_ref 1 [2; 2]) = [2; 2]
  /\ exists h' r,
       chol_logdet (FDense (mk_ref 1 [2; 2])) c6w_store = (h', Ret r)
       /\ logdet_chol (FDense (mk_ref 1 [2; 2])) c6w_store = (h', Ret (Some r)).
Proof.
  split; [reflexivity|].
  exact (X2_log_determinants_agree c6w_store (mk_ref 1 [2; 2]) 2 eq_refl).
Defined.

(** X3: the two functions differ on a matrix that is not square.  For one
    dense [n x m] matrix with [n <> m], [logdet_chol] raises [ValueError]
    and leaves the store as it was, while [chol_logdet] returns a scalar:
    twice the sum of the logarithms of the [min(n, m)] entries of the main
    diagonal, the sum being the one [np.sum] returns for these logarithms
    in the order of the diagonal. *)
Theorem X3_log_determinant_not_square {F : Type} {SF : Scalar F} {LF : Log F}
    {AR : AddReduce F} (h : heap F) (U : aref) (n m : nat) :
  n <> m ->
  ashape U = [n; m] ->
  (exists msg, logdet_chol (FDense U) h = (h, Raise (ValueError msg)))
  /\ exists h' r,
       chol_logdet (FDense U) h = (h', Ret r)
       /\ ashape r = []
       /\ item (value_of h' r) []
          = mul (of_int 2)
                (add_reduce
                   (map (fun j => log (item (value_of h U) [j; j]))
                        (seq 0 (Nat.min n m)))).
Proof.
  intros Hnm HU. split.
  - eexists. apply logdet_chol_raises.
    unfold einsum_diag. cbn [value_of shape]. rewrite HU. cbn [rev app].
    destruct (Nat.eqb_spec n m); [contradiction|reflexivity].
  - eexists _, _. split.
    + apply chol_logdet_run. unfold np_diag. cbn [value_of shape]. rewrite HU.
      reflexivity.
    + split; [reflexivity|].
      unfold value_of. cbn [base ashape data shape int_times np_sum np_log tabulate].
      rewrite nth_fresh. unfold item. cbn [shape data ravel nth].
      rewrite ndindex_1d, !map_map. reflexivity.
Qed.

Lemma X3_log_determinant_not_square_witness :
  2 <> 3
  /\ ashape (mk_ref 0 [2; 3]) = [2; 3]
  /\ (exists msg, logdet_chol (FDense (mk_ref 0 [2; 3])) x3_store
                  = (x3_store, Raise (ValueError msg)))
  /\ exists h' r,
       chol_logdet (FDense (mk_ref 0 [2; 3])) x3_store = (h', Ret r)
       /\ item (value_of h' r) [] = (2 * (ln 1 + (ln 5 + 0)))%R.
Proof.
  split; [lia|]. split; [reflexivity|].
  destruct (X3_log_determinant_not_square x3_store (mk_ref 0 [2; 3]) 2 3
              ltac:(lia) eq_refl) as [H1 (h' & r & H2 & _ & H3)].
  split; [exact H1|]. exists h', r. split; [exact H2|exact H3].
Defined.

(** ** Broadcasting, once more *)

Lemma bc_index_app_zip (s1 s2 i1 i2 : list nat) :
  length s1 <= length i1 -> length s2 = length i2 ->
  bc_index (s1 ++ s2) (i1 ++ i2)
  = bc_index s1 i1 ++ zip_with (fun d i => if d =? 1 then 0 else i) s2 i2.
Proof.
  intros Hl Hl2. unfold bc_index. rewrite !length_app.
  replace (length s1 + length s2 - (length i1 + length i2)) with 0 by lia.
  replace (length s1 - length i1) with 0 by lia.
  replace (length i1 + length i2 - (length s1 + length s2))
    with (length i1 - length s1) by lia.
  cbn [repeat app]. rewrite drop_app_le by lia.
  now rewrite zip_with_app by (rewrite length_drop; lia).
Qed.

Lemma broadcast_zip_app (a1 b1 r1 a2 b2 r2 : list nat) :
  length a1 = length b1 ->
  broadcast_zip a1 b1 = Some r1 -> broadcast_zip a2 b2 = Some r2 ->
  broadcast_zip (a1 ++ a2) (b1 ++ b2) = Some (r1 ++ r2).
Proof.
  revert b1 r1. induction a1 as [|a a1 IH]; intros [|b b1] r1 Hl H1 H2;
    simpl in *; try discriminate.
  - now injection H1 as <-.
  - destruct (broadcast_dim a b); [|discriminate].
    destruct (broadcast_zip a1 b1) eqn:E; [|discriminate].
    injection H1 as <-. rewrite (IH b1 l) by (auto; lia). reflexivity.
Qed.

Lemma pad_left_app {A} (n k : nat) (x : A) (s t : list A) :
  k = length t -> pad_left (n + k) x (s ++ t) = pad_left n x s ++ t.
Proof.
  intros ->. unfold pad_left. rewrite length_app, <- app_assoc.
  f_equal. f_equal. lia.
Qed.

Lemma broadcast_shapes_app (s1 s2 sh t1 t2 t : list nat) :
  broadcast_shapes s1 s2 = Some sh ->
  length t1 = length t2 -> broadcast_zip t1 t2 = Some t ->
  broadcast_shapes (s1 ++ t1) (s2 ++ t2) = Some (sh ++ t).
Proof.
  unfold broadcast_shapes. intros Hs Hl Ht. rewrite !length_app, <- Hl.
  rewrite Nat.add_max_distr_r.
  rewrite !pad_left_app by congruence.
  apply broadcast_zip_app; auto. rewrite !length_pad_left by lia. reflexivity.
Qed.

Lemma broadcast_dim_bound (a b d i : nat) :
  broadcast_dim a b = Some d -> i < d ->
  (if a =? 1 then 0 else i) < a /\ (if b =? 1 then 0 else i) < b.
Proof.
  unfold broadcast_dim. intros H Hi.
  destruct (Nat.eqb_spec a b) as [->|].
  - injection H as <-. destruct (Nat.eqb_spec b 1); lia.
  - destruct (Nat.eqb_spec a 1) as [->|].
    + injection H as <-. destruct (Nat.eqb_spec b 1); lia.
    + destruct (Nat.eqb_spec b 1) as [->|]; [|discriminate].
      injection H as <-. lia.
Qed.

Lemma broadcast_zip_in_bounds (pa pb sh idx : list nat) :
  length pa = length pb ->
  broadcast_zip pa pb = Some sh -> in_bounds sh idx = true ->
  in_bounds pa (zip_with (fun d i => if d =? 1 then 0 else i) pa idx) = true
  /\ in_bounds pb (zip_with (fun d i => if d =? 1 then 0 else i) pb idx) = true.
Proof.
  revert pb sh idx. induction pa as [|a pa IH]; intros [|b pb] sh idx Hl H Hb;
    simpl in *; try discriminate.
  - injection H as <-. destruct idx; [auto|discriminate].
  - destruct (broadcast_dim a b) as [d|] eqn:Ed; [|discriminate].
    destruct (broadcast_zip pa pb) as [r|] eqn:E; [|discriminate].
    injection H as <-. destruct idx as [|i idx]; [discriminate|]. simpl in *.
    apply andb_true_iff in Hb as [Hi Hb]. apply Nat.ltb_lt in Hi.
    destruct (broadcast_dim_bound a b d i Ed Hi) as [Ha Hb'].
    destruct (IH pb r idx) as [IH1 IH2]; [lia|exact E|exact Hb|].
    rewrite IH1, IH2.
    apply Nat.ltb_lt in Ha. apply Nat.ltb_lt in Hb'. now rewrite Ha, Hb'.
Qed.

Lemma in_bounds_drop_ones (k : nat) (sa idx : list nat) :
  length idx = k + length sa ->
  in_bounds (repeat 1 k ++ sa)
    (zip_with (fun d i => if d =? 1 then 0 else i) (repeat 1 k ++ sa) idx) = true ->
  in_bounds sa (bc_index sa idx) = true.
Proof.
  intros Hl H. unfold bc_index.
  replace (length sa - length idx) with 0 by lia.
  replace (length idx - length sa) with k by lia. cbn [repeat app].
  rewrite <- (take_drop k idx) in H at 1.
  rewrite zip_with_app in H by (rewrite repeat_length, length_take; lia).
  apply in_bounds_app_inv in H as [_ H]; [exact H|].
  rewrite length_zip_with, !repeat_length, length_take. lia.
Qed.

(** Reading an operand at a result index stays inside the operand. *)
Lemma bc_index_in_bounds (sa sb sh idx : list nat) :
  broadcast_shapes sa sb = Some sh -> in_bounds sh idx = true ->
  in_bounds sa (bc_index sa idx) = true /\ in_bounds sb (bc_index sb idx) = true.
Proof.
  intros Hs Hb.
  pose proof (broadcast_shapes_length _ _ _ Hs) as Hlen.
  pose proof (in_bounds_length _ _ Hb) as Hli.
  unfold broadcast_shapes, pad_left in Hs.
  assert (Hpad : length (repeat 1 (Nat.max (length sa) (length sb) - length sa) ++ sa)
                 = length (repeat 1 (Nat.max (length sa) (length sb) - length sb) ++ sb))
    by (rewrite !length_app, !repeat_length; lia).
  destruct (broadcast_zip_in_bounds _ _ sh idx Hpad Hs Hb) as [H1 H2].
  split; eapply in_bounds_drop_ones; try eassumption; lia.
Qed.

Lemma broadcast_zip_refl (sh : list nat) : broadcast_zip sh sh = Some sh.
Proof.
  induction sh as [|d sh IH]; simpl; [reflexivity|].
  unfold broadcast_dim. now rewrite Nat.eqb_refl, IH.
Qed.

Lemma broadcast_shapes_refl (sh : list nat) : broadcast_shapes sh sh = Some sh.
Proof.
  unfold broadcast_shapes, pad_left. rewrite Nat.max_id, Nat.sub_diag. simpl.
  apply broadcast_zip_refl.
Qed.

(** ** [m_outer] *)

Lemma select_full_prefix (s1 s2 : list nat) (rest : list index_item) :
  select (s1 ++ s2) (repeat IFull (length s1) ++ rest)
  = obind (select s2 rest) (fun s => Ret (map SAll s1 ++ s)).
Proof.
  induction s1 as [|d s1 IH]; simpl.
  - now destruct (select s2 rest).
  - rewrite IH. now destruct (select s2 rest).
Qed.

Lemma sel_shape_all_prefix (s1 : list nat) (tl : list sel) :
  sel_shape (map SAll s1 ++ tl) = s1 ++ sel_shape tl.
Proof. induction s1; simpl; [reflexivity|]. now f_equal. Qed.

Lemma sel_source_all_prefix (s1 i1 : list nat) (tl : list sel) (o : list nat) :
  length i1 = length s1 ->
  sel_source (map SAll s1 ++ tl) (i1 ++ o) = i1 ++ sel_source tl o.
Proof.
  revert i1. induction s1 as [|d s1 IH]; intros [|x i1] H; simpl in *;
    try discriminate; [reflexivity|]. f_equal. apply IH. lia.
Qed.

Lemma broadcast_dim_1_r (n : nat) : broadcast_dim n 1 = Some n.
Proof. unfold broadcast_dim. destruct (Nat.eqb_spec n 1); [now subst|reflexivity]. Qed.

Lemma broadcast_dim_1_l (m : nat) : broadcast_dim 1 m = Some m.
Proof.
  unfold broadcast_dim. destruct (Nat.eqb_spec 1 m) as [<-|]; reflexivity.
Qed.

Section OuterFacts.
Context {F : Type} {SF : Scalar F}.

(** [a[..., np.newaxis]]: one more axis of size 1 at the end. *)
Lemma getitem_newaxis_last (a : ndarray F) :
  exists a',
    getitem a [IEllipsis; INewaxis] = Ret a'
    /\ shape a' = shape a ++ [1]
    /\ forall idx, in_bounds (shape a) idx = true -> item a' (idx ++ [0]) = item a idx.
Proof.
  unfold getitem, selection. cbn [count_if List.filter is_ellipsis consumes length].
  cbn [Nat.ltb Nat.leb]. rewrite Nat.sub_0_r. cbn [expand_ellipsis].
  pose proof (select_full_prefix (shape a) [] [INewaxis]) as E.
  rewrite app_nil_r in E. rewrite E. clear E. cbn [select obind].
  eexists. split; [reflexivity|]. cbn [shape tabulate].
  rewrite sel_shape_all_prefix. split; [reflexivity|].
  intros idx Hb. rewrite item_tabulate.
  - rewrite sel_source_all_prefix by now apply in_bounds_length.
    cbn [sel_source]. now rewrite app_nil_r.
  - now apply in_bounds_app.
Qed.

(** [b[..., np.newaxis, :]]: an axis of size 1 before the last one. *)
Lemma getitem_newaxis_before_last (b : ndarray F) (bB : list nat) (m : nat) :
  shape b = bB ++ [m] ->
  exists b',
    getitem b [IEllipsis; INewaxis; IFull] = Ret b'
    /\ shape b' = bB ++ [1; m]
    /\ forall idx j, in_bounds bB idx = true -> j < m ->
         item b' (idx ++ [0; j]) = item b (idx ++ [j]).
Proof.
  intros Hs. unfold getitem, selection. rewrite Hs.
  cbn [count_if List.filter is_ellipsis consumes length]. rewrite length_app.
  cbn [length Nat.ltb Nat.leb].
  destruct (Nat.leb_spec (length bB + 1) 0); [lia|].
  replace (length bB + 1 - 1) with (length bB) by lia. cbn [expand_ellipsis].
  rewrite select_full_prefix. cbn [select obind].
  eexists. split; [reflexivity|]. cbn [shape tabulate].
  rewrite sel_shape_all_prefix. split; [reflexivity|].
  intros idx j Hb Hj. rewrite item_tabulate.
  - rewrite sel_source_all_prefix by now apply in_bounds_length. reflexivity.
  - apply in_bounds_app; [exact Hb|]. simpl.
    destruct (Nat.ltb_spec j m); [reflexivity|lia].
Qed.

(** The value [m_outer] computes. *)
Lemma m_outer_value (Av Bv : ndarray F) (bA bB sh : list nat) (n m : nat) :
  shape Av = bA ++ [n] -> shape Bv = bB ++ [m] ->
  broadcast_shapes bA bB = Some sh ->
  exists r,
    obind (getitem Av [IEllipsis; INewaxis]) (fun a' =>
    obind (getitem Bv [IEllipsis; INewaxis; IFull]) (fun b' => np_multiply a' b'))
    = Ret r
    /\ shape r = sh ++ [n; m]
    /\ forall idx i j, in_bounds sh idx = true -> i < n -> j < m ->
         item r (idx ++ [i; j])
         = mul (item Av (bc_index bA idx ++ [i])) (item Bv (bc_index bB idx ++ [j])).
Proof.
  intros HA HB Hsh.
  destruct (getitem_newaxis_last Av) as (a' & Ea & Sa & Ia).
  destruct (getitem_newaxis_before_last Bv bB m HB) as (b' & Eb & Sb & Ib).
  rewrite Ea, Eb. cbn [obind]. unfold np_multiply.
  rewrite Sa, Sb, HA, <- app_assoc. cbn [app].
  rewrite (broadcast_shapes_app bA bB sh [n; 1] [1; m] [n; m] Hsh eq_refl)
    by (simpl; now rewrite broadcast_dim_1_r, broadcast_dim_1_l).
  eexists. split; [reflexivity|]. split; [reflexivity|].
  intros idx i j Hidx Hi Hj.
  pose proof (broadcast_shapes_length _ _ _ Hsh) as Hlen.
  pose proof (in_bounds_length _ _ Hidx) as Hli.
  destruct (bc_index_in_bounds _ _ _ _ Hsh Hidx) as [HbA HbB].
  rewrite item_tabulate.
  2:{ apply in_bounds_app; [exact Hidx|]. simpl.
      destruct (Nat.ltb_spec i n), (Nat.ltb_spec j m); try reflexivity; lia. }
  rewrite !bc_index_app_zip by (simpl; lia). cbn [zip_with].
  rewrite Nat.eqb_refl.
  replace (if n =? 1 then 0 else i) with i by (destruct (Nat.eqb_spec n 1); lia).
  replace (if m =? 1 then 0 else j) with j by (destruct (Nat.eqb_spec m 1); lia).
  rewrite (Ib _ j HbB Hj).
  change (bc_index bA idx ++ [i; 0]) with (bc_index bA idx ++ [i] ++ [0]).
  rewrite app_assoc, Ia; [reflexivity|].
  rewrite HA. apply in_bounds_app; [exact HbA|]. simpl.
  destruct (Nat.ltb_spec i n); [reflexivity|lia].
Qed.

Lemma m_outer_run (A B : aref) (h : heap F) (r : ndarray F) :
  obind (getitem (value_of h A) [IEllipsis; INewaxis]) (fun a' =>
  obind (getitem (value_of h B) [IEllipsis; INewaxis; IFull]) (fun b' =>
  np_multiply a' b')) = Ret r ->
  m_outer A B h = (h ++ [data r], Ret (mk_ref (length h) (shape r))).
Proof.
  intros H. unfold m_outer, bind, deref, lift, alloc. run_np.
  fold (value_of h A).
  destruct (getitem (value_of h A) [IEllipsis; INewaxis]) as [a'|e]; [|discriminate].
  cbn [obind] in H. run_np. fold (value_of h B).
  destruct (getitem (value_of h B) [IEllipsis; INewaxis; IFull]) as [b'|e];
    [|discriminate].
  cbn [obind] in H. now rewrite H.
Qed.

End OuterFacts.

(** X4: for [A] with trailing axis n and [B] with trailing axis m whose
    batch shapes [bA] and [bB] broadcast to [sh], [m_outer(A, B)] returns a
    new array of shape [sh ++ [n; m]] with
    [result[idx, i, j] = A[idx, i] * B[idx, j]], each operand read at [idx]
    as broadcasting prescribes; the store it started from is unchanged. *)
Theorem X4_m_outer_product {F : Type} {SF : Scalar F}
    (h : heap F) (A B : aref) (bA bB sh : list nat) (n m : nat) :
  ashape A = bA ++ [n] ->
  ashape B = bB ++ [m] ->
  broadcast_shapes bA bB = Some sh ->
  exists h' r,
    m_outer A B h = (h', Ret r)
    /\ untouched h h'
    /\ ashape r = sh ++ [n; m]
    /\ forall idx i j, in_bounds sh idx = true -> i < n -> j < m ->
         item (value_of h' r) (idx ++ [i; j])
         = mul (item (value_of h A) (bc_index bA idx ++ [i]))
               (item (value_of h B) (bc_index bB idx ++ [j])).
Proof.
  intros HA HB Hsh.
  destruct (m_outer_value (value_of h A) (value_of h B) bA bB sh n m HA HB Hsh)
    as (r & Hr & Hshape & Hitem).
  eexists _, _. split; [apply (m_outer_run A B h r Hr)|].
  split; [eexists; reflexivity|]. split; [exact Hshape|].
  intros idx i j Hidx Hi Hj. rewrite item_value_fresh. now apply Hitem.
Qed.

Lemma X4_m_outer_product_witness :
  ashape (mk_ref 0 [4; 3]) = [4] ++ [3]
  /\ ashape (mk_ref 1 [4; 2]) = [4] ++ [2]
  /\ broadcast_shapes [4] [4] = Some [4]
  /\ exists h' r,
       m_outer (mk_ref 0 [4; 3]) (mk_ref 1 [4; 2]) x4_store = (h', Ret r)
       /\ ashape r = [4; 3; 2]
       /\ forall k i j, k < 4 -> i < 3 -> j < 2 ->
            item (value_of h' r) [k; i; j]
            = mul (item (value_of x4_store (mk_ref 0 [4; 3])) [k; i])
                  (item (value_of x4_store (mk_ref 1 [4; 2])) [k; j]).
Proof.
  split; [reflexivity|]. split; [reflexivity|]. split; [reflexivity|].
  destruct (X4_m_outer_product x4_store (mk_ref 0 [4; 3]) (mk_ref 1 [4; 2])
              [4] [4] [4] 3 2 eq_refl eq_refl eq_refl)
    as (h' & r & H1 & _ & H2 & H3).
  exists h', r. split; [exact H1|]. split; [exact H2|].
  intros k i j Hk Hi Hj. apply (H3 [k] i j); [|exact Hi|exact Hj].
  simpl. destruct (Nat.ltb_spec k 4); [reflexivity|lia].
Defined.

(** ** Shapes that [m_outer] and [m_dot] reject *)

Lemma broadcast_zip_app_none (a1 b1 a2 b2 : list nat) :
  length a1 = length b1 -> broadcast_zip a1 b1 = None ->
  broadcast_zip (a1 ++ a2) (b1 ++ b2) = None.
Proof.
  revert b1. induction a1 as [|a a1 IH]; intros [|b b1] Hl H; simpl in *;
    try discriminate.
  destruct (broadcast_dim a b); [|reflexivity].
  destruct (broadcast_zip a1 b1) eqn:E; [discriminate|].
  rewrite (IH b1) by (auto; lia). reflexivity.
Qed.

Lemma broadcast_shapes_app_none (s1 s2 t1 t2 : list nat) :
  broadcast_shapes s1 s2 = None -> length t1 = length t2 ->
  broadcast_shapes (s1 ++ t1) (s2 ++ t2) = None.
Proof.
  unfold broadcast_shapes. intros Hs Hl. rewrite !length_app, <- Hl.
  rewrite Nat.add_max_distr_r.
  rewrite !pad_left_app by congruence.
  apply broadcast_zip_app_none; auto. rewrite !length_pad_left by lia. reflexivity.
Qed.

Lemma broadcast_dim_none (a b : nat) :
  a <> b -> a <> 1 -> b <> 1 -> broadcast_dim a b = None.
Proof.
  intros H1 H2 H3. unfold broadcast_dim.
  destruct (Nat.eqb_spec a b); [contradiction|].
  destruct (Nat.eqb_spec a 1); [contradiction|].
  destruct (Nat.eqb_spec b 1); [contradiction|reflexivity].
Qed.

(** X5: when the batch shapes of [A] (all axes but the last) and of [B] do
    not broadcast, [m_outer(A, B)] raises [ValueError]; nothing is
    allocated and the store is as it was. *)
Theorem X5_m_outer_broadcast_error {F : Type} {SF : Scalar F}
    (h : heap F) (A B : aref) (bA bB : list nat) (n m : nat) :
  ashape A = bA ++ [n] ->
  ashape B = bB ++ [m] ->
  broadcast_shapes bA bB = None ->
  exists msg, m_outer A B h = (h, Raise (ValueError msg)).
Proof.
  intros HA HB Hsh. unfold m_outer, bind, deref, lift, alloc. run_np.
  fold (value_of h A).
  destruct (getitem_newaxis_last (value_of h A)) as (a' & Ea & Sa & _).
  rewrite Ea. run_np. fold (value_of h B).
  destruct (getitem_newaxis_before_last (value_of h B) bB m HB) as (b' & Eb & Sb & _).
  rewrite Eb. unfold np_multiply. rewrite Sa, Sb. cbn [value_of shape].
  rewrite HA, <- app_assoc. cbn [app].
  rewrite (broadcast_shapes_app_none bA bB [n; 1] [1; m] Hsh eq_refl).
  eexists. reflexivity.
Qed.

Lemma X5_m_outer_broadcast_error_witness :
  exists msg,
    m_outer (mk_ref 0 [4; 3]) (mk_ref 1 [3; 2])
      ([[1; 2; 3; 4; 5; 6; 7; 8; 9; 10; 11; 12]; [1; 2; 3; 4; 5; 6]]%float)
    = ([[1; 2; 3; 4; 5; 6; 7; 8; 9; 10; 11; 12]; [1; 2; 3; 4; 5; 6]]%float,
       Raise (ValueError msg)).
Proof.
  apply (X5_m_outer_broadcast_error _ (mk_ref 0 [4; 3]) (mk_ref 1 [3; 2])
           [4] [3] 3 2); reflexivity.
Defined.

Lemma broadcast_zip_ones (s : list nat) :
  broadcast_zip (repeat 1 (length s)) s = Some s.
Proof.
  induction s as [|d s IH]; simpl; [reflexivity|].
  now rewrite broadcast_dim_1_l, IH.
Qed.

Lemma broadcast_shapes_one (s : list nat) (d : nat) :
  broadcast_shapes [1] (s ++ [d]) = Some (s ++ [d]).
Proof.
  unfold broadcast_shapes, pad_left. rewrite length_app. cbn [length].
  replace (Nat.max 1 (length s + 1)) with (length s + 1) by lia.
  rewrite Nat.sub_diag. cbn [repeat app].
  replace (repeat 1 (length s + 1 - 1) ++ [1]) with (repeat 1 (length (s ++ [d]))).
  - apply broadcast_zip_ones.
  - rewrite length_app. cbn [length].
    replace (length s + 1 - 1) with (length s) by lia.
    now rewrite repeat_app.
Qed.

Lemma bc_index_one (idx : list nat) (j : nat) : bc_index [1] (idx ++ [j]) = [0].
Proof.
  unfold bc_index. rewrite length_app. cbn [length].
  replace (1 - (length idx + 1)) with 0 by lia.
  replace (length idx + 1 - 1) with (length idx) by lia.
  now rewrite drop_app_length.
Qed.

(** X6: a 0-dimensional array is accepted by [m_outer] as its first
    argument, where it counts as a vector of length 1, and rejected as its
    second: for a scalar [S] and an array [V] with batch shape [bV] and
    trailing axis m, [m_outer(S, V)] has shape [bV ++ [1; m]] and entries
    [S * V[idx, j]], while [m_outer(V, S)] raises [IndexError] (the index
    [..., np.newaxis, :] names an axis that [S] does not have) and leaves
    the store as it was. *)
Theorem X6_m_outer_scalar_operand {F : Type} {SF : Scalar F}
    (h : heap F) (S V : aref) (bV : list nat) (m : nat) :
  ashape S = [] ->
  ashape V = bV ++ [m] ->
  (exists msg, m_outer V S h = (h, Raise (IndexError msg)))
  /\ exists h' r,
       m_outer S V h = (h', Ret r)
       /\ ashape r = bV ++ [1; m]
       /\ forall idx j, in_bounds bV idx = true -> j < m ->
            item (value_of h' r) (idx ++ [0; j])
            = mul (item (value_of h S) []) (item (value_of h V) (idx ++ [j])).
Proof.
  intros HS HV. split.
  - unfold m_outer, bind, deref, lift, alloc. run_np.
    fold (value_of h V).
    destruct (getitem_newaxis_last (value_of h V)) as (a' & Ea & _).
    rewrite Ea. run_np. unfold getitem, selection. cbn [shape]. rewrite HS.
    eexists. reflexivity.
  - destruct (getitem_newaxis_last (value_of h S)) as (a' & Ea & Sa & Ia).
    destruct (getitem_newaxis_before_last (value_of h V) bV m HV)
      as (b' & Eb & Sb & Ib).
    cbn [value_of shape] in Sa. rewrite HS in Sa. cbn [app] in Sa.
    assert (Hr : obind (getitem (value_of h S) [IEllipsis; INewaxis]) (fun a' =>
                 obind (getitem (value_of h V) [IEllipsis; INewaxis; IFull]) (fun b' =>
                 np_multiply a' b'))
                 = Ret (tabulate (bV ++ [1; m])
                          (fun idx => mul (item a' (bc_index [1] idx))
                                          (item b' (bc_index (bV ++ [1; m]) idx))))).
    { rewrite Ea, Eb. cbn [obind]. unfold np_multiply. rewrite Sa, Sb.
      change (bV ++ [1; m]) with (bV ++ [1] ++ [m]).
      now rewrite app_assoc, broadcast_shapes_one. }
    eexists _, _. split; [apply (m_outer_run S V h _ Hr)|].
    split; [reflexivity|]. intros idx j Hidx Hj.
    assert (Hb : in_bounds (bV ++ [1; m]) (idx ++ [0; j]) = true).
    { apply in_bounds_app; [exact Hidx|]. simpl.
      destruct (Nat.ltb_spec j m); [reflexivity|lia]. }
    rewrite item_value_fresh, item_tabulate by exact Hb.
    rewrite (bc_index_id _ _ Hb), (Ib idx j Hidx Hj).
    change (idx ++ [0; j]) with (idx ++ [0] ++ [j]).
    rewrite app_assoc, bc_index_one.
    f_equal. apply (Ia []). cbn [value_of shape]. now rewrite HS.
Qed.

Lemma X6_m_outer_scalar_operand_witness :
  (exists msg,
     m_outer (mk_ref 1 [2; 3]) (mk_ref 0 []) ([[2]; [1; 2; 3; 4; 5; 6]]%float)
     = ([[2]; [1; 2; 3; 4; 5; 6]]%float, Raise (IndexError msg)))
  /\ exists h' r,
       m_outer (mk_ref 0 []) (mk_ref 1 [2; 3]) ([[2]; [1; 2; 3; 4; 5; 6]]%float)
       = (h', Ret r)
       /\ ashape r = [2; 1; 3].
Proof.
  destruct (X6_m_outer_scalar_operand ([[2]; [1; 2; 3; 4; 5; 6]]%float)
              (mk_ref 0 []) (mk_ref 1 [2; 3]) [2] 3 eq_refl eq_refl)
    as [H1 (h' & r & H2 & H3 & _)].
  split; [exact H1|]. exists h', r. split; [exact H2|exact H3].
Defined.

(** X7: [m_dot(A, b)] raises [ValueError], allocating nothing, when the
    contracted axes disagree (the last axis of [A] and the last axis of [b]
    differ and neither has size 1) or when the batch shapes do not
    broadcast. *)
Theorem X7_m_dot_shape_error {F : Type} {SF : Scalar F} {SP : SumOfProducts F}
    (h : heap F) (A b : aref) (bA bb : list nat) (m k k' : nat) :
  ashape A = bA ++ [m; k] ->
  ashape b = bb ++ [k'] ->
  (k <> k' /\ k <> 1 /\ k' <> 1) \/ broadcast_shapes bA bb = None ->
  exists msg, m_dot A b h = (h, Raise (ValueError msg)).
Proof.
  intros HA Hb Hbad. unfold m_dot, bind, deref, lift, alloc. run_np.
  unfold einsum_matvec. cbn [shape]. rewrite HA, Hb, !rev_app_distr. cbn [rev app].
  rewrite drop_last_2, drop_last_1.
  destruct Hbad as [(H1 & H2 & H3)|Hsh].
  - rewrite (broadcast_dim_none k k' H1 H2 H3). eexists. reflexivity.
  - rewrite Hsh. destruct (broadcast_dim k k'); eexists; reflexivity.
Qed.

Lemma X7_m_dot_shape_error_witness :
  exists msg,
    m_dot (mk_ref 0 [2; 3]) (mk_ref 1 [2]) ([[1; 2; 3; 4; 5; 6]; [1; 2]]%Z)
    = ([[1; 2; 3; 4; 5; 6]; [1; 2]]%Z, Raise (ValueError msg)).
Proof.
  apply (X7_m_dot_shape_error _ (mk_ref 0 [2; 3]) (mk_ref 1 [2]) [] [] 2 3 2);
    [reflexivity|reflexivity|left; lia].
Defined.

(** X8: [m_dot] needs a matrix and a vector: with an [A] of fewer than two
    axes, or a 0-dimensional [b], it raises [ValueError] and the store is
    as it was. *)
Theorem X8_m_dot_too_few_axes {F : Type} {SF : Scalar F} {SP : SumOfProducts F}
    (h : heap F) (A b : aref) :
  length (ashape A) < 2 \/ ashape b = [] ->
  exists msg, m_dot A b h = (h, Raise (ValueError msg)).
Proof.
  intros Hbad. unfold m_dot, bind, deref, lift, alloc. run_np.
  unfold einsum_matvec. cbn [shape].
  destruct Hbad as [HA|Hb].
  - destruct (rev (ashape A)) as [|x [|y l]] eqn:E.
    + eexists. reflexivity.
    + eexists. reflexivity.
    + apply (f_equal (@length nat)) in E. rewrite length_rev in E. simpl in E. lia.
  - rewrite Hb. cbn [rev]. destruct (rev (ashape A)) as [|x [|y l]]; eexists; reflexivity.
Qed.

Lemma X8_m_dot_too_few_axes_witness :
  exists msg,
    m_dot (mk_ref 0 [3]) (mk_ref 1 [3]) ([[1; 2; 3]; [4; 5; 6]]%Z)
    = ([[1; 2; 3]; [4; 5; 6]]%Z, Raise (ValueError msg)).
Proof.
  apply (X8_m_dot_too_few_axes _ (mk_ref 0 [3]) (mk_ref 1 [3])). left. simpl. lia.
Defined.

(** ** [m_dot] after [m_outer] *)

Lemma value_of_fresh {F} (h : heap F) (r : ndarray F) :
  value_of (h ++ [data r]) (mk_ref (length h) (shape r)) = r.
Proof. unfold value_of. cbn [base ashape]. rewrite nth_fresh. now destruct r. Qed.

Lemma value_of_kept {F} (h : heap F) (x : list F) (c : aref) :
  base c < length h -> value_of (h ++ [x]) c = value_of h c.
Proof. intros H. unfold value_of. now rewrite nth_old. Qed.

(** X9: applying the outer product of [A] and [B] to a vector [c] that is
    already in the store, [m_dot(m_outer(A, B), c)], returns, for batch
    shapes that broadcast in the sense of section 4.1 of the
    specification, the array of shape [sh2 ++ [n]] whose element at
    [idx, i] is what [np.einsum] makes of the m products
    [(A[idx, i] * B[idx, k]) * c[idx, k]]: its sum-of-products kernel
    applied to the run of the [A[idx, i] * B[idx, k]] and to the vector of
    [c] at [idx].  Which additions NumPy performs is not fixed here; the
    buffers that existed before are unchanged. *)
Theorem X9_m_dot_of_m_outer {F : Type} {SF : Scalar F} {SP : SumOfProducts F}
    (h : heap F) (A B c : aref) (bA bB bc sh sh2 : list nat) (n m : nat) :
  ashape A = bA ++ [n] ->
  ashape B = bB ++ [m] ->
  ashape c = bc ++ [m] ->
  base c < length h ->
  spec_broadcast bA bB = Some sh ->
  spec_broadcast sh bc = Some sh2 ->
  exists h' r,
    bind (m_outer A B) (fun R => m_dot R c) h = (h', Ret r)
    /\ untouched h h'
    /\ ashape r = sh2 ++ [n]
    /\ forall idx i, in_bounds sh2 idx = true -> i < n ->
         item (value_of h' r) (idx ++ [i])
         = sum_of_products
             (map (fun k =>
                     mul (item (value_of h A)
                            (spec_operand_index bA (spec_operand_index sh idx) ++ [i]))
                         (item (value_of h B)
                            (spec_operand_index bB (spec_operand_index sh idx) ++ [k])))
                  (seq 0 m))
             (map (fun k => item (value_of h c) (spec_operand_index bc idx ++ [k]))
                  (seq 0 m)).
Proof.
  intros HA HB Hc Hold Hsh Hsh2. rewrite spec_broadcast_eq in Hsh, Hsh2.
  destruct (m_outer_value (value_of h A) (value_of h B) bA bB sh n m HA HB Hsh)
    as (R & HR & SR & IR).
  pose proof (m_outer_run A B h R HR) as Hrun1.
  set (h1 := h ++ [data R]) in *.
  set (Rr := mk_ref (length h) (shape R)) in *.
  assert (HRv : value_of h1 Rr = R) by apply value_of_fresh.
  assert (Hcv : value_of h1 c = value_of h c) by now apply value_of_kept.
  destruct (einsum_matvec_value (value_of h1 Rr) (value_of h1 c) sh bc sh2 n m)
    as (r & Hr & Sr & Ir); [now rewrite HRv|now rewrite Hcv|exact Hsh2|].
  pose proof (m_dot_run Rr c h1 r Hr) as Hrun2.
  exists (h1 ++ [data r]), (mk_ref (length h1) (shape r)).
  split; [unfold bind; now rewrite Hrun1|].
  split; [exists [data R; data r]; unfold h1; now rewrite <- app_assoc|].
  split; [exact Sr|].
  intros idx i Hidx Hi. rewrite item_value_fresh, (Ir idx i Hidx Hi).
  destruct (bc_index_in_bounds _ _ _ _ Hsh2 Hidx) as [Hb _].
  pose proof (in_bounds_length _ _ Hidx) as L1.
  pose proof (in_bounds_length _ _ Hb) as L2.
  pose proof (broadcast_shapes_length _ _ _ Hsh) as L3.
  pose proof (broadcast_shapes_length _ _ _ Hsh2) as L4.
  rewrite (spec_operand_index_eq sh idx), (spec_operand_index_eq bc idx) by lia.
  rewrite (spec_operand_index_eq bA), (spec_operand_index_eq bB) by lia.
  rewrite HRv, Hcv. f_equal. apply map_seq_ext. intros k Hk. now apply IR.
Qed.

(** X9 on 64-bit integers: [A = [[1, 2], [3, 4]]],
    [B = [[1, 10, 100], [2, 20, 200]]], [c = [[1, 1, 1], [2, 2, 2]]]. *)
Lemma X9_m_dot_of_m_outer_witness :
  bind (m_outer (mk_ref 0 [2; 2]) (mk_ref 1 [2; 3]))
       (fun R => m_dot R (mk_ref 2 [2; 3])) x9_store
  = (x9_store ++ [[1; 10; 100; 2; 20; 200; 6; 60; 600; 8; 80; 800];
                  [111; 222; 1332; 1776]]%Z,
     Ret (mk_ref 4 [2; 2]))
  /\ exists h' r,
       bind (m_outer (mk_ref 0 [2; 2]) (mk_ref 1 [2; 3]))
            (fun R => m_dot R (mk_ref 2 [2; 3])) x9_store = (h', Ret r)
       /\ untouched x9_store h'
       /\ ashape r = [2; 2].
Proof.
  split; [vm_compute; reflexivity|].
  destruct (X9_m_dot_of_m_outer x9_store (mk_ref 0 [2; 2]) (mk_ref 1 [2; 3])
              (mk_ref 2 [2; 3]) [2] [2] [2] [2] [2] 2 3)
    as (h' & r & H1 & H2 & H3 & _);
    [reflexivity|reflexivity|reflexivity|simpl; lia|reflexivity|reflexivity|].
  exists h', r. split; [exact H1|]. split; [exact H2|exact H3].
Defined.

(** ** [chol_inv]: the inversion loop *)

Lemma NoDup_ndindex (sh : list nat) : List.NoDup (ndindex sh).
Proof.
  apply NoDup_map_inv with (f := ravel sh). rewrite map_ravel_ndindex. apply seq_NoDup.
Qed.

Lemma zip_mul_ones (s : list nat) : zip_with Nat.mul s (repeat 1 (length s)) = s.
Proof.
  induction s as [|d s IH]; simpl; [reflexivity|]. rewrite IH. f_equal. lia.
Qed.

Lemma zip_mod_ones (i : list nat) (k : nat) :
  length i = k -> zip_with Nat.modulo i (repeat 1 k) = repeat 0 k.
Proof.
  intros <-. induction i as [|x i IH]; [reflexivity|].
  cbn [length repeat zip_with]. now rewrite IH, Nat.mod_1_r.
Qed.

Lemma ravel_ones (k : nat) (sh idx : list nat) :
  ravel (repeat 1 k ++ sh) (repeat 0 k ++ idx) = ravel sh idx.
Proof. induction k as [|k IH]; simpl; [reflexivity|exact IH]. Qed.

Section TileFacts.
Context {F : Type} {SF : Scalar F}.

Lemma shape_tile_identity (batch : list nat) (n : nat) :
  shape (np_tile (np_identity n) (batch ++ [1; 1])) = batch ++ [n; n].
Proof.
  unfold np_tile, np_identity, tabulate, pad_left. cbn [shape length].
  rewrite length_app. cbn [length].
  replace (Nat.max (length batch + 2) 2) with (length batch + 2) by lia.
  rewrite Nat.sub_diag. cbn [repeat app].
  replace (length batch + 2 - 2) with (length batch) by lia.
  rewrite zip_with_app by now rewrite repeat_length.
  rewrite zip_mul_ones. cbn [zip_with]. now rewrite !Nat.mul_1_l.
Qed.

Lemma item_tile_identity (batch : list nat) (n : nat) (i o : list nat) :
  in_bounds batch i = true -> in_bounds [n; n] o = true ->
  item (np_tile (np_identity n) (batch ++ [1; 1])) (i ++ o) = item (np_identity n) o.
Proof.
  intros Hi Ho. pose proof (shape_tile_identity batch n) as Hs.
  pose proof (in_bounds_length _ _ Hi) as Hl.
  unfold np_tile in *. cbn [shape tabulate] in Hs.
  rewrite Hs, item_tabulate by now apply in_bounds_app.
  unfold pad_left. cbn [shape np_identity tabulate length].
  rewrite length_app. cbn [length].
  replace (Nat.max (length batch + 2) 2) with (length batch + 2) by lia.
  replace (length batch + 2 - 2) with (length batch) by lia.
  rewrite zip_with_app by (rewrite repeat_length; exact Hl).
  rewrite zip_mod_ones by exact Hl.
  pose proof (in_bounds_length _ _ Ho) as Hlo.
  destruct o as [|a [|b [|c o]]]; try discriminate. simpl in Ho.
  apply andb_true_iff in Ho as [Ha Hb]. apply andb_true_iff in Hb as [Hb _].
  apply Nat.ltb_lt in Ha. apply Nat.ltb_lt in Hb.
  cbn [zip_with]. rewrite !Nat.mod_small by assumption.
  unfold item. cbn [shape data]. now rewrite ravel_ones.
Qed.

(** What a callee that may overwrite [a[i]] leaves of [a]: the shape, and
    every other slice. *)
Lemma overwritten_ints (a v : ndarray F) (sh tl i : list nat) :
  shape a = sh ++ tl -> in_bounds sh i = true ->
  shape (overwritten a (ints i) v) = shape a
  /\ forall j o, in_bounds sh j = true -> in_bounds tl o = true -> j <> i ->
       item (overwritten a (ints i) v) (j ++ o) = item a (j ++ o).
Proof.
  intros Hs Hi. unfold overwritten, setitem.
  rewrite Hs, selection_ints by exact Hi. cbn [obind].
  destruct (assignable (shape v) (sel_shape (map SFix i ++ map SAll tl)));
    [|split; [now rewrite Hs|reflexivity]].
  split; [reflexivity|]. intros j o Hj Ho Hne.
  rewrite item_tabulate by now apply in_bounds_app.
  rewrite sel_member_ints_other; [reflexivity| |exact Hne].
  apply in_bounds_length in Hj. apply in_bounds_length in Hi. congruence.
Qed.

End TileFacts.

Section InverseFacts.
Context {F : Type} {SF : Scalar F} {CS : ChoSolve F}.

Lemma chol_inv_dense_unfold (U : aref) (h : heap F) (n : nat) :
  py_getitem (ashape U) (-1) = Ret n ->
  let V0 := np_tile (np_identity n) (drop_last 2 (ashape U) ++ [1; 1]) in
  let V := mk_ref (length h) (shape V0) in
  chol_inv (FDense U) h
  = (for_ (nested_iterator (drop_last 2 (ashape U))) (chol_inv_body U V) ;; ret V)
      (h ++ [data V0]).
Proof.
  intros Hn. unfold chol_inv, bind at 1 2 3. run_np.
  unfold lift at 1. rewrite Hn. reflexivity.
Qed.

Section Loop.
Variables (h : heap F) (U V : aref) (batch : list nat) (k n : nat).
Hypothesis HU : base U < length h.
Hypothesis HsU : ashape U = batch ++ [k; n].
Hypothesis HV : V = mk_ref (length h) (batch ++ [n; n]).

Let arr (buf : list F) : ndarray F := mk_nd (batch ++ [n; n]) buf.

(** One iteration, on a slice of [V] that still holds the identity. *)
Lemma chol_inv_body_ok (buf : list F) (i : list nat) (x : ndarray F) :
  in_bounds batch i = true ->
  (forall o, in_bounds [n; n] o = true ->
     item (arr buf) (i ++ o) = item (np_identity n) o) ->
  inverse_at h U n i = Ret x -> shape x = [n; n] ->
  exists buf',
    chol_inv_body U V i (h ++ [buf]) = (h ++ [buf'], Ret tt)
    /\ forall j o, in_bounds batch j = true -> in_bounds [n; n] o = true ->
         item (arr buf') (j ++ o)
         = if decide (j = i) then item x o else item (arr buf) (j ++ o).
Proof.
  intros Hi Hid Hx Hsx.
  assert (HVi : slice (arr buf) i [n; n] = np_identity n).
  { unfold slice. rewrite <- (tabulate_item (np_identity n)) by apply wf_tabulate.
    apply tabulate_ext. exact Hid. }
  unfold inverse_at in Hx.
  rewrite (getitem_ints (value_of h U) batch [k; n] i HsU Hi) in Hx. cbn [obind] in Hx.
  destruct (overwritten_ints (arr buf)
              (cho_solve_leaves (slice (value_of h U) i [k; n], false) (np_identity n))
              batch [n; n] i eq_refl Hi) as [Hso Hio].
  set (W := overwritten (arr buf) (ints i)
              (cho_solve_leaves (slice (value_of h U) i [k; n], false) (np_identity n)))
    in *.
  exists (data (assign_slice W batch i x)). split.
  - unfold chol_inv_body.
    unfold bind at 1. change (load_global "linalg" (h ++ [buf])) with (h ++ [buf], @Ret unit tt).
    cbv beta iota.
    unfold bind at 1, deref at 1. cbv beta iota.
    fold (value_of (h ++ [buf]) U). rewrite value_of_kept by exact HU.
    unfold bind at 1, lift at 1.
    rewrite (getitem_ints (value_of h U) batch [k; n] i HsU Hi). cbv beta iota.
    unfold bind at 1, deref at 1. cbv beta iota.
    subst V. cbn [base ashape]. rewrite nth_fresh. fold (arr buf).
    unfold bind at 1, lift at 1.
    rewrite (getitem_ints (arr buf) batch [n; n] i eq_refl Hi), HVi. cbv beta iota.
    unfold bind at 1, lift at 1. rewrite Hx. cbv beta iota.
    unfold bind at 1, write at 1. cbv beta iota. cbn [base]. rewrite insert_fresh.
    fold W.
    unfold bind at 1, deref at 1. cbv beta iota. cbn [base ashape]. rewrite nth_fresh.
    assert (HW : mk_nd (batch ++ [n; n]) (data W) = W)
      by (destruct W as [s d]; cbn [shape data] in *; now rewrite Hso).
    rewrite HW. unfold bind, lift.
    rewrite (setitem_ints W x batch [n; n] i Hso Hi Hsx).
    unfold write. cbn [base]. now rewrite insert_fresh.
  - intros j o Hj Ho.
    assert (Ha : arr (data (assign_slice W batch i x)) = assign_slice W batch i x)
      by (unfold arr, assign_slice, tabulate; cbn [data shape]; now rewrite Hso).
    rewrite Ha, (item_assign_slice W x batch [n; n] i j o Hso Hj Ho).
    destruct (decide (j = i)) as [->|Hne]; [reflexivity|].
    now apply Hio.
Qed.

(** One iteration whose solve fails: the exception leaves the loop. *)
Lemma chol_inv_body_fail (buf : list F) (i : list nat) (e : exn) :
  in_bounds batch i = true ->
  (forall o, in_bounds [n; n] o = true ->
     item (arr buf) (i ++ o) = item (np_identity n) o) ->
  inverse_at h U n i = Raise e ->
  chol_inv_body U V i (h ++ [buf]) = (h ++ [buf], Raise e).
Proof.
  intros Hi Hid Hx.
  assert (HVi : slice (arr buf) i [n; n] = np_identity n).
  { unfold slice. rewrite <- (tabulate_item (np_identity n)) by apply wf_tabulate.
    apply tabulate_ext. exact Hid. }
  unfold inverse_at in Hx.
  rewrite (getitem_ints (value_of h U) batch [k; n] i HsU Hi) in Hx. cbn [obind] in Hx.
  unfold chol_inv_body.
  unfold bind at 1. change (load_global "linalg" (h ++ [buf])) with (h ++ [buf], @Ret unit tt).
  cbv beta iota.
  unfold bind at 1, deref at 1. cbv beta iota.
  fold (value_of (h ++ [buf]) U). rewrite value_of_kept by exact HU.
  unfold bind at 1, lift at 1.
  rewrite (getitem_ints (value_of h U) batch [k; n] i HsU Hi). cbv beta iota.
  unfold bind at 1, deref at 1. cbv beta iota.
  subst V. cbn [base ashape]. rewrite nth_fresh. fold (arr buf).
  unfold bind at 1, lift at 1.
  rewrite (getitem_ints (arr buf) batch [n; n] i eq_refl Hi), HVi. cbv beta iota.
  unfold bind at 1, lift at 1. now rewrite Hx.
Qed.

Lemma chol_inv_loop_ok (l : list (list nat)) (buf : list F) :
  List.NoDup l ->
  (forall i, In i l ->
     in_bounds batch i = true
     /\ exists x, inverse_at h U n i = Ret x /\ shape x = [n; n]) ->
  (forall i o, In i l -> in_bounds [n; n] o = true ->
     item (arr buf) (i ++ o) = item (np_identity n) o) ->
  exists buf',
    for_ l (chol_inv_body U V) (h ++ [buf]) = (h ++ [buf'], Ret tt)
    /\ forall j o, in_bounds batch j = true -> in_bounds [n; n] o = true ->
         (forall x, In j l -> inverse_at h U n j = Ret x ->
                    item (arr buf') (j ++ o) = item x o)
         /\ (~ In j l -> item (arr buf') (j ++ o) = item (arr buf) (j ++ o)).
Proof.
  revert buf. induction l as [|i l IH]; intros buf Hnd Hall Hid.
  - exists buf. split; [reflexivity|]. intros j o _ _. split; [intros x []|reflexivity].
  - apply List.NoDup_cons_iff in Hnd as [Hni Hnd'].
    destruct (Hall i (or_introl eq_refl)) as (Hi & x & Hx & Hsx).
    destruct (chol_inv_body_ok buf i x Hi (fun o => Hid i o (or_introl eq_refl)) Hx Hsx)
      as (buf1 & Hrun & Hitem).
    destruct (IH buf1 Hnd') as (buf' & Hloop & Hfin).
    + intros j Hj. apply Hall. now right.
    + intros j o Hj Ho.
      destruct (Hall j (or_intror Hj)) as [Hbj _].
      rewrite (Hitem j o Hbj Ho).
      destruct (decide (j = i)) as [->|]; [contradiction|].
      apply Hid; [now right|exact Ho].
    + exists buf'. split.
      * cbn [for_]. now rewrite (bind_Ret _ _ _ _ _ Hrun).
      * intros j o Hj Ho. destruct (Hfin j o Hj Ho) as [Hin Hout]. split.
        -- intros y [<-|Hjl] Hy; [|now apply Hin].
           rewrite (Hout Hni), (Hitem i o Hi Ho).
           destruct (decide (i = i)); congruence.
        -- intros Hnin. rewrite Hout by (intros Hl; apply Hnin; now right).
           rewrite (Hitem j o Hj Ho).
           destruct (decide (j = i)) as [->|]; [|reflexivity].
           exfalso. apply Hnin. now left.
Qed.

Lemma for_app {A} (l1 l2 : list A) (body : A -> M F unit) (s : heap F) :
  for_ (l1 ++ l2) body s = bind (for_ l1 body) (fun _ => for_ l2 body) s.
Proof.
  revert s. induction l1 as [|a l1 IH]; intros s; [reflexivity|].
  cbn [app for_]. unfold bind.
  destruct (body a s) as [s' [[]|e]]; [|reflexivity].
  rewrite IH. reflexivity.
Qed.

Lemma chol_inv_loop_fail (l1 l2 : list (list nat)) (i : list nat) (e : exn)
    (buf : list F) :
  List.NoDup (l1 ++ i :: l2) ->
  (forall j, In j l1 ->
     in_bounds batch j = true
     /\ exists x, inverse_at h U n j = Ret x /\ shape x = [n; n]) ->
  in_bounds batch i = true ->
  inverse_at h U n i = Raise e ->
  (forall j o, In j (l1 ++ i :: l2) -> in_bounds [n; n] o = true ->
     item (arr buf) (j ++ o) = item (np_identity n) o) ->
  exists buf',
    for_ (l1 ++ i :: l2) (chol_inv_body U V) (h ++ [buf]) = (h ++ [buf'], Raise e).
Proof.
  intros Hnd Hall Hi He Hid.
  destruct (chol_inv_loop_ok l1 buf) as (buf1 & Hloop & Hfin).
  - now apply List.NoDup_app_remove_r in Hnd.
  - exact Hall.
  - intros j o Hj Ho. apply Hid; [apply in_or_app; now left|exact Ho].
  - exists buf1. rewrite for_app, (bind_Ret _ _ _ _ _ Hloop). cbn [for_].
    apply bind_Raise. apply chol_inv_body_fail; [exact Hi| |exact He].
    intros o Ho. destruct (Hfin i o Hi Ho) as [_ Hout].
    rewrite Hout by (apply List.NoDup_remove_2 in Hnd; intros Hl; apply Hnd, in_or_app; now left).
    apply Hid; [apply in_or_app; right; now left|exact Ho].
Qed.

End Loop.

Lemma py_getitem_last {A} (l : list A) (x : A) : py_getitem (l ++ [x]) (-1) = Ret x.
Proof.
  rewrite (py_getitem_neg _ _ x) by (rewrite length_app; simpl; lia).
  rewrite length_app. cbn [length].
  replace (Z.to_nat (-1 + Z.of_nat (length l + 1))) with (length l) by lia.
  now rewrite app_nth2, Nat.sub_diag by lia.
Qed.

(** [chol_inv] before its loop has run: [V] is a fresh batch of identity
    matrices. *)
Lemma chol_inv_start (U : aref) (h : heap F) (batch : list nat) (k n : nat) :
  ashape U = batch ++ [k; n] ->
  let V0 := np_tile (np_identity n) (batch ++ [1; 1]) in
  let V := mk_ref (length h) (batch ++ [n; n]) in
  chol_inv (FDense U) h
  = (for_ (nested_iterator batch) (chol_inv_body U V) ;; ret V) (h ++ [data V0]).
Proof.
  intros Hs V0 V.
  assert (Hn : py_getitem (ashape U) (-1) = Ret n).
  { rewrite Hs. change (batch ++ [k; n]) with (batch ++ [k] ++ [n]).
    rewrite app_assoc. apply py_getitem_last. }
  rewrite (chol_inv_dense_unfold U h n Hn). cbn zeta.
  rewrite Hs, drop_last_2, shape_tile_identity. reflexivity.
Qed.

End InverseFacts.

Lemma tile_identity_buffer {F} {SF : Scalar F} (batch : list nat) (n : nat) :
  mk_nd (batch ++ [n; n]) (data (np_tile (np_identity n) (batch ++ [1; 1])))
  = np_tile (np_identity n) (batch ++ [1; 1]).
Proof.
  pose proof (shape_tile_identity (F:=F) batch n) as Hs.
  destruct (np_tile (np_identity n) (batch ++ [1; 1])) as [s d].
  cbn [shape data] in *. now rewrite Hs.
Qed.

(** [chol_inv] on a batch whose slices are all solved. *)
Lemma chol_inv_dense_ok {F : Type} {SF : Scalar F} {CS : ChoSolve F}
    (h : heap F) (U : aref) (batch : list nat) (k n : nat) :
  base U < length h ->
  ashape U = batch ++ [k; n] ->
  (forall i, In i (nested_iterator batch) ->
     exists x, inverse_at h U n i = Ret x /\ shape x = [n; n]) ->
  exists h' V,
    chol_inv (FDense U) h = (h', Ret V)
    /\ untouched h h'
    /\ fresh_in h V
    /\ ashape V = batch ++ [n; n]
    /\ forall i x o, in_bounds batch i = true -> inverse_at h U n i = Ret x ->
         in_bounds [n; n] o = true ->
         item (value_of h' V) (i ++ o) = item x o.
Proof.
  intros HU Hs Hall.
  set (V := mk_ref (length h) (batch ++ [n; n])).
  set (V0 := np_tile (np_identity n) (batch ++ [1; 1])).
  destruct (chol_inv_loop_ok h U V batch k n HU Hs eq_refl
              (nested_iterator batch) (data V0)) as (buf & Hloop & Hfin).
  - apply NoDup_ndindex.
  - intros i Hi. split; [now apply in_ndindex|now apply Hall].
  - intros i o Hi Ho. unfold V0. rewrite tile_identity_buffer.
    apply item_tile_identity; [now apply in_ndindex|exact Ho].
  - exists (h ++ [buf]), V.
    split; [rewrite (chol_inv_start U h batch k n Hs); cbn zeta;
            now rewrite (bind_Ret _ _ _ _ _ Hloop)|].
    split; [eexists; reflexivity|]. split; [apply le_n|]. split; [reflexivity|].
    intros i x o Hi Hx Ho. unfold value_of. cbn [base ashape V]. rewrite nth_fresh.
    destruct (Hfin i o Hi Ho) as [Hin _]. apply Hin; [now apply in_ndindex|exact Hx].
Qed.

(** X10: for a dense batch [U] of factors, of shape [batch ++ [k; n]],
    that is already in the store, if [cho_solve] solves every slice
    against the identity of order n and returns an n x n matrix, then
    [chol_inv(U)] returns a new array of shape [batch ++ [n; n]] whose
    slice [i] is exactly what [cho_solve((U[i], False), I)] returns: each
    slice is solved against the identity, whatever the solves of the other
    slices wrote, and whatever the solver left in the memory it was
    allowed to overwrite. *)
Theorem X10_chol_inv_slices {F : Type} {SF : Scalar F} {CS : ChoSolve F}
    (h : heap F) (U : aref) (batch : list nat) (k n : nat) :
  base U < length h ->
  ashape U = batch ++ [k; n] ->
  (forall i, In i (nested_iterator batch) ->
     exists x, inverse_at h U n i = Ret x /\ shape x = [n; n]) ->
  exists h' V,
    chol_inv (FDense U) h = (h', Ret V)
    /\ untouched h h'
    /\ fresh_in h V
    /\ ashape V = batch ++ [n; n]
    /\ forall i x o, in_bounds batch i = true -> inverse_at h U n i = Ret x ->
         in_bounds [n; n] o = true ->
         item (value_of h' V) (i ++ o) = item x o.
Proof. apply chol_inv_dense_ok. Qed.

Lemma X10_chol_inv_slices_witness :
  exists h' V,
    chol_inv (FDense (mk_ref 0 [2; 2; 2])) x10_store = (h', Ret V)
    /\ ashape V = [2; 2; 2]
    /\ item (value_of h' V) [0; 0; 1] = (-0.125)%float.
Proof.
  destruct (X10_chol_inv_slices x10_store (mk_ref 0 [2; 2; 2]) [2] 2 2)
    as (h' & V & H1 & _ & _ & H2 & H3).
  - simpl. lia.
  - reflexivity.
  - intros i Hi. simpl in Hi. destruct Hi as [<-|[<-|[]]];
      (eexists; split; [vm_compute; reflexivity|reflexivity]).
  - exists h', V. split; [exact H1|]. split; [exact H2|].
    apply (H3 [0] (mk_nd [2; 2] [0.3125; -0.125; -0.125; 0.25]%float) [0; 1]);
      [reflexivity|vm_compute; reflexivity|reflexivity].
Defined.

(** X11: [chol_inv] converts no exception: when the slices before [i] (in
    the order of the iteration) are solved and the solve of slice [i]
    raises [e], the call raises that same [e] and returns no array; the
    buffers that existed before the call are unchanged. *)
Theorem X11_chol_inv_failure {F : Type} {SF : Scalar F} {CS : ChoSolve F}
    (h : heap F) (U : aref) (batch : list nat) (k n : nat)
    (l1 l2 : list (list nat)) (i : list nat) (e : exn) :
  base U < length h ->
  ashape U = batch ++ [k; n] ->
  nested_iterator batch = l1 ++ i :: l2 ->
  (forall j, In j l1 -> exists x, inverse_at h U n j = Ret x /\ shape x = [n; n]) ->
  inverse_at h U n i = Raise e ->
  exists h', chol_inv (FDense U) h = (h', Raise e) /\ untouched h h'.
Proof.
  intros HU Hs Hl Hall He.
  set (V := mk_ref (length h) (batch ++ [n; n])).
  set (V0 := np_tile (np_identity n) (batch ++ [1; 1])).
  assert (Hin : forall j, In j (l1 ++ i :: l2) -> in_bounds batch j = true)
    by (intros j Hj; apply in_ndindex; unfold nested_iterator in Hl; now rewrite Hl).
  destruct (chol_inv_loop_fail h U V batch k n HU Hs eq_refl l1 l2 i e (data V0))
    as (buf & Hloop).
  - rewrite <- Hl. apply NoDup_ndindex.
  - intros j Hj. split; [apply Hin, in_or_app; now left|now apply Hall].
  - apply Hin, in_or_app. right. now left.
  - exact He.
  - intros j o Hj Ho. unfold V0. rewrite tile_identity_buffer.
    apply item_tile_identity; [now apply Hin|exact Ho].
  - exists (h ++ [buf]).
    split; [|eexists; reflexivity].
    rewrite (chol_inv_start U h batch k n Hs). cbn zeta. rewrite Hl.
    now apply bind_Raise.
Qed.

Lemma X11_chol_inv_failure_witness :
  exists h',
    chol_inv (FDense (mk_ref 0 [2; 2; 2])) x11_store
    = (h', Raise (ValueError "array must not contain infs or NaNs"))
    /\ untouched x11_store h'.
Proof.
  apply (X11_chol_inv_failure x11_store (mk_ref 0 [2; 2; 2]) [2] 2 2 [[0]] [] [1]).
  - simpl. lia.
  - reflexivity.
  - reflexivity.
  - intros j Hj. simpl in Hj. destruct Hj as [<-|[]].
    eexists. split; [vm_compute; reflexivity|reflexivity].
  - vm_compute. reflexivity.
Defined.

(** X12: [chol_inv] of a 0-dimensional array raises [IndexError] (its
    shape has no last entry to read the order from); nothing is allocated
    and the store is as it was. *)
Theorem X12_chol_inv_scalar {F : Type} {SF : Scalar F} {CS : ChoSolve F}
    (h : heap F) (U : aref) :
  ashape U = [] ->
  exists msg, chol_inv (FDense U) h = (h, Raise (IndexError msg)).
Proof.
  intros Hs. unfold chol_inv, bind, lift. run_np. rewrite Hs.
  eexists. reflexivity.
Qed.

Lemma X12_chol_inv_scalar_witness :
  exists msg,
    chol_inv (FDense (mk_ref 0 [])) [[4%float]] = ([[4%float]], Raise (IndexError msg)).
Proof. apply (X12_chol_inv_scalar [[4%float]] (mk_ref 0 [])). reflexivity. Defined.

(** ** [chol], once more *)

Section CholMore.
Context {F : Type} {SF : Scalar F} {CF : ChoFactor F} {CM : Cholmod F}.

Lemma length_fill (h : heap F) (C : aref) (batch : list nat) (n m : nat)
    (l : list (list nat)) (buf : list F) :
  length buf = size (batch ++ [n; m]) ->
  length (fill h C batch n m l buf) = size (batch ++ [n; m]).
Proof.
  revert buf. induction l as [|i l IH]; intros buf Hb; [exact Hb|].
  change (fill h C batch n m (i :: l) buf)
    with (fill h C batch n m l
            (data (assign_slice (mk_nd (batch ++ [n; m]) buf) batch i (factor_of h C i)))).
  apply IH. unfold assign_slice, tabulate. cbn [data shape].
  now rewrite length_map, length_ndindex.
Qed.

(** Two arrays of one shape with the same elements are the same array. *)
Lemma ndarray_ext (sh : list nat) (d1 d2 : list F) :
  length d1 = size sh -> length d2 = size sh ->
  (forall idx, in_bounds sh idx = true -> item (mk_nd sh d1) idx = item (mk_nd sh d2) idx) ->
  d1 = d2.
Proof.
  intros H1 H2 H.
  pose proof (tabulate_item (mk_nd sh d1) H1) as E1.
  pose proof (tabulate_item (mk_nd sh d2) H2) as E2.
  cbn [shape] in *. rewrite (tabulate_ext sh _ _ H), E2 in E1. congruence.
Qed.

(** Once the loop has run over every index, nothing of the initial content
    of the buffer is left. *)
Lemma fill_all (h : heap F) (C : aref) (batch : list nat) (n m : nat)
    (b1 b2 : list F) :
  length b1 = size (batch ++ [n; m]) -> length b2 = size (batch ++ [n; m]) ->
  fill h C batch n m (nested_iterator batch) b1
  = fill h C batch n m (nested_iterator batch) b2.
Proof.
  intros H1 H2. apply (ndarray_ext (batch ++ [n; m])); try now apply length_fill.
  intros idx Hb.
  pose proof (in_bounds_length _ _ Hb) as Hl. rewrite length_app in Hl.
  rewrite <- (take_drop (length batch) idx) in Hb |- *.
  apply in_bounds_app_inv in Hb as [Hi Ho]; [|rewrite length_take; lia].
  assert (Hin : In (take (length batch) idx) (nested_iterator batch))
    by now apply in_ndindex.
  destruct (item_fill h C batch n m (nested_iterator batch) b1 _ _ Hi Ho) as [E1 _].
  destruct (item_fill h C batch n m (nested_iterator batch) b2 _ _ Hi Ho) as [E2 _].
  now rewrite (E1 Hin), (E2 Hin).
Qed.

Lemma chol_dense_run {UF : Uninit F} (h : heap F) (C : aref) (batch : list nat)
    (n m : nat) :
  base C < length h ->
  ashape C = batch ++ [n; m] ->
  (forall i, In i (nested_iterator batch) -> factors h C n m i) ->
  chol (MDense C) h
  = (h ++ [fill h C batch n m (nested_iterator batch)
             (map uninitialized (seq 0 (size (batch ++ [n; m]))))],
     Ret (FDense (mk_ref (length h) (batch ++ [n; m])))).
Proof.
  intros HC Hs Hall.
  rewrite chol_dense_unfold. cbn zeta. rewrite Hs, atleast_2d_shape_batch.
  cbn [ashape]. rewrite drop_last_2.
  assert (HC2 : mk_ref (base C) (batch ++ [n; m]) = C) by (destruct C; simpl in *; congruence).
  rewrite HC2.
  assert (Hloop : forall i, In i (nested_iterator batch) ->
                    in_bounds batch i = true /\ factors h C n m i).
  { intros i Hi. split; [now apply in_ndindex|now apply Hall]. }
  rewrite (bind_Ret _ _ _ _ _
             (chol_loop_ok h C _ batch n m HC eq_refl (nested_iterator batch) _ Hloop)).
  reflexivity.
Qed.

(** The promoted view [np.atleast_2d(C)] is what [chol] works on. *)
Lemma chol_promoted {UF : Uninit F} (h : heap F) (C : aref) :
  chol (MDense C) h
  = chol (MDense (mk_ref (base C) (atleast_2d_shape (ashape C)))) h.
Proof.
  rewrite !chol_dense_unfold. cbn zeta. cbn [base ashape].
  assert (E : atleast_2d_shape (atleast_2d_shape (ashape C)) = atleast_2d_shape (ashape C))
    by (destruct (ashape C) as [|a [|b l]]; reflexivity).
  now rewrite E.
Qed.

(** An iteration whose factorisation raises something else than
    [LinAlgError]: the handler does not run. *)
Lemma chol_body_other (h : heap F) (C U : aref) (buf : list F) (i : list nat) (e : exn) :
  base C < length h ->
  factor_at h C i = Raise e -> is_LinAlgError e = false ->
  chol_body C U i (h ++ [buf]) = (h ++ [buf], Raise e).
Proof.
  intros HC Hf He. unfold chol_body, try_except, factor_at in *.
  unfold bind at 1. change (load_global "linalg" (h ++ [buf])) with (h ++ [buf], @Ret unit tt).
  cbv beta iota.
  unfold bind at 1, deref at 1. cbv beta iota.
  fold (value_of (h ++ [buf]) C). rewrite value_of_kept by exact HC.
  unfold bind at 1, lift at 1.
  destruct (getitem (value_of h C) (ints i)) as [Ci|e'].
  - cbn [obind] in Hf. cbv beta iota. unfold bind at 1, lift at 1.
    rewrite Hf. cbv beta iota. now rewrite He.
  - cbn [obind] in Hf. injection Hf as ->. now rewrite He.
Qed.

End CholMore.

(** X13: what [chol] returns does not depend on the content of the memory
    that [np.empty] hands out: when every slice factorises, whatever the
    fresh buffer held, every element of the result has been overwritten by
    a factor, so the final store and the result are the same. *)
Theorem X13_chol_ignores_uninitialised {F : Type} {SF : Scalar F} {CF : ChoFactor F}
    {CM : Cholmod F} (UF1 UF2 : Uninit F)
    (h : heap F) (C : aref) (batch : list nat) (n m : nat) :
  base C < length h ->
  ashape C = batch ++ [n; m] ->
  (forall i, In i (nested_iterator batch) -> factors h C n m i) ->
  chol (UF := UF1) (MDense C) h = chol (UF := UF2) (MDense C) h.
Proof.
  intros HC Hs Hall.
  rewrite (chol_dense_run (UF := UF1) h C batch n m HC Hs Hall).
  rewrite (chol_dense_run (UF := UF2) h C batch n m HC Hs Hall).
  do 3 f_equal. apply fill_all; now rewrite length_map, length_seq.
Qed.

Lemma X13_chol_ignores_uninitialised_witness :
  chol (UF := fun _ => nan) (MDense c7_C) c7_store
  = chol (UF := fun k => float_of_int (Z.of_nat k)) (MDense c7_C) c7_store.
Proof.
  apply (X13_chol_ignores_uninitialised _ _ c7_store c7_C [] 2 2).
  - simpl. lia.
  - reflexivity.
  - intros i Hi. simpl in Hi. destruct Hi as [<-|[]].
    eexists _, _. split; [vm_compute; reflexivity|reflexivity].
Defined.

(** X14: [chol] converts [LinAlgError] only.  When the slices before [i]
    (in the order of the iteration) factorise and the factorisation of
    slice [i] raises an exception [e] of another class (a [ValueError] for
    an entry that is not finite, say), the call raises [e] itself, not
    [Exception('Matrix not positive definite')]; it returns no array and
    the buffers that existed before are unchanged. *)
Theorem X14_chol_other_exception {F : Type} {SF : Scalar F} {UF : Uninit F}
    {CF : ChoFactor F} {CM : Cholmod F}
    (h : heap F) (C : aref) (batch : list nat) (n m : nat)
    (l1 l2 : list (list nat)) (i : list nat) (e : exn) :
  base C < length h ->
  ashape C = batch ++ [n; m] ->
  nested_iterator batch = l1 ++ i :: l2 ->
  (forall j, In j l1 -> factors h C n m j) ->
  factor_at h C i = Raise e ->
  is_LinAlgError e = false ->
  exists h', chol (MDense C) h = (h', Raise e) /\ untouched h h'.
Proof.
  intros HC Hs Hl Hall Hf He.
  set (U := mk_ref (length h) (batch ++ [n; m])).
  set (init := map uninitialized (seq 0 (size (batch ++ [n; m])))).
  assert (Hloop : forall j, In j l1 -> in_bounds batch j = true /\ factors h C n m j).
  { intros j Hj. split; [|now apply Hall].
    apply in_ndindex. unfold nested_iterator in Hl. rewrite Hl.
    apply in_or_app. now left. }
  pose proof (chol_loop_ok h C U batch n m HC eq_refl l1 init Hloop) as Hrun.
  exists (h ++ [fill h C batch n m l1 init]). split; [|eexists; reflexivity].
  rewrite chol_dense_unfold. cbn zeta. rewrite Hs, atleast_2d_shape_batch.
  cbn [ashape]. rewrite drop_last_2, Hl.
  assert (HC2 : mk_ref (base C) (batch ++ [n; m]) = C) by (destruct C; simpl in *; congruence).
  rewrite HC2. apply bind_Raise.
  rewrite for_app, (bind_Ret _ _ _ _ _ Hrun). cbn [for_].
  apply bind_Raise. now apply chol_body_other.
Qed.

Lemma X14_chol_other_exception_witness :
  exists h',
    chol (MDense (mk_ref 0 [2; 2; 2])) x14_store
    = (h', Raise (ValueError "array must not contain infs or NaNs"))
    /\ untouched x14_store h'.
Proof.
  apply (X14_chol_other_exception x14_store (mk_ref 0 [2; 2; 2]) [2] 2 2 [[0]] [] [1]).
  - simpl. lia.
  - reflexivity.
  - reflexivity.
  - intros j Hj. simpl in Hj. destruct Hj as [<-|[]].
    eexists _, _. split; [vm_compute; reflexivity|reflexivity].
  - vm_compute. reflexivity.
  - reflexivity.
Defined.

(** X15: [chol] works on [np.atleast_2d(C)]: for a 0-dimensional or
    1-dimensional [C] whose promoted view (1 x 1, or 1 x n) is factorised,
    the result is the 2-dimensional array that [cho_factor] returned for
    that view, not an array of the shape of [C]. *)
Theorem X15_chol_promotes_to_2d {F : Type} {SF : Scalar F} {UF : Uninit F}
    {CF : ChoFactor F} {CM : Cholmod F}
    (h : heap F) (C : aref) (R : ndarray F) (lw : bool) :
  base C < length h ->
  length (ashape C) < 2 ->
  factor_at h (mk_ref (base C) (atleast_2d_shape (ashape C))) [] = Ret (R, lw) ->
  shape R = atleast_2d_shape (ashape C) ->
  wf R ->
  exists h' U,
    chol (MDense C) h = (h', Ret (FDense U))
    /\ untouched h h'
    /\ length (ashape U) = 2
    /\ value_of h' U = R.
Proof.
  intros HC Hlen Hf HR Hwf.
  assert (exists m, atleast_2d_shape (ashape C) = [] ++ [1; m]) as [m Hs].
  { destruct (ashape C) as [|d [|d' l]]; simpl in *; [now exists 1|now exists d|lia]. }
  rewrite Hs in *. set (C2 := mk_ref (base C) ([] ++ [1; m])) in *.
  assert (Hall : forall i, In i (nested_iterator []) -> factors h C2 1 m i).
  { intros i [<-|[]]. exists R, lw. split; [exact Hf|exact HR]. }
  pose proof (chol_dense_run h C2 [] 1 m HC eq_refl Hall) as Hrun.
  rewrite chol_promoted, Hs. fold C2. rewrite Hrun.
  eexists _, _. split; [reflexivity|]. split; [eexists; reflexivity|].
  split; [reflexivity|].
  unfold value_of. cbn [base ashape]. rewrite nth_fresh.
  destruct R as [sR dR]. cbn [shape] in HR. subst sR. f_equal.
  apply (ndarray_ext ([] ++ [1; m])).
  - apply length_fill. now rewrite length_map, length_seq.
  - exact Hwf.
  - intros idx Hb.
    destruct (item_fill h C2 [] 1 m (nested_iterator [])
                (map uninitialized (seq 0 (size ([] ++ [1; m])))) [] idx eq_refl Hb)
      as [E _].
    change ([] ++ idx) with idx in E. rewrite E by (now left).
    unfold factor_of. now rewrite Hf.
Qed.

Lemma X15_chol_promotes_to_2d_witness :
  exists h' U,
    chol (MDense (mk_ref 0 [])) [[4%float]] = (h', Ret (FDense U))
    /\ length (ashape U) = 2
    /\ value_of h' U = mk_nd [1; 1] [2%float].
Proof.
  destruct (X15_chol_promotes_to_2d [[4%float]] (mk_ref 0 [])
              (mk_nd [1; 1] [2%float]) false)
    as (h' & U & H1 & _ & H2 & H3).
  - simpl. lia.
  - simpl. lia.
  - vm_compute. reflexivity.
  - reflexivity.
  - reflexivity.
  - exists h', U. split; [exact H1|]. split; [exact H2|exact H3].
Defined.

(** X16: [chol_inv(chol(C))], for a dense batch [C] of square matrices that
    is already in the store: when [cho_factor] factorises every slice and
    [cho_solve] solves every factor against the identity, the call returns
    a new array of the shape of [C] whose slice [i] is what
    [cho_solve((R, False), I)] returns for the matrix [R] that
    [cho_factor(C[i])] returned.  The flag [lower] that [cho_factor]
    returned is dropped by [chol]; [chol_inv] always passes [False]. *)
Theorem X16_chol_inv_of_chol {F : Type} {SF : Scalar F} {UF : Uninit F}
    {CF : ChoFactor F} {CS : ChoSolve F} {CM : Cholmod F}
    (h : heap F) (C : aref) (batch : list nat) (n : nat) :
  base C < length h ->
  ashape C = batch ++ [n; n] ->
  (forall i, In i (nested_iterator batch) ->
     exists R lw x,
       factor_at h C i = Ret (R, lw) /\ shape R = [n; n] /\ wf R
       /\ cho_solve (R, false) (np_identity n) = Ret x /\ shape x = [n; n]) ->
  exists h' V,
    bind (chol (MDense C)) chol_inv h = (h', Ret V)
    /\ untouched h h'
    /\ ashape V = batch ++ [n; n]
    /\ forall i R lw x o,
         in_bounds batch i = true -> factor_at h C i = Ret (R, lw) ->
         cho_solve (R, false) (np_identity n) = Ret x ->
         in_bounds [n; n] o = true ->
         item (value_of h' V) (i ++ o) = item x o.
Proof.
  intros HC Hs Hall.
  destruct (chol_dense_ok h C batch n n HC Hs) as (buf & Hrun & Hitem).
  { intros i Hi. destruct (Hall i Hi) as (R & lw & x & Hf & HR & _).
    exists R, lw. auto. }
  set (U := mk_ref (length h) (batch ++ [n; n])) in *.
  set (h1 := h ++ [buf]) in *.
  assert (Hslice : forall i R lw, in_bounds batch i = true ->
            factor_at h C i = Ret (R, lw) ->
            inverse_at h1 U n i = cho_solve (R, false) (np_identity n)).
  { intros i R lw Hi Hf.
    destruct (Hall i (proj2 (in_ndindex batch i) Hi))
      as (R' & lw' & x & Hf' & HR & Hwf & _).
    assert (R' = R) as -> by congruence.
    unfold inverse_at.
    rewrite (getitem_ints (value_of h1 U) batch [n; n] i eq_refl Hi). cbn [obind].
    f_equal. f_equal. unfold slice.
    rewrite <- (tabulate_item R Hwf), HR. apply tabulate_ext.
    intros o Ho. rewrite (Hitem i o Hi Ho). unfold factor_of. now rewrite Hf. }
  destruct (chol_inv_dense_ok h1 U batch n n) as (h' & V & HV & Hun & _ & HsV & HiV).
  - unfold h1. rewrite length_app. simpl. lia.
  - reflexivity.
  - intros i Hi. apply in_ndindex in Hi.
    destruct (Hall i (proj2 (in_ndindex batch i) Hi))
      as (R & lw & x & Hf & _ & _ & Hx & Hsx).
    exists x. rewrite (Hslice i R lw Hi Hf). auto.
  - exists h', V. split; [unfold bind; rewrite Hrun; exact HV|].
    split.
    + destruct Hun as [fresh ->]. exists (buf :: fresh). unfold h1.
      now rewrite <- app_assoc.
    + split; [exact HsV|]. intros i R lw x o Hi Hf Hx Ho.
      apply HiV; [exact Hi| |exact Ho]. now rewrite (Hslice i R lw Hi Hf).
Qed.

Lemma X16_chol_inv_of_chol_witness :
  exists h' V,
    bind (chol (MDense c7_C)) chol_inv c7_store = (h', Ret V)
    /\ ashape V = [2; 2]
    /\ item (value_of h' V) [0; 1] = (-0.125)%float.
Proof.
  destruct (X16_chol_inv_of_chol c7_store c7_C [] 2)
    as (h' & V & H1 & _ & H2 & H3).
  - simpl. lia.
  - reflexivity.
  - intros i Hi. simpl in Hi. destruct Hi as [<-|[]].
    exists (mk_nd [2; 2] [2; 1; 2; 2]%float), false,
           (mk_nd [2; 2] [0.3125; -0.125; -0.125; 0.25]%float).
    repeat split; vm_compute; reflexivity.
  - exists h', V. split; [exact H1|]. split; [exact H2|].
    apply (H3 [] (mk_nd [2; 2] [2; 1; 2; 2]%float) false
              (mk_nd [2; 2] [0.3125; -0.125; -0.125; 0.25]%float) [0; 1]);
      vm_compute; reflexivity.
Defined.

(** ** The number of axes the log-determinant functions accept *)

(** X17: [chol_logdet] takes one matrix, not a batch: for a dense [U] with
    more than two axes, or with none, it raises [ValueError] (from
    [np.diag]) and the store is as it was. *)
Theorem X17_chol_logdet_rejects_batches {F : Type} {SF : Scalar F} {LF : Log F}
    {AR : AddReduce F} (h : heap F) (U : aref) :
  length (ashape U) = 0 \/ 2 < length (ashape U) ->
  exists msg, chol_logdet (FDense U) h = (h, Raise (ValueError msg)).
Proof.
  intros Hl. unfold chol_logdet, bind, deref, lift. run_np.
  unfold np_diag. cbn [shape].
  destruct (ashape U) as [|a [|b [|c l]]]; simpl in Hl; try lia; eexists; reflexivity.
Qed.

Lemma X17_chol_logdet_rejects_batches_witness :
  exists msg,
    chol_logdet (FDense (mk_ref 0 [2; 2; 2])) c6w_store
    = (c6w_store, Raise (ValueError msg)).
Proof.
  apply (X17_chol_logdet_rejects_batches c6w_store (mk_ref 0 [2; 2; 2])).
  right. simpl. lia.
Defined.

(** X18: [logdet_chol] needs at least two axes: for a dense [U] with fewer,
    it raises [ValueError] (from [np.einsum]) and the store is as it was. *)
Theorem X18_logdet_chol_too_few_axes {F : Type} {SF : Scalar F} {LF : Log F}
    {AR : AddReduce F} (h : heap F) (U : aref) :
  length (ashape U) < 2 ->
  exists msg, logdet_chol (FDense U) h = (h, Raise (ValueError msg)).
Proof.
  intros Hl. unfold logdet_chol, bind, deref, lift. run_np.
  unfold einsum_diag. cbn [shape].
  destruct (rev (ashape U)) as [|a [|b l]] eqn:E; try (eexists; reflexivity).
  apply (f_equal (@length nat)) in E. rewrite length_rev in E. simpl in E. lia.
Qed.

Lemma X18_logdet_chol_too_few_axes_witness :
  exists msg,
    logdet_chol (FDense (mk_ref 1 [4])) c6w_store = (c6w_store, Raise (ValueError msg)).
Proof.
  apply (X18_logdet_chol_too_few_axes c6w_store (mk_ref 1 [4])). simpl. lia.
Defined.
